(** * Internal keys, comparator adapter, lookup keys and write batches

    A shallow embedding of [db/dbformat.cc] and [db/write_batch.cc] of the
    multi-version (MV) LevelDB fork, and the properties of its key order,
    separator helpers, lookup-key layout and write-batch replay.

    Part I holds the embedding, Part II the lemmas and theorems. *)

From Stdlib Require Import String Strings.Byte.
From Stdlib Require Import ZArith List Lia Bool.
Import ListNotations.
Open Scope Z_scope.

(* ================================================================== *)
(** * Part I: the embedding                                            *)
(* ================================================================== *)

(** ** Bytes and machine integers *)

(** A [std::string] or [Slice] is the list of its bytes. *)
Definition bytes := list byte.

Definition byte_to_Z (b : byte) : Z := Z.of_N (Byte.to_N b).

(** Conversion to [uint8_t]/[char]: the low eight bits. *)
Definition Z_to_byte (z : Z) : byte :=
  match Byte.of_N (Z.to_N (z mod 256)) with
  | Some b => b
  | None => x00
  end.

(** Conversions to [uint32_t], [uint64_t] and (two's complement) [int]. *)
Definition to_uint32 (z : Z) : Z := z mod 2 ^ 32.
Definition to_uint64 (z : Z) : Z := z mod 2 ^ 64.
Definition to_int (z : Z) : Z :=
  let u := z mod 2 ^ 32 in if u <? 2 ^ 31 then u else u - 2 ^ 32.

(** [s.resize(n)] on a [std::string]: truncate, or pad with zero bytes. *)
Definition resize (n : nat) (s : bytes) : bytes :=
  firstn n s ++ repeat x00 (n - length s).

(** ** util/coding.h *)

Module Coding.

(** Modelled from the spec: [EncodeFixed32] of [util/coding.h], a file
    outside the two modelled here; the four bytes of the spec's
    [fixed32_le]. *)
Definition EncodeFixed32 (value : Z) : bytes :=
  [ Z_to_byte value; Z_to_byte (Z.shiftr value 8);
    Z_to_byte (Z.shiftr value 16); Z_to_byte (Z.shiftr value 24) ].

(** Modelled from the spec: [EncodeFixed64] of [util/coding.h]; the eight
    bytes of the spec's [fixed64_le]. *)
Definition EncodeFixed64 (value : Z) : bytes :=
  [ Z_to_byte value; Z_to_byte (Z.shiftr value 8);
    Z_to_byte (Z.shiftr value 16); Z_to_byte (Z.shiftr value 24);
    Z_to_byte (Z.shiftr value 32); Z_to_byte (Z.shiftr value 40);
    Z_to_byte (Z.shiftr value 48); Z_to_byte (Z.shiftr value 56) ].

(** The byte [p[i]] as an unsigned number.  A read past the end of the
    list, which is out of bounds in the C++, yields zero here. *)
Definition at_ (p : bytes) (i : nat) : Z := byte_to_Z (nth i p x00).

(** Modelled from the spec: [DecodeFixed32] of [util/coding.h], the
    little-endian reading of four bytes. *)
Definition DecodeFixed32 (p : bytes) : Z :=
  Z.lor (at_ p 0)
    (Z.lor (Z.shiftl (at_ p 1) 8)
       (Z.lor (Z.shiftl (at_ p 2) 16) (Z.shiftl (at_ p 3) 24))).

(** Modelled from the spec: [DecodeFixed64] of [util/coding.h], the
    little-endian reading of eight bytes. *)
Definition DecodeFixed64 (p : bytes) : Z :=
  Z.lor (at_ p 0)
    (Z.lor (Z.shiftl (at_ p 1) 8)
       (Z.lor (Z.shiftl (at_ p 2) 16)
          (Z.lor (Z.shiftl (at_ p 3) 24)
             (Z.lor (Z.shiftl (at_ p 4) 32)
                (Z.lor (Z.shiftl (at_ p 5) 40)
                   (Z.lor (Z.shiftl (at_ p 6) 48)
                      (Z.shiftl (at_ p 7) 56))))))).

(** Modelled from the spec: [PutFixed32] of [util/coding.cc] appends the
    encoding to [dst]. *)
Definition PutFixed32 (dst : bytes) (value : Z) : bytes :=
  dst ++ EncodeFixed32 value.

(** Modelled from the spec: [PutFixed64] of [util/coding.cc] appends the
    encoding to [dst]. *)
Definition PutFixed64 (dst : bytes) (value : Z) : bytes :=
  dst ++ EncodeFixed64 value.

(** Modelled from the spec: [EncodeVarint32] of [util/coding.cc], the
    spec's [varint32]: seven payload bits per byte, low group first, bit 7
    set on every byte but the last.  The result is the bytes written at
    [dst]; the parameter is a [uint32_t], so the argument is converted on
    entry. *)
Definition EncodeVarint32 (value : Z) : bytes :=
  let v := to_uint32 value in
  let B := 128 in
  if v <? Z.shiftl 1 7 then
    [ Z_to_byte v ]
  else if v <? Z.shiftl 1 14 then
    [ Z_to_byte (Z.lor v B); Z_to_byte (Z.shiftr v 7) ]
  else if v <? Z.shiftl 1 21 then
    [ Z_to_byte (Z.lor v B); Z_to_byte (Z.lor (Z.shiftr v 7) B);
      Z_to_byte (Z.shiftr v 14) ]
  else if v <? Z.shiftl 1 28 then
    [ Z_to_byte (Z.lor v B); Z_to_byte (Z.lor (Z.shiftr v 7) B);
      Z_to_byte (Z.lor (Z.shiftr v 14) B); Z_to_byte (Z.shiftr v 21) ]
  else
    [ Z_to_byte (Z.lor v B); Z_to_byte (Z.lor (Z.shiftr v 7) B);
      Z_to_byte (Z.lor (Z.shiftr v 14) B);
      Z_to_byte (Z.lor (Z.shiftr v 21) B); Z_to_byte (Z.shiftr v 28) ].

(** Modelled from the spec: [PutVarint32] of [util/coding.cc] appends the
    varint to [dst]. *)
Definition PutVarint32 (dst : bytes) (v : Z) : bytes :=
  dst ++ EncodeVarint32 v.

(** Modelled from the spec: [PutLengthPrefixedSlice] of [util/coding.cc],
    the spec's [lp(x) = varint32(|x|) || x] appended to [dst]. *)
Definition PutLengthPrefixedSlice (dst : bytes) (value : bytes) : bytes :=
  PutVarint32 dst (Z.of_nat (length value)) ++ value.

(** Modelled from the spec: the decoding loop of [GetVarint32Ptr] in
    [util/coding.cc], [for (shift = 0; shift <= 28 && p < limit; shift += 7)];
    [iters] counts the rounds still allowed (five at the start), and a
    group shifted past bit 31 is cut off as in [uint32_t] arithmetic. *)
Fixpoint GetVarint32Ptr (iters : nat) (shift : Z) (result : Z) (p : bytes)
  : option (Z * bytes) :=
  match iters with
  | O => None
  | S iters' =>
      match p with
      | [] => None
      | b :: p' =>
          let byte := byte_to_Z b in
          if negb (Z.land byte 128 =? 0) then
            GetVarint32Ptr iters' (shift + 7)
              (Z.lor result (to_uint32 (Z.shiftl (Z.land byte 127) shift))) p'
          else
            Some (Z.lor result (to_uint32 (Z.shiftl byte shift)), p')
      end
  end.

(** Modelled from the spec: [GetVarint32(&input, &value)] of
    [util/coding.cc]; the value and the advanced input, or [None] where the
    C++ returns [false]. *)
Definition GetVarint32 (input : bytes) : option (Z * bytes) :=
  GetVarint32Ptr 5 0 0 input.

(** Modelled from the spec: [GetLengthPrefixedSlice(&input, &result)] of
    [util/coding.cc]; the slice and the advanced input, or [None] where the
    C++ returns [false] (no varint, or a length past the end of the
    input). *)
Definition GetLengthPrefixedSlice (input : bytes) : option (bytes * bytes) :=
  match GetVarint32 input with
  | Some (len, input') =>
      if len <=? Z.of_nat (length input') then
        Some (firstn (Z.to_nat len) input', skipn (Z.to_nat len) input')
      else None
  | None => None
  end.

(** Modelled from the spec: [GetFixed64] of the MV fork's coding library
    reads eight bytes as a little-endian [uint64_t] and fails on a shorter
    input. *)
Definition GetFixed64 (input : bytes) : option (Z * bytes) :=
  if Nat.ltb (length input) 8 then None
  else Some (DecodeFixed64 input, skipn 8 input).

End Coding.
Import Coding.

(** ** db/dbformat.h *)

(** Modelled from the spec: [enum ValueType] of the header
    [db/dbformat.h]: [kTypeDeletion = 0x0], [kTypeValue = 0x1]. *)
Inductive ValueType : Type := kTypeDeletion | kTypeValue.

(** The enumerator as the integer the C++ computes with. *)
Definition ValueType_to_Z (t : ValueType) : Z :=
  match t with kTypeDeletion => 0 | kTypeValue => 1 end.

(** Modelled from the spec: [kValueTypeForSeek = kTypeValue]. *)
Definition kValueTypeForSeek : ValueType := kTypeValue.

(** Modelled from the spec: [kMaxSequenceNumber = 2^56 - 1]. *)
Definition kMaxSequenceNumber : Z := Z.shiftl 1 56 - 1.

(** Modelled from the spec: [kMinValidTime = 0]. *)
Definition kMinValidTime : Z := 0.

(** Modelled from the spec: [struct ParsedInternalKey] of [db/dbformat.h]. *)
Record ParsedInternalKey : Type := {
  user_key : bytes;
  sequence : Z;
  type : ValueType
}.

(** Modelled from the spec: [struct ParsedMVInternalKey] of
    [db/dbformat.h]. *)
Record ParsedMVInternalKey : Type := {
  mv_user_key : bytes;
  mv_sequence : Z;
  mv_type : ValueType;
  valid_time : Z
}.

(** Modelled from the spec: [ExtractUserKey] of [db/dbformat.h], the prefix
    [k[0 .. len(k) - 8]].  Its [assert(internal_key.size() >= 8)] is a
    precondition of the theorems ([IsInternalKey]). *)
Definition ExtractUserKey (internal_key : bytes) : bytes :=
  firstn (length internal_key - 8) internal_key.

(** Modelled from the spec: [MVExtractUserKey] of [db/dbformat.h], the
    prefix [k[0 .. len(k) - 16]]. *)
Definition MVExtractUserKey (internal_key : bytes) : bytes :=
  firstn (length internal_key - 16) internal_key.

(** Modelled from the spec: the abstract [Comparator] interface of
    [include/leveldb/comparator.h].  [Compare] returns an [int]; the two
    helpers, which update a [std::string*] in place, return its new
    contents. *)
Record Comparator : Type := {
  Compare : bytes -> bytes -> Z;
  FindShortestSeparator : bytes -> bytes -> bytes;
  FindShortSuccessor : bytes -> bytes
}.

(** ** db/dbformat.cc *)

(** [assert(seq <= kMaxSequenceNumber)] is a precondition; the shift is a
    [uint64_t] shift. *)
Definition PackSequenceAndType (seq : Z) (t : ValueType) : Z :=
  Z.lor (to_uint64 (Z.shiftl seq 8)) (ValueType_to_Z t).

Definition AppendInternalKey (result : bytes) (key : ParsedInternalKey)
  : bytes :=
  let result := result ++ user_key key in
  PutFixed64 result (PackSequenceAndType (sequence key) (type key)).

Definition AppendMVInternalKey (result : bytes) (key : ParsedMVInternalKey)
  : bytes :=
  let result := result ++ mv_user_key key in
  let result :=
    PutFixed64 result (PackSequenceAndType (mv_sequence key) (mv_type key)) in
  PutFixed64 result (valid_time key).

Section InternalKeyComparator.

Variable user_comparator_ : Comparator.
Variable multi_version : bool.

(** [DecodeFixed64(key.data() + key.size() - s)]. *)
Definition fixed64_from_end (key : bytes) (s : nat) : Z :=
  DecodeFixed64 (skipn (length key - s) key).

Definition InternalKeyComparator_Compare (akey bkey : bytes) : Z :=
  let s := if multi_version then 16%nat else 8%nat in
  let r :=
    if multi_version
    then Compare user_comparator_
           (MVExtractUserKey akey) (MVExtractUserKey bkey)
    else Compare user_comparator_
           (ExtractUserKey akey) (ExtractUserKey bkey) in
  if r =? 0 then
    let anum := fixed64_from_end akey s in
    let bnum := fixed64_from_end bkey s in
    if anum >? bnum then -1
    else if anum <? bnum then
      if multi_version then
        let at_ := fixed64_from_end akey 8 in
        let bt := fixed64_from_end bkey 8 in
        if at_ >? bt then -1
        else if at_ <? bt then 1
        else 1
      else 1
    else r
  else r.

(** The two [assert]s on the rebuilt key are checks, not effects; they are
    proved to hold under the comparator contract in Part II. *)
Definition InternalKeyComparator_FindShortestSeparator
    (start limit : bytes) : bytes :=
  let user_start :=
    if multi_version then MVExtractUserKey start else ExtractUserKey start in
  let user_limit :=
    if multi_version then MVExtractUserKey limit else ExtractUserKey limit in
  let tmp := FindShortestSeparator user_comparator_ user_start user_limit in
  if (length tmp <? length user_start)%nat
     && (Compare user_comparator_ user_start tmp <? 0)
  then
    let tmp :=
      PutFixed64 tmp
        (PackSequenceAndType kMaxSequenceNumber kValueTypeForSeek) in
    let tmp := if multi_version then PutFixed64 tmp kMinValidTime else tmp in
    tmp
  else start.

Definition InternalKeyComparator_FindShortSuccessor (key : bytes) : bytes :=
  let user_key := ExtractUserKey key in
  let tmp := FindShortSuccessor user_comparator_ user_key in
  if (length tmp <? length user_key)%nat
     && (Compare user_comparator_ user_key tmp <? 0)
  then
    let tmp :=
      PutFixed64 tmp
        (PackSequenceAndType kMaxSequenceNumber kValueTypeForSeek) in
    let tmp := if multi_version then PutFixed64 tmp kMinValidTime else tmp in
    tmp
  else key.

(** The adapter is itself a [Comparator]. *)
Definition InternalKeyComparator : Comparator := {|
  Compare := InternalKeyComparator_Compare;
  FindShortestSeparator := InternalKeyComparator_FindShortestSeparator;
  FindShortSuccessor := InternalKeyComparator_FindShortSuccessor
|}.

End InternalKeyComparator.

(** *** The filter-policy adapter *)

(** Modelled from the spec: the abstract [FilterPolicy] interface of
    [include/leveldb/filter_policy.h].  [CreateFilter] gets the array of
    [n] keys as a list and appends their filter to [dst], whose new
    contents it returns. *)
Record FilterPolicy : Type := {
  Name : string;
  CreateFilter : list bytes -> bytes -> bytes;
  KeyMayMatch : bytes -> bytes -> bool
}.

(** [a[i] = x] on an array held as a list; the loop below stays in range,
    and nothing is written out of it. *)
Definition assign {A : Type} (a : list A) (i : nat) (x : A) : list A :=
  if (i <? length a)%nat then firstn i a ++ x :: skipn (S i) a else a.

Section InternalFilterPolicy.

Variable user_policy_ : FilterPolicy.

Definition InternalFilterPolicy_Name : string := Name user_policy_.

(** The [for] loop of [CreateFilter], at index [i] with [count] rounds to
    go.  [mkey] is [keys] with its [const] cast away, the same array: a
    round reads entry [i] and overwrites it. *)
Fixpoint InternalFilterPolicy_CreateFilterLoop (count i : nat)
    (mkey : list bytes) : list bytes :=
  match count with
  | O => mkey
  | S count =>
      let mkey := assign mkey i (ExtractUserKey (nth i mkey [])) in
      InternalFilterPolicy_CreateFilterLoop count (S i) mkey
  end.

(** The caller's array after the call, and the new contents of [dst]. *)
Definition InternalFilterPolicy_CreateFilter (keys : list bytes)
    (dst : bytes) : list bytes * bytes :=
  let n := length keys in
  let mkey := InternalFilterPolicy_CreateFilterLoop n 0 keys in
  (mkey, CreateFilter user_policy_ mkey dst).

Definition InternalFilterPolicy_KeyMayMatch (key f : bytes) : bool :=
  KeyMayMatch user_policy_ (ExtractUserKey key) f.

(** The adapter is itself a [FilterPolicy]. *)
Definition InternalFilterPolicy : FilterPolicy := {|
  Name := InternalFilterPolicy_Name;
  CreateFilter := fun keys dst =>
    snd (InternalFilterPolicy_CreateFilter keys dst);
  KeyMayMatch := InternalFilterPolicy_KeyMayMatch
|}.

End InternalFilterPolicy.

(** *** Lookup keys *)

(** Raw memory: [poke mem dst src] is [mem] after the bytes [src] were
    written at offset [dst]; [store] refuses a write that leaves the
    allocation (undefined behaviour in the C++). *)
Definition poke (mem : bytes) (dst : nat) (src : bytes) : bytes :=
  firstn dst mem ++ src ++ skipn (dst + length src) mem.

Definition store (mem : bytes) (dst : nat) (src : bytes) : option bytes :=
  if (dst + length src <=? length mem)%nat then Some (poke mem dst src)
  else None.

(** [Slice(data + off, n)] over a buffer. *)
Definition slice (mem : bytes) (off n : nat) : bytes :=
  firstn n (skipn off mem).

(** Modelled from the spec: the inline buffer [char space_[200]] declared in
    [db/dbformat.h] (200 bytes is the reference choice). *)
Definition sizeof_space_ : nat := 200.

(** Modelled from the spec: the members of [class LookupKey] (and
    [MVLookupKey]) declared in [db/dbformat.h]: the allocation [start_]
    points into ([space_] or the heap block), and the three pointers as
    offsets into it. *)
Record LookupKey : Type := {
  lk_mem : bytes;
  lk_on_heap : bool;
  start_ : nat;
  kstart_ : nat;
  end_ : nat
}.

Notation "'do' x <- e ; k" :=
  (match e with Some x => k | None => None end)
  (at level 10, x name, e at level 100, k at level 200, only parsing).

(** [LookupKey::LookupKey(user_key, s)].  The allocation starts out with
    indeterminate contents, fixed to zero bytes here. *)
Definition LookupKey_new (user_key : bytes) (s : Z) : option LookupKey :=
  let usize := length user_key in
  let needed := (usize + 13)%nat in
  let on_heap := negb (needed <=? sizeof_space_)%nat in
  let mem := repeat x00 (if on_heap then needed else sizeof_space_) in
  let dst := 0%nat in
  let start := dst in
  let varint := EncodeVarint32 (Z.of_nat usize + 8) in
  do mem <- store mem dst varint;
  let dst := (dst + length varint)%nat in
  let kstart := dst in
  do mem <- store mem dst user_key;
  let dst := (dst + usize)%nat in
  do mem <-
    store mem dst
      (EncodeFixed64 (PackSequenceAndType s kValueTypeForSeek));
  let dst := (dst + 8)%nat in
  Some {| lk_mem := mem; lk_on_heap := on_heap;
          start_ := start; kstart_ := kstart; end_ := dst |}.

(** [MVLookupKey::MVLookupKey(user_key, s, t)]. *)
Definition MVLookupKey_new (user_key : bytes) (s : Z) (t : Z)
  : option LookupKey :=
  let usize := length user_key in
  let needed := (usize + 21)%nat in
  let on_heap := negb (needed <=? sizeof_space_)%nat in
  let mem := repeat x00 (if on_heap then needed else sizeof_space_) in
  let dst := 0%nat in
  let start := dst in
  let varint := EncodeVarint32 (Z.of_nat usize + 16) in
  do mem <- store mem dst varint;
  let dst := (dst + length varint)%nat in
  let kstart := dst in
  do mem <- store mem dst user_key;
  let dst := (dst + usize)%nat in
  do mem <-
    store mem dst
      (EncodeFixed64 (PackSequenceAndType s kValueTypeForSeek));
  let dst := (dst + 8)%nat in
  do mem <- store mem dst (EncodeFixed64 t);
  let dst := (dst + 8)%nat in
  Some {| lk_mem := mem; lk_on_heap := on_heap;
          start_ := start; kstart_ := kstart; end_ := dst |}.

(** Modelled from the spec: the view [memtable_key()] declared in
    [db/dbformat.h], the entire encoded buffer: [Slice(start_, end_ -
    start_)]. *)
Definition memtable_key (k : LookupKey) : bytes :=
  slice (lk_mem k) (start_ k) (end_ k - start_ k).

(** Modelled from the spec: the view [internal_key()] declared in
    [db/dbformat.h], the buffer starting just after the varint:
    [Slice(kstart_, end_ - kstart_)]. *)
Definition internal_key (k : LookupKey) : bytes :=
  slice (lk_mem k) (kstart_ k) (end_ k - kstart_ k).

(** ** db/write_batch.cc *)

(** Modelled from the spec: the two outcomes of [leveldb::Status] this file
    produces, [OK] and [Corruption] with its message. *)
Inductive Status : Type :=
  | OK
  | Corruption (msg : string).

(** WriteBatch header has an 8-byte sequence number followed by a 4-byte
    count. *)
Definition kHeader : nat := 12.

(** A batch is its [rep_]. *)
Definition WriteBatch := bytes.
Definition WriteBatchMV := bytes.

(** Modelled from the spec: the callback interface [WriteBatch::Handler] of
    [include/leveldb/write_batch.h], as functions on the state [H] of the
    handler object. *)
Record Handler (H : Type) : Type := {
  Handler_Put : H -> bytes -> bytes -> H;
  Handler_Delete : H -> bytes -> H
}.
Arguments Handler_Put {H}.
Arguments Handler_Delete {H}.

(** Modelled from the spec: the callback interface [WriteBatchMV::Handler],
    whose callbacks take the valid time after the key. *)
Record HandlerMV (H : Type) : Type := {
  HandlerMV_Put : H -> bytes -> Z -> bytes -> H;
  HandlerMV_Delete : H -> bytes -> Z -> H
}.
Arguments HandlerMV_Put {H}.
Arguments HandlerMV_Delete {H}.

(** Modelled from the spec: the memtable is an external collaborator known
    through [Add] and [AddMV] only; [M] is its state. *)
Record MemTable (M : Type) : Type := {
  Add : M -> Z -> ValueType -> bytes -> bytes -> M;
  AddMV : M -> Z -> ValueType -> bytes -> Z -> bytes -> M
}.
Arguments Add {M}.
Arguments AddMV {M}.

(** How a [while] loop over the input ends: by a [return] inside the body,
    or with the input exhausted and [found] records counted. *)
Inductive LoopExit : Type :=
  | Returned (s : Status)
  | Exhausted (found : Z).

(** *** Single-version batches *)

Definition WriteBatch_Clear (rep_ : WriteBatch) : WriteBatch :=
  let rep_ : bytes := [] in
  resize kHeader rep_.

(** [WriteBatch::WriteBatch() { Clear(); }] on the empty [rep_]. *)
Definition WriteBatch_new : WriteBatch := WriteBatch_Clear [].

Definition WriteBatch_ApproximateSize (rep_ : WriteBatch) : nat :=
  length rep_.

Definition WriteBatchInternal_Count (b : WriteBatch) : Z :=
  to_int (DecodeFixed32 (skipn 8 b)).

Definition WriteBatchInternal_SetCount (b : WriteBatch) (n : Z) : WriteBatch :=
  poke b 8 (EncodeFixed32 n).

Definition WriteBatchInternal_Sequence (b : WriteBatch) : Z :=
  DecodeFixed64 b.

Definition WriteBatchInternal_SetSequence (b : WriteBatch) (seq : Z)
  : WriteBatch :=
  poke b 0 (EncodeFixed64 seq).

Section WriteBatchIterate.

Context {H : Type} (handler : Handler H).

(** The [while (!input.empty())] loop of [WriteBatch::Iterate].  Every
    round consumes the tag byte, so [fuel] = the length of the input is
    enough; [None] is reserved for running out of it.  [found] is an
    [int] that stays below the input length. *)
Fixpoint WriteBatch_IterateLoop (fuel : nat) (input : bytes) (found : Z)
    (h : H) : option (LoopExit * H) :=
  match input with
  | [] => Some (Exhausted found, h)
  | tag :: input =>
      match fuel with
      | O => None
      | S fuel =>
          let found := found + 1 in
          let tag := byte_to_Z tag in
          if tag =? ValueType_to_Z kTypeValue then
            match GetLengthPrefixedSlice input with
            | Some (key, input) =>
                match GetLengthPrefixedSlice input with
                | Some (value, input) =>
                    WriteBatch_IterateLoop fuel input found
                      (Handler_Put handler h key value)
                | None =>
                    Some (Returned (Corruption "bad WriteBatch Put"), h)
                end
            | None => Some (Returned (Corruption "bad WriteBatch Put"), h)
            end
          else if tag =? ValueType_to_Z kTypeDeletion then
            match GetLengthPrefixedSlice input with
            | Some (key, input) =>
                WriteBatch_IterateLoop fuel input found
                  (Handler_Delete handler h key)
            | None =>
                Some (Returned (Corruption "bad WriteBatch Delete"), h)
            end
          else Some (Returned (Corruption "unknown WriteBatch tag"), h)
      end
  end.

Definition WriteBatch_Iterate (rep_ : WriteBatch) (h : H)
  : option (Status * H) :=
  let input := rep_ in
  if (length input <? kHeader)%nat then
    Some (Corruption "malformed WriteBatch (too small)", h)
  else
    let input := skipn kHeader input in
    match WriteBatch_IterateLoop (length input) input 0 h with
    | None => None
    | Some (Returned s, h) => Some (s, h)
    | Some (Exhausted found, h) =>
        if negb (found =? WriteBatchInternal_Count rep_) then
          Some (Corruption "WriteBatch has wrong count", h)
        else Some (OK, h)
    end.

End WriteBatchIterate.

Definition WriteBatch_Put (rep_ : WriteBatch) (key value : bytes)
  : WriteBatch :=
  let rep_ :=
    WriteBatchInternal_SetCount rep_ (WriteBatchInternal_Count rep_ + 1) in
  let rep_ := rep_ ++ [Z_to_byte (ValueType_to_Z kTypeValue)] in
  let rep_ := PutLengthPrefixedSlice rep_ key in
  PutLengthPrefixedSlice rep_ value.

Definition WriteBatch_Delete (rep_ : WriteBatch) (key : bytes) : WriteBatch :=
  let rep_ :=
    WriteBatchInternal_SetCount rep_ (WriteBatchInternal_Count rep_ + 1) in
  let rep_ := rep_ ++ [Z_to_byte (ValueType_to_Z kTypeDeletion)] in
  PutLengthPrefixedSlice rep_ key.

(** [MemTableInserter]: the state is the pair of [sequence_] and the
    memtable behind [mem_]; [sequence_++] is a [uint64_t] increment. *)
Definition MemTableInserter {M : Type} (mt : MemTable M) : Handler (Z * M) := {|
  Handler_Put := fun '(sequence_, mem_) key value =>
    (to_uint64 (sequence_ + 1), Add mt mem_ sequence_ kTypeValue key value);
  Handler_Delete := fun '(sequence_, mem_) key =>
    (to_uint64 (sequence_ + 1), Add mt mem_ sequence_ kTypeDeletion key [])
|}.

Definition WriteBatchInternal_InsertInto {M : Type} (mt : MemTable M)
    (b : WriteBatch) (memtable : M) : option (Status * M) :=
  let inserter := (WriteBatchInternal_Sequence b, memtable) in
  do r <- WriteBatch_Iterate (MemTableInserter mt) b inserter;
  Some (fst r, snd (snd r)).

Definition WriteBatchInternal_SetContents (b : WriteBatch) (contents : bytes)
  : WriteBatch :=
  contents.

Definition WriteBatchInternal_Append (dst src : WriteBatch) : WriteBatch :=
  let dst :=
    WriteBatchInternal_SetCount dst
      (WriteBatchInternal_Count dst + WriteBatchInternal_Count src) in
  dst ++ skipn kHeader src.

Definition WriteBatch_Append (rep_ : WriteBatch) (source : WriteBatch)
  : WriteBatch :=
  WriteBatchInternal_Append rep_ source.

(** *** Multi-version batches *)

Definition WriteBatchMV_Clear (rep_ : WriteBatchMV) : WriteBatchMV :=
  let rep_ : bytes := [] in
  resize kHeader rep_.

Definition WriteBatchMV_new : WriteBatchMV := WriteBatchMV_Clear [].

Definition WriteBatchMV_ApproximateSize (rep_ : WriteBatchMV) : nat :=
  length rep_.

Definition WriteBatchMVInternal_Count (b : WriteBatchMV) : Z :=
  to_int (DecodeFixed32 (skipn 8 b)).

Definition WriteBatchMVInternal_SetCount (b : WriteBatchMV) (n : Z)
  : WriteBatchMV :=
  poke b 8 (EncodeFixed32 n).

Definition WriteBatchMVInternal_Sequence (b : WriteBatchMV) : Z :=
  DecodeFixed64 b.

Definition WriteBatchMVInternal_SetSequence (b : WriteBatchMV) (seq : Z)
  : WriteBatchMV :=
  poke b 0 (EncodeFixed64 seq).

Section WriteBatchMVIterate.

Context {H : Type} (handler : HandlerMV H).

(** The loop of [WriteBatchMV::Iterate]; fuel as for the single-version
    loop. *)
Fixpoint WriteBatchMV_IterateLoop (fuel : nat) (input : bytes) (found : Z)
    (h : H) : option (LoopExit * H) :=
  match input with
  | [] => Some (Exhausted found, h)
  | tag :: input =>
      match fuel with
      | O => None
      | S fuel =>
          let found := found + 1 in
          let tag := byte_to_Z tag in
          if tag =? ValueType_to_Z kTypeValue then
            match GetLengthPrefixedSlice input with
            | Some (key, input) =>
                match GetFixed64 input with
                | Some (vt, input) =>
                    match GetLengthPrefixedSlice input with
                    | Some (value, input) =>
                        WriteBatchMV_IterateLoop fuel input found
                          (HandlerMV_Put handler h key vt value)
                    | None =>
                        Some (Returned (Corruption "bad WriteBatchMV Put"),
                              h)
                    end
                | None =>
                    Some (Returned (Corruption "bad WriteBatchMV Put"), h)
                end
            | None => Some (Returned (Corruption "bad WriteBatchMV Put"), h)
            end
          else if tag =? ValueType_to_Z kTypeDeletion then
            match GetLengthPrefixedSlice input with
            | Some (key, input) =>
                match GetFixed64 input with
                | Some (vt, input) =>
                    WriteBatchMV_IterateLoop fuel input found
                      (HandlerMV_Delete handler h key vt)
                | None =>
                    Some (Returned (Corruption "bad WriteBatchMV Delete"),
                          h)
                end
            | None =>
                Some (Returned (Corruption "bad WriteBatchMV Delete"), h)
            end
          else Some (Returned (Corruption "unknown WriteBatchMV tag"), h)
      end
  end.

Definition WriteBatchMV_Iterate (rep_ : WriteBatchMV) (h : H)
  : option (Status * H) :=
  let input := rep_ in
  if (length input <? kHeader)%nat then
    Some (Corruption "malformed WriteBatchMV (too small)", h)
  else
    let input := skipn kHeader input in
    match WriteBatchMV_IterateLoop (length input) input 0 h with
    | None => None
    | Some (Returned s, h) => Some (s, h)
    | Some (Exhausted found, h) =>
        if negb (found =? WriteBatchMVInternal_Count rep_) then
          Some (Corruption "WriteBatchMV has wrong count", h)
        else Some (OK, h)
    end.

End WriteBatchMVIterate.

Definition WriteBatchMV_Put (rep_ : WriteBatchMV) (key : bytes) (vt : Z)
    (value : bytes) : WriteBatchMV :=
  let rep_ :=
    WriteBatchMVInternal_SetCount rep_
      (WriteBatchMVInternal_Count rep_ + 1) in
  let rep_ := rep_ ++ [Z_to_byte (ValueType_to_Z kTypeValue)] in
  let rep_ := PutLengthPrefixedSlice rep_ key in
  let rep_ := PutFixed64 rep_ vt in
  PutLengthPrefixedSlice rep_ value.

Definition WriteBatchMV_Delete (rep_ : WriteBatchMV) (key : bytes) (vt : Z)
  : WriteBatchMV :=
  let rep_ :=
    WriteBatchMVInternal_SetCount rep_
      (WriteBatchMVInternal_Count rep_ + 1) in
  let rep_ := rep_ ++ [Z_to_byte (ValueType_to_Z kTypeDeletion)] in
  let rep_ := PutLengthPrefixedSlice rep_ key in
  PutFixed64 rep_ vt.

(** [MemTableMVInsertor]. *)
Definition MemTableMVInsertor {M : Type} (mt : MemTable M)
  : HandlerMV (Z * M) := {|
  HandlerMV_Put := fun '(sequence_, mem_) key vt value =>
    (to_uint64 (sequence_ + 1),
     AddMV mt mem_ sequence_ kTypeValue key vt value);
  HandlerMV_Delete := fun '(sequence_, mem_) key vt =>
    (to_uint64 (sequence_ + 1),
     AddMV mt mem_ sequence_ kTypeDeletion key vt [])
|}.

Definition WriteBatchMVInternal_InsertInto {M : Type} (mt : MemTable M)
    (b : WriteBatchMV) (memtable : M) : option (Status * M) :=
  let inserter := (WriteBatchMVInternal_Sequence b, memtable) in
  do r <- WriteBatchMV_Iterate (MemTableMVInsertor mt) b inserter;
  Some (fst r, snd (snd r)).

Definition WriteBatchMVInternal_SetContents (b : WriteBatchMV)
    (contents : bytes) : WriteBatchMV :=
  contents.

Definition WriteBatchMVInternal_Append (dst src : WriteBatchMV)
  : WriteBatchMV :=
  let dst :=
    WriteBatchMVInternal_SetCount dst
      (WriteBatchMVInternal_Count dst + WriteBatchMVInternal_Count src) in
  dst ++ skipn kHeader src.

Definition WriteBatchMV_Append (rep_ : WriteBatchMV) (source : WriteBatchMV)
  : WriteBatchMV :=
  WriteBatchMVInternal_Append rep_ source.

(** ** A user comparator: the bytewise order *)

(** Modelled from the spec: the bytewise user comparator of the spec's
    scenarios, from [util/comparator.cc]:
    [Slice::compare], i.e. [memcmp] on the common length, then the shorter
    string first; the result is normalised to -1, 0, +1. *)
Fixpoint Bytewise_Compare (a b : bytes) : Z :=
  match a, b with
  | [], [] => 0
  | [], _ :: _ => -1
  | _ :: _, [] => 1
  | x :: a', y :: b' =>
      if byte_to_Z x <? byte_to_Z y then -1
      else if byte_to_Z x >? byte_to_Z y then 1
      else Bytewise_Compare a' b'
  end.

(** Modelled from the spec: [BytewiseComparatorImpl::FindShortestSeparator];
    past the common prefix, the first differing byte of [start] is
    incremented and the rest dropped when that stays below [limit]. *)
Fixpoint Bytewise_FindShortestSeparator (start limit : bytes) : bytes :=
  match start, limit with
  | s :: start', l :: limit' =>
      if byte_to_Z s =? byte_to_Z l then
        s :: Bytewise_FindShortestSeparator start' limit'
      else if (byte_to_Z s <? 255) && (byte_to_Z s + 1 <? byte_to_Z l) then
        [ Z_to_byte (byte_to_Z s + 1) ]
      else start
  | _, _ => start
  end.

(** Modelled from the spec: [BytewiseComparatorImpl::FindShortSuccessor];
    the first byte that is not [0xff] is incremented and the rest dropped; a
    run of [0xff] bytes is left alone. *)
Fixpoint Bytewise_FindShortSuccessor (key : bytes) : bytes :=
  match key with
  | [] => []
  | b :: key' =>
      if negb (byte_to_Z b =? 255) then [ Z_to_byte (byte_to_Z b + 1) ]
      else b :: Bytewise_FindShortSuccessor key'
  end.

Definition BytewiseComparator : Comparator := {|
  Compare := Bytewise_Compare;
  FindShortestSeparator := Bytewise_FindShortestSeparator;
  FindShortSuccessor := Bytewise_FindShortSuccessor
|}.

(** ** Vocabulary of the properties *)

(** *** The record grammar of the file comments

    [varstring := len: varint32, data: uint8[len]];
    [record := kTypeValue varstring varstring | kTypeDeletion varstring],
    and with a [ValidTime] after the key in MV batches. *)

(** [v] is a complete varint32 that decodes to [n]: the decoder reads [v]
    to its end and yields [n].  What [EncodeVarint32] writes for [n] is one
    ([EncodeVarint32_IsVarint32]). *)
Definition IsVarint32 (v : bytes) (n : Z) : Prop :=
  GetVarint32 v = Some (n, []).

(** [lp] is [x] behind its varint32 length. *)
Definition LengthPrefixed (lp x : bytes) : Prop :=
  exists v, IsVarint32 v (Z.of_nat (length x)) /\ lp = v ++ x.

(** [f] is the eight bytes of the little-endian [n]. *)
Definition IsFixed64 (f : bytes) (n : Z) : Prop :=
  length f = 8%nat /\ DecodeFixed64 f = n.

Definition tag_byte (t : ValueType) : byte :=
  match t with kTypeDeletion => x00 | kTypeValue => x01 end.

Inductive BatchRecord : Type :=
  | RecPut (key value : bytes)
  | RecDelete (key : bytes).

Inductive BatchRecordMV : Type :=
  | RecMVPut (key : bytes) (vt : Z) (value : bytes)
  | RecMVDelete (key : bytes) (vt : Z).

Inductive EncodesRecord : bytes -> BatchRecord -> Prop :=
  | Enc_Put : forall lk key lv value,
      LengthPrefixed lk key -> LengthPrefixed lv value ->
      EncodesRecord (tag_byte kTypeValue :: lk ++ lv) (RecPut key value)
  | Enc_Delete : forall lk key,
      LengthPrefixed lk key ->
      EncodesRecord (tag_byte kTypeDeletion :: lk) (RecDelete key).

Inductive EncodesRecordMV : bytes -> BatchRecordMV -> Prop :=
  | EncMV_Put : forall lk key f vt lv value,
      LengthPrefixed lk key -> IsFixed64 f vt -> LengthPrefixed lv value ->
      EncodesRecordMV (tag_byte kTypeValue :: lk ++ f ++ lv)
        (RecMVPut key vt value)
  | EncMV_Delete : forall lk key f vt,
      LengthPrefixed lk key -> IsFixed64 f vt ->
      EncodesRecordMV (tag_byte kTypeDeletion :: lk ++ f)
        (RecMVDelete key vt).

Section Frames.

Context {R : Type} (enc : bytes -> R -> Prop).

(** A byte string that is a sequence of encoded records, and nothing else. *)
Inductive Frames : bytes -> list R -> Prop :=
  | Frames_nil : Frames [] []
  | Frames_cons : forall e r es rs,
      enc e r -> Frames es rs -> Frames (e ++ es) (r :: rs).

(** No encoded record starts [bad]: the input is exhausted or malformed
    right there. *)
Definition NoRecordAt (bad : bytes) : Prop :=
  forall e r rest, enc e r -> bad <> e ++ rest.

End Frames.

(** A well-formed batch holding the records [recs]: the header is there,
    the payload is a sequence of records, and the header count is their
    number. *)
Definition WellFormed (rep_ : WriteBatch) (recs : list BatchRecord) : Prop :=
  (kHeader <= length rep_)%nat
  /\ Frames EncodesRecord (skipn kHeader rep_) recs
  /\ Z.of_nat (length recs) = WriteBatchInternal_Count rep_.

Definition WellFormedMV (rep_ : WriteBatchMV) (recs : list BatchRecordMV)
  : Prop :=
  (kHeader <= length rep_)%nat
  /\ Frames EncodesRecordMV (skipn kHeader rep_) recs
  /\ Z.of_nat (length recs) = WriteBatchMVInternal_Count rep_.

(** *** Handler calls *)

(** The handler call a record stands for. *)
Definition dispatch {H : Type} (handler : Handler H) (h : H) (r : BatchRecord)
  : H :=
  match r with
  | RecPut key value => Handler_Put handler h key value
  | RecDelete key => Handler_Delete handler h key
  end.

Definition dispatchMV {H : Type} (handler : HandlerMV H) (h : H)
    (r : BatchRecordMV) : H :=
  match r with
  | RecMVPut key vt value => HandlerMV_Put handler h key vt value
  | RecMVDelete key vt => HandlerMV_Delete handler h key vt
  end.

(** A handler that only records the calls made to it, oldest first. *)
Definition Recorder : Handler (list BatchRecord) := {|
  Handler_Put := fun h key value => h ++ [RecPut key value];
  Handler_Delete := fun h key => h ++ [RecDelete key]
|}.

Definition RecorderMV : HandlerMV (list BatchRecordMV) := {|
  HandlerMV_Put := fun h key vt value => h ++ [RecMVPut key vt value];
  HandlerMV_Delete := fun h key vt => h ++ [RecMVDelete key vt]
|}.

(** *** Memtable calls *)

(** The arguments of one [Add] (no valid time) or [AddMV] call. *)
Record AddCall : Type := {
  call_sequence : Z;
  call_type : ValueType;
  call_key : bytes;
  call_valid_time : option Z;
  call_value : bytes
}.

Definition perform {M : Type} (mt : MemTable M) (m : M) (c : AddCall) : M :=
  match call_valid_time c with
  | None => Add mt m (call_sequence c) (call_type c) (call_key c) (call_value c)
  | Some vt =>
      AddMV mt m (call_sequence c) (call_type c) (call_key c) vt (call_value c)
  end.

(** The call a record is replayed as, at sequence number [seq]. *)
Definition add_call (seq : Z) (r : BatchRecord) : AddCall :=
  match r with
  | RecPut key value =>
      {| call_sequence := seq; call_type := kTypeValue; call_key := key;
         call_valid_time := None; call_value := value |}
  | RecDelete key =>
      {| call_sequence := seq; call_type := kTypeDeletion; call_key := key;
         call_valid_time := None; call_value := [] |}
  end.

Definition add_callMV (seq : Z) (r : BatchRecordMV) : AddCall :=
  match r with
  | RecMVPut key vt value =>
      {| call_sequence := seq; call_type := kTypeValue; call_key := key;
         call_valid_time := Some vt; call_value := value |}
  | RecMVDelete key vt =>
      {| call_sequence := seq; call_type := kTypeDeletion; call_key := key;
         call_valid_time := Some vt; call_value := [] |}
  end.

(** A memtable that is the log of the calls it received. *)
Definition CallLog : MemTable (list AddCall) := {|
  Add := fun m seq t key value =>
    m ++ [ {| call_sequence := seq; call_type := t; call_key := key;
              call_valid_time := None; call_value := value |} ];
  AddMV := fun m seq t key vt value =>
    m ++ [ {| call_sequence := seq; call_type := t; call_key := key;
              call_valid_time := Some vt; call_value := value |} ]
|}.

(** The calls a list of records is replayed as, the first at [seq], each
    next one at the [uint64_t] successor of the sequence number before. *)
Fixpoint add_calls (seq : Z) (recs : list BatchRecord) : list AddCall :=
  match recs with
  | [] => []
  | r :: recs => add_call seq r :: add_calls (to_uint64 (seq + 1)) recs
  end.

Fixpoint add_callsMV (seq : Z) (recs : list BatchRecordMV) : list AddCall :=
  match recs with
  | [] => []
  | r :: recs => add_callMV seq r :: add_callsMV (to_uint64 (seq + 1)) recs
  end.

(** *** One round of an iteration loop, in isolation *)

Inductive Round (R : Type) : Type :=
  | Stop (s : Status)
  | Step (r : R) (rest : bytes).
Arguments Stop {R}.
Arguments Step {R}.

(** The body of the loop of [WriteBatch::Iterate] after the tag byte was
    taken off: the record read and the input left, or the status returned. *)
Definition ReadRecord (tag : byte) (input : bytes) : Round BatchRecord :=
  let tag := byte_to_Z tag in
  if tag =? ValueType_to_Z kTypeValue then
    match GetLengthPrefixedSlice input with
    | Some (key, input) =>
        match GetLengthPrefixedSlice input with
        | Some (value, input) => Step (RecPut key value) input
        | None => Stop (Corruption "bad WriteBatch Put")
        end
    | None => Stop (Corruption "bad WriteBatch Put")
    end
  else if tag =? ValueType_to_Z kTypeDeletion then
    match GetLengthPrefixedSlice input with
    | Some (key, input) => Step (RecDelete key) input
    | None => Stop (Corruption "bad WriteBatch Delete")
    end
  else Stop (Corruption "unknown WriteBatch tag").

Definition ReadRecordMV (tag : byte) (input : bytes) : Round BatchRecordMV :=
  let tag := byte_to_Z tag in
  if tag =? ValueType_to_Z kTypeValue then
    match GetLengthPrefixedSlice input with
    | Some (key, input) =>
        match GetFixed64 input with
        | Some (vt, input) =>
            match GetLengthPrefixedSlice input with
            | Some (value, input) => Step (RecMVPut key vt value) input
            | None => Stop (Corruption "bad WriteBatchMV Put")
            end
        | None => Stop (Corruption "bad WriteBatchMV Put")
        end
    | None => Stop (Corruption "bad WriteBatchMV Put")
    end
  else if tag =? ValueType_to_Z kTypeDeletion then
    match GetLengthPrefixedSlice input with
    | Some (key, input) =>
        match GetFixed64 input with
        | Some (vt, input) => Step (RecMVDelete key vt) input
        | None => Stop (Corruption "bad WriteBatchMV Delete")
        end
    | None => Stop (Corruption "bad WriteBatchMV Delete")
    end
  else Stop (Corruption "unknown WriteBatchMV tag").

Section Rounds.

Context {R H : Type}.
Variable read : byte -> bytes -> Round R.
Variable apply : H -> R -> H.

(** The loop shape both [Iterate] functions share, over a round reader. *)
Fixpoint rounds (fuel : nat) (input : bytes) (found : Z) (h : H)
  : option (LoopExit * H) :=
  match input with
  | [] => Some (Exhausted found, h)
  | tag :: input =>
      match fuel with
      | O => None
      | S fuel =>
          match read tag input with
          | Stop s => Some (Returned s, h)
          | Step r rest => rounds fuel rest (found + 1) (apply h r)
          end
      end
  end.

End Rounds.

(** *** The claimed form of [FindShortSuccessor]

    [FindShortSuccessor] as the specification words it: the user key is what
    is left when the trailer of the comparator's mode is stripped.  To be
    compared with [InternalKeyComparator_FindShortSuccessor]. *)
Definition FindShortSuccessor_specified (user_comparator_ : Comparator)
    (multi_version : bool) (key : bytes) : bytes :=
  let user_key :=
    if multi_version then MVExtractUserKey key else ExtractUserKey key in
  let tmp := FindShortSuccessor user_comparator_ user_key in
  if (length tmp <? length user_key)%nat
     && (Compare user_comparator_ user_key tmp <? 0)
  then
    let tmp :=
      PutFixed64 tmp
        (PackSequenceAndType kMaxSequenceNumber kValueTypeForSeek) in
    let tmp := if multi_version then PutFixed64 tmp kMinValidTime else tmp in
    tmp
  else key.

(** *** Reading internal keys

    The fields of an encoded internal key, as [InternalKeyComparator::Compare]
    reads them in the mode [mv]. *)
Definition trailer_size (mv : bool) : nat := if mv then 16%nat else 8%nat.

(** An internal key of the mode is at least as long as the mode's trailer. *)
Definition IsInternalKey (mv : bool) (k : bytes) : Prop :=
  (trailer_size mv <= length k)%nat.

Definition key_user (mv : bool) (k : bytes) : bytes :=
  if mv then MVExtractUserKey k else ExtractUserKey k.

(** The packed (sequence, tag) word, and its two halves
    ([unpack(x) = (x >> 8, x & 0xFF)]). *)
Definition key_tail (mv : bool) (k : bytes) : Z :=
  fixed64_from_end k (trailer_size mv).

Definition key_sequence (mv : bool) (k : bytes) : Z :=
  Z.shiftr (key_tail mv k) 8.

Definition key_tag (mv : bool) (k : bytes) : Z :=
  Z.land (key_tail mv k) 255.

(** The valid time of an MV key: its last eight bytes. *)
Definition key_valid_time (k : bytes) : Z := fixed64_from_end k 8.

(** *** The user comparator's contract, as far as the adapter relies on it *)

Definition ReflexiveCompare (uc : Comparator) : Prop :=
  forall a, Compare uc a a = 0.

(** When [FindShortestSeparator] returns a strictly shorter string that is
    above [start], that string is strictly below [limit]. *)
Definition ShorteningContract (uc : Comparator) : Prop :=
  forall start limit,
    let s := FindShortestSeparator uc start limit in
    (length s < length start)%nat ->
    Compare uc start s < 0 ->
    Compare uc s limit < 0.

(** *** Example batches

    The mixed batch of the specification's scenarios ([put a 1; delete b;
    put c 3] at sequence 7), an MV batch at sequence 500, and each of them
    followed by a byte that is no tag. *)
Definition mixed_batch : WriteBatch :=
  let b := WriteBatchInternal_SetSequence WriteBatch_new 7 in
  let b := WriteBatch_Put b ["a"%byte] ["1"%byte] in
  let b := WriteBatch_Delete b ["b"%byte] in
  WriteBatch_Put b ["c"%byte] ["3"%byte].

Definition mixed_records : list BatchRecord :=
  [ RecPut ["a"%byte] ["1"%byte]; RecDelete ["b"%byte];
    RecPut ["c"%byte] ["3"%byte] ].

Definition mixed_batchMV : WriteBatchMV :=
  let b := WriteBatchMVInternal_SetSequence WriteBatchMV_new 500 in
  let b := WriteBatchMV_Put b ["k"%byte] 42 ["v"%byte] in
  WriteBatchMV_Delete b ["d"%byte] 43.

Definition mixed_recordsMV : list BatchRecordMV :=
  [ RecMVPut ["k"%byte] 42 ["v"%byte]; RecMVDelete ["d"%byte] 43 ].

Definition torn_batch : WriteBatch := mixed_batch ++ [x7f].
Definition torn_batchMV : WriteBatchMV := mixed_batchMV ++ [x7f].

(** *** The user comparator as an order

    What [include/leveldb/comparator.h] asks of [Compare]: a three-way
    result whose sign flips with the arguments, and which is transitive as
    "not above". *)
Definition SignFlips (cmp : bytes -> bytes -> Z) : Prop :=
  forall a b, cmp a b < 0 <-> cmp b a > 0.

Definition TransitiveLe (cmp : bytes -> bytes -> Z) : Prop :=
  forall a b c, cmp a b <= 0 -> cmp b c <= 0 -> cmp a c <= 0.

(** *** The user filter policy's contract, and a policy that keeps it *)

(** No false negatives: a key among those a filter was built from matches
    the filter, which is what [CreateFilter] appended to [dst]. *)
Definition NoFalseNegatives (P : FilterPolicy) : Prop :=
  forall keys dst k,
    In k keys ->
    KeyMayMatch P k (skipn (length dst) (CreateFilter P keys dst)) = true.

(** A small policy for the examples: the filter holds the first byte of
    every key ([0x00] for the empty key). *)
Definition FirstBytePolicy : FilterPolicy := {|
  Name := "first-byte";
  CreateFilter := fun keys dst => dst ++ map (hd x00) keys;
  KeyMayMatch := fun key f =>
    existsb (fun b => byte_to_Z b =? byte_to_Z (hd x00 key)) f
|}.

(* ================================================================== *)
(** * Part II: properties                                              *)
(* ================================================================== *)

(** ** Bytes *)

Lemma byte_to_Z_range (b : byte) : 0 <= byte_to_Z b < 256.
Proof.
  unfold byte_to_Z. pose proof (Byte.to_N_bounded b) as Hb.
  split; [apply N2Z.is_nonneg | lia].
Qed.

Lemma byte_to_Z_inj (a b : byte) : byte_to_Z a = byte_to_Z b -> a = b.
Proof.
  unfold byte_to_Z. intros Heq. apply N2Z.inj in Heq.
  pose proof (Byte.of_to_N a) as Ha. pose proof (Byte.of_to_N b) as Hb.
  rewrite Heq in Ha. congruence.
Qed.

Lemma byte_to_Z_to_byte (z : Z) :
  0 <= z < 256 -> byte_to_Z (Z_to_byte z) = z.
Proof.
  intros Hz. unfold Z_to_byte, byte_to_Z.
  rewrite Z.mod_small by lia.
  destruct (Byte.of_N (Z.to_N z)) as [b|] eqn:E.
  - apply Byte.to_of_N in E. rewrite E. lia.
  - apply Byte.of_N_None_iff in E. lia.
Qed.

Lemma tag_byte_to_Z (t : ValueType) :
  byte_to_Z (tag_byte t) = ValueType_to_Z t.
Proof. destruct t; reflexivity. Qed.

Lemma EncodeFixed64_length (v : Z) : length (EncodeFixed64 v) = 8%nat.
Proof. reflexivity. Qed.

Lemma EncodeFixed32_length (v : Z) : length (EncodeFixed32 v) = 4%nat.
Proof. reflexivity. Qed.

Lemma EncodeVarint32_length (v : Z) :
  (1 <= length (EncodeVarint32 v) <= 5)%nat.
Proof.
  unfold EncodeVarint32.
  repeat match goal with |- context [if ?c then _ else _] => destruct c end;
    simpl; lia.
Qed.

(** ** Internal keys *)

Lemma firstn_len_app (A : Type) (u t : list A) (n : nat) :
  length t = n -> firstn (length (u ++ t) - n) (u ++ t) = u.
Proof.
  intros <-. rewrite length_app.
  replace (length u + length t - length t)%nat with (length u + 0)%nat by lia.
  rewrite firstn_app_2. simpl. apply app_nil_r.
Qed.

Lemma skipn_len_app (A : Type) (u t : list A) (n : nat) :
  length t = n -> skipn (length (u ++ t) - n) (u ++ t) = t.
Proof.
  intros <-. rewrite length_app.
  replace (length u + length t - length t)%nat with (length u) by lia.
  rewrite skipn_app, skipn_all, Nat.sub_diag. reflexivity.
Qed.

Lemma key_user_app (mv : bool) (u t : bytes) :
  length t = trailer_size mv -> key_user mv (u ++ t) = u.
Proof.
  intros Ht. destruct mv; unfold key_user, MVExtractUserKey, ExtractUserKey;
    apply firstn_len_app; exact Ht.
Qed.

Lemma key_tail_app (mv : bool) (u t : bytes) :
  length t = trailer_size mv -> key_tail mv (u ++ t) = DecodeFixed64 t.
Proof.
  intros Ht. unfold key_tail, fixed64_from_end.
  rewrite skipn_len_app by exact Ht. reflexivity.
Qed.

(** [Compare] in terms of the key's fields. *)
Lemma Compare_unfold (uc : Comparator) (mv : bool) (a b : bytes) :
  InternalKeyComparator_Compare uc mv a b =
  let r := Compare uc (key_user mv a) (key_user mv b) in
  if r =? 0 then
    if key_tail mv a >? key_tail mv b then -1
    else if key_tail mv a <? key_tail mv b then
      if mv then
        if key_valid_time a >? key_valid_time b then -1 else 1
      else 1
    else r
  else r.
Proof.
  unfold InternalKeyComparator_Compare, key_user, key_tail, key_valid_time,
    trailer_size.
  destruct mv; cbv zeta;
    repeat match goal with |- context [if ?c then _ else _] => destruct c end;
    reflexivity.
Qed.

(** The user comparator decides whenever it tells the user keys apart. *)
Lemma Compare_user_order (uc : Comparator) (mv : bool) (a b : bytes) :
  Compare uc (key_user mv a) (key_user mv b) <> 0 ->
  InternalKeyComparator_Compare uc mv a b =
  Compare uc (key_user mv a) (key_user mv b).
Proof.
  intros Hne. rewrite Compare_unfold. cbv zeta.
  destruct (Z.eqb_spec (Compare uc (key_user mv a) (key_user mv b)) 0);
    [contradiction | reflexivity].
Qed.

(** With equal user keys and equal packed words the result is 0, in both
    modes: the valid time is not consulted. *)
Lemma Compare_equal_tail (uc : Comparator) (mv : bool) (a b : bytes) :
  Compare uc (key_user mv a) (key_user mv b) = 0 ->
  key_tail mv a = key_tail mv b ->
  InternalKeyComparator_Compare uc mv a b = 0.
Proof.
  intros Hu Ht. rewrite Compare_unfold, Hu, Ht. cbv zeta. simpl.
  rewrite Z.gtb_ltb, Z.ltb_irrefl. reflexivity.
Qed.

Lemma Compare_self (uc : Comparator) (mv : bool) (a : bytes) :
  ReflexiveCompare uc -> InternalKeyComparator_Compare uc mv a a = 0.
Proof. intros Hr. apply Compare_equal_tail; [apply Hr | reflexivity]. Qed.

Lemma shiftr8_mono (x y : Z) : Z.shiftr x 8 > Z.shiftr y 8 -> x > y.
Proof.
  rewrite !Z.shiftr_div_pow2 by lia. intros Hgt.
  destruct (Z_le_gt_dec x y) as [Hle|]; [|assumption].
  pose proof (Z.div_le_mono x y (2 ^ 8) ltac:(lia) Hle). lia.
Qed.

(** *** Order of internal keys *)

(** C4. For internal keys of either mode whose user keys the user comparator
    holds equal, the key with the larger sequence number compares below the
    other, whatever the two tags are. *)
Theorem newer_sequence_sorts_first
    (uc : Comparator) (mv : bool) (a b : bytes) :
  IsInternalKey mv a -> IsInternalKey mv b ->
  Compare uc (key_user mv a) (key_user mv b) = 0 ->
  key_sequence mv a > key_sequence mv b ->
  InternalKeyComparator_Compare uc mv a b < 0.
Proof.
  intros _ _ Hu Hseq. apply shiftr8_mono in Hseq.
  rewrite Compare_unfold, Hu. cbv zeta. simpl.
  destruct (Z.gtb_spec (key_tail mv a) (key_tail mv b)); lia.
Qed.

Lemma newer_sequence_sorts_first_witness :
  InternalKeyComparator_Compare BytewiseComparator false
    (AppendInternalKey []
       {| user_key := ["k"%byte]; sequence := 9; type := kTypeDeletion |})
    (AppendInternalKey []
       {| user_key := ["k"%byte]; sequence := 8; type := kTypeValue |}) < 0
  /\ InternalKeyComparator_Compare BytewiseComparator true
    (AppendMVInternalKey []
       {| mv_user_key := ["k"%byte]; mv_sequence := 9; mv_type := kTypeValue;
          valid_time := 1 |})
    (AppendMVInternalKey []
       {| mv_user_key := ["k"%byte]; mv_sequence := 8; mv_type := kTypeValue;
          valid_time := 7 |}) < 0.
Proof.
  split; apply newer_sequence_sorts_first;
    try (unfold IsInternalKey; simpl; lia); vm_compute; reflexivity.
Defined.

(** C1, the code at a failing input.  Two MV keys for the user key ["k"],
    both packed from sequence 5 and [kTypeValue], with valid times 9 and 3:
    the comparator returns 0, not a negative number. *)
Theorem equal_sequence_valid_time_not_consulted :
  let a := AppendMVInternalKey []
             {| mv_user_key := ["k"%byte]; mv_sequence := 5;
                mv_type := kTypeValue; valid_time := 9 |} in
  let b := AppendMVInternalKey []
             {| mv_user_key := ["k"%byte]; mv_sequence := 5;
                mv_type := kTypeValue; valid_time := 3 |} in
  Compare BytewiseComparator (key_user true a) (key_user true b) = 0
  /\ key_tail true a = key_tail true b
  /\ key_valid_time a > key_valid_time b
  /\ InternalKeyComparator_Compare BytewiseComparator true a b = 0.
Proof. vm_compute. repeat split; reflexivity. Qed.

(** C9. In MV mode the comparator is not antisymmetric: over any user key
    [u] that the user comparator holds equal to itself there are two MV
    keys, the first with the smaller packed word and the larger valid time,
    each of which compares below the other. *)
Theorem mv_compare_not_antisymmetric (uc : Comparator) (u : bytes) :
  Compare uc u u = 0 ->
  exists a b,
    IsInternalKey true a /\ IsInternalKey true b
    /\ key_user true a = u /\ key_user true b = u
    /\ key_tail true a < key_tail true b
    /\ key_valid_time a > key_valid_time b
    /\ InternalKeyComparator_Compare uc true a b < 0
    /\ InternalKeyComparator_Compare uc true b a < 0.
Proof.
  intros Hu.
  set (ta := EncodeFixed64 (PackSequenceAndType 1 kTypeValue)
             ++ EncodeFixed64 9).
  set (tb := EncodeFixed64 (PackSequenceAndType 2 kTypeValue)
             ++ EncodeFixed64 3).
  assert (Hua : key_user true (u ++ ta) = u)
    by (apply key_user_app; reflexivity).
  assert (Hub : key_user true (u ++ tb) = u)
    by (apply key_user_app; reflexivity).
  assert (Hta : key_tail true (u ++ ta) = 257)
    by (rewrite key_tail_app by reflexivity; reflexivity).
  assert (Htb : key_tail true (u ++ tb) = 513)
    by (rewrite key_tail_app by reflexivity; reflexivity).
  assert (Hva : key_valid_time (u ++ ta) = 9).
  { unfold key_valid_time, fixed64_from_end.
    change ta with (EncodeFixed64 (PackSequenceAndType 1 kTypeValue)
                    ++ EncodeFixed64 9).
    rewrite app_assoc, skipn_len_app by reflexivity. reflexivity. }
  assert (Hvb : key_valid_time (u ++ tb) = 3).
  { unfold key_valid_time, fixed64_from_end.
    change tb with (EncodeFixed64 (PackSequenceAndType 2 kTypeValue)
                    ++ EncodeFixed64 3).
    rewrite app_assoc, skipn_len_app by reflexivity. reflexivity. }
  exists (u ++ ta), (u ++ tb).
  repeat split.
  - unfold IsInternalKey. rewrite length_app. simpl. lia.
  - unfold IsInternalKey. rewrite length_app. simpl. lia.
  - exact Hua.
  - exact Hub.
  - rewrite Hta, Htb. lia.
  - rewrite Hva, Hvb. lia.
  - rewrite Compare_unfold, Hua, Hub, Hu, Hta, Htb, Hva, Hvb. reflexivity.
  - rewrite Compare_unfold, Hua, Hub, Hu, Hta, Htb. reflexivity.
Qed.

Lemma mv_compare_not_antisymmetric_witness :
  exists a b,
    IsInternalKey true a /\ IsInternalKey true b
    /\ key_user true a = ["k"%byte] /\ key_user true b = ["k"%byte]
    /\ key_tail true a < key_tail true b
    /\ key_valid_time a > key_valid_time b
    /\ InternalKeyComparator_Compare BytewiseComparator true a b < 0
    /\ InternalKeyComparator_Compare BytewiseComparator true b a < 0.
Proof.
  apply (mv_compare_not_antisymmetric BytewiseComparator ["k"%byte]).
  reflexivity.
Defined.

(** *** The bytewise comparator keeps the contract *)

Lemma Bytewise_Compare_refl : ReflexiveCompare BytewiseComparator.
Proof.
  intros a. simpl. induction a as [|x a IH]; simpl; [reflexivity|].
  rewrite Z.gtb_ltb, Z.ltb_irrefl. exact IH.
Qed.

Lemma Bytewise_shortening : ShorteningContract BytewiseComparator.
Proof.
  intros start. simpl.
  induction start as [|s start IH]; intros limit; simpl; [lia|].
  destruct limit as [|l limit]; simpl; [lia|].
  destruct (Z.eqb_spec (byte_to_Z s) (byte_to_Z l)) as [Heq|Hne].
  - simpl. rewrite <- Heq, Z.gtb_ltb, Z.ltb_irrefl.
    intros Hlen Hlt. apply IH; [lia | exact Hlt].
  - destruct (Z.ltb_spec (byte_to_Z s) 255) as [H255|]; simpl.
    + destruct (Z.ltb_spec (byte_to_Z s + 1) (byte_to_Z l)) as [Hlt|]; simpl.
      * intros _ _. pose proof (byte_to_Z_range s).
        rewrite byte_to_Z_to_byte by lia.
        destruct (Z.ltb_spec (byte_to_Z s + 1) (byte_to_Z l)); lia.
      * lia.
    + lia.
Qed.

(** *** Separators *)

Lemma rebuilt_key_user (mv : bool) (tmp : bytes) (p : Z) :
  key_user mv
    (tmp ++ EncodeFixed64 p
         ++ (if mv then EncodeFixed64 kMinValidTime else [])) = tmp.
Proof. apply key_user_app. destruct mv; reflexivity. Qed.

Lemma FindShortestSeparator_unfold
    (uc : Comparator) (mv : bool) (start limit : bytes) :
  InternalKeyComparator_FindShortestSeparator uc mv start limit =
  let tmp := FindShortestSeparator uc (key_user mv start) (key_user mv limit) in
  if (length tmp <? length (key_user mv start))%nat
     && (Compare uc (key_user mv start) tmp <? 0)
  then tmp ++ EncodeFixed64
                (PackSequenceAndType kMaxSequenceNumber kValueTypeForSeek)
           ++ (if mv then EncodeFixed64 kMinValidTime else [])
  else start.
Proof.
  unfold InternalKeyComparator_FindShortestSeparator, key_user, PutFixed64.
  destruct mv; cbv zeta;
    match goal with |- context [if ?c then _ else _] => destruct c end;
    rewrite <- ?app_assoc, ?app_nil_r; reflexivity.
Qed.

(** C5. Under the user comparator's contract, and for internal keys
    [start] below [limit], [FindShortestSeparator] leaves [start] as it is
    or replaces it by the shortened user key followed by
    [pack(kMaxSequenceNumber, kValueTypeForSeek)] (and [kMinValidTime] in MV
    mode); the old [start] is not above the new one, and the new one is
    strictly below [limit]. *)
Theorem separator_sandwich
    (uc : Comparator) (mv : bool) (start limit : bytes) :
  ReflexiveCompare uc -> ShorteningContract uc ->
  IsInternalKey mv start -> IsInternalKey mv limit ->
  InternalKeyComparator_Compare uc mv start limit < 0 ->
  let start' := InternalKeyComparator_FindShortestSeparator uc mv start limit in
  (start' = start
   \/ start' =
      FindShortestSeparator uc (key_user mv start) (key_user mv limit)
        ++ EncodeFixed64
             (PackSequenceAndType kMaxSequenceNumber kValueTypeForSeek)
        ++ (if mv then EncodeFixed64 kMinValidTime else []))
  /\ InternalKeyComparator_Compare uc mv start start' <= 0
  /\ InternalKeyComparator_Compare uc mv start' limit < 0.
Proof.
  intros Hrefl Hshort _ _ Hlt start'. subst start'.
  rewrite FindShortestSeparator_unfold. cbv zeta.
  set (tmp := FindShortestSeparator uc (key_user mv start) (key_user mv limit)).
  destruct ((length tmp <? length (key_user mv start))%nat
            && (Compare uc (key_user mv start) tmp <? 0)) eqn:Hcond.
  - apply andb_true_iff in Hcond. destruct Hcond as [Hlen Hup].
    apply Nat.ltb_lt in Hlen. apply Z.ltb_lt in Hup.
    pose proof (Hshort (key_user mv start) (key_user mv limit) Hlen Hup)
      as Hbelow. fold tmp in Hbelow.
    split; [right; reflexivity|]. split.
    + rewrite Compare_user_order; rewrite rebuilt_key_user; lia.
    + rewrite Compare_user_order; rewrite rebuilt_key_user; lia.
  - split; [left; reflexivity|]. split.
    + rewrite Compare_self by exact Hrefl. lia.
    + exact Hlt.
Qed.

Lemma separator_sandwich_witness :
  let uc := BytewiseComparator in
  let start :=
    AppendInternalKey []
      {| user_key := ["a"; "b"; "c"; "d"]%byte; sequence := 100;
         type := kTypeValue |} in
  let limit :=
    AppendInternalKey []
      {| user_key := ["a"; "b"; "x"; "y"; "z"]%byte; sequence := 50;
         type := kTypeValue |} in
  let start' :=
    InternalKeyComparator_FindShortestSeparator uc false start limit in
  (start' = start
   \/ start' =
      FindShortestSeparator uc (key_user false start) (key_user false limit)
        ++ EncodeFixed64
             (PackSequenceAndType kMaxSequenceNumber kValueTypeForSeek)
        ++ [])
  /\ InternalKeyComparator_Compare uc false start start' <= 0
  /\ InternalKeyComparator_Compare uc false start' limit < 0.
Proof.
  apply (separator_sandwich BytewiseComparator false).
  - exact Bytewise_Compare_refl.
  - exact Bytewise_shortening.
  - unfold IsInternalKey; simpl; lia.
  - unfold IsInternalKey; simpl; lia.
  - vm_compute; reflexivity.
Defined.

(** *** Successors *)

(** In single-version mode [FindShortSuccessor] is the specified function. *)
Lemma FindShortSuccessor_sv (uc : Comparator) (key : bytes) :
  InternalKeyComparator_FindShortSuccessor uc false key =
  FindShortSuccessor_specified uc false key.
Proof. reflexivity. Qed.

(** C6, the code at a failing input.  The MV key of user key ["b"],
    sequence 1, [kTypeValue], valid time 0, under the bytewise comparator:
    the code strips eight bytes, hands the nine-byte prefix (user key and
    packed word) to the user comparator, gets the shorter ["c"] back and
    rebuilds the key; stripping the sixteen-byte trailer gives the user key
    ["b"], whose successor ["c"] is no shorter, and the key stays. *)
Theorem mv_successor_strips_eight_bytes :
  let key := AppendMVInternalKey []
               {| mv_user_key := ["b"%byte]; mv_sequence := 1;
                  mv_type := kTypeValue; valid_time := 0 |} in
  ExtractUserKey key =
    ["b"%byte] ++ EncodeFixed64 (PackSequenceAndType 1 kTypeValue)
  /\ MVExtractUserKey key = ["b"%byte]
  /\ InternalKeyComparator_FindShortSuccessor BytewiseComparator true key =
     ["c"%byte]
       ++ EncodeFixed64
            (PackSequenceAndType kMaxSequenceNumber kValueTypeForSeek)
       ++ EncodeFixed64 kMinValidTime
  /\ FindShortSuccessor_specified BytewiseComparator true key = key
  /\ InternalKeyComparator_FindShortSuccessor BytewiseComparator true key
     <> FindShortSuccessor_specified BytewiseComparator true key.
Proof.
  vm_compute. repeat split; try reflexivity. discriminate.
Qed.

(** ** Lookup keys *)

Lemma testbit_small (b n i : Z) :
  0 <= b < 2 ^ n -> n <= i -> Z.testbit b i = false.
Proof.
  intros Hb Hi. destruct (Z.eq_dec b 0) as [->|Hnz]; [apply Z.bits_0|].
  apply Z.bits_above_log2; [lia|].
  assert (Z.log2 b < n) by (apply Z.log2_lt_pow2; lia). lia.
Qed.

Lemma lor_shiftl_disjoint (a b n : Z) :
  0 <= n -> 0 <= b < 2 ^ n ->
  Z.lor (Z.shiftl a n) b = Z.shiftl a n + b.
Proof.
  intros Hn Hb.
  assert (Hland : Z.land (Z.shiftl a n) b = 0).
  { apply Z.bits_inj'. intros i Hi. rewrite Z.land_spec, Z.bits_0.
    destruct (Z_lt_le_dec i n).
    - rewrite Z.shiftl_spec_low by lia. reflexivity.
    - rewrite (testbit_small b n i) by lia. apply andb_false_r. }
  rewrite Z.add_nocarry_lxor by exact Hland.
  symmetry. apply Z.lxor_lor. exact Hland.
Qed.

(** Under its assertion, [PackSequenceAndType] is [seq * 256 + tag]. *)
Lemma PackSequenceAndType_value (seq : Z) (t : ValueType) :
  0 <= seq <= kMaxSequenceNumber ->
  PackSequenceAndType seq t = seq * 256 + ValueType_to_Z t.
Proof.
  unfold kMaxSequenceNumber, PackSequenceAndType, to_uint64. intros Hs.
  rewrite Z.shiftl_1_l in Hs.
  assert (Hsh : Z.shiftl seq 8 = seq * 256)
    by (rewrite Z.shiftl_mul_pow2 by lia; reflexivity).
  rewrite Z.mod_small by (rewrite Hsh; lia).
  rewrite lor_shiftl_disjoint by (destruct t; simpl; lia).
  rewrite Hsh. reflexivity.
Qed.

Lemma poke_app (pre rest src : bytes) :
  poke (pre ++ rest) (length pre) src = pre ++ src ++ skipn (length src) rest.
Proof.
  unfold poke.
  rewrite firstn_app, Nat.sub_diag, firstn_all, firstn_O, app_nil_r.
  rewrite skipn_app, skipn_all2 by lia.
  replace (length pre + length src - length pre)%nat with (length src) by lia.
  reflexivity.
Qed.

(** A write right behind [pre] that fits into what follows is in bounds. *)
Lemma store_at (pre rest src mem : bytes) (d : nat) :
  mem = pre ++ rest -> d = length pre -> (length src <= length rest)%nat ->
  store mem d src = Some ((pre ++ src) ++ skipn (length src) rest).
Proof.
  intros -> -> Hlen. unfold store. rewrite length_app.
  destruct (Nat.leb_spec (length pre + length src) (length pre + length rest));
    [|lia].
  rewrite poke_app, app_assoc. reflexivity.
Qed.

Lemma slice_app (pre x rest : bytes) (off n : nat) :
  off = length pre -> n = length x -> slice (pre ++ x ++ rest) off n = x.
Proof.
  intros -> ->. unfold slice. rewrite skipn_app, skipn_all, Nat.sub_diag.
  simpl. rewrite firstn_app, Nat.sub_diag, firstn_all, firstn_O, app_nil_r.
  reflexivity.
Qed.

Lemma space_capacity (needed : nat) :
  (needed <=
   if negb (needed <=? sizeof_space_)%nat then needed else sizeof_space_)%nat.
Proof. destruct (Nat.leb_spec needed sizeof_space_); simpl; lia. Qed.

(** The constructor never writes outside its allocation, and leaves the
    encoding at its start. *)
Lemma LookupKey_new_mem (u : bytes) (s : Z) :
  let v := EncodeVarint32 (Z.of_nat (length u) + 8) in
  let f := EncodeFixed64 (PackSequenceAndType s kValueTypeForSeek) in
  exists k rest,
    LookupKey_new u s = Some k
    /\ lk_mem k = v ++ (u ++ f) ++ rest
    /\ start_ k = 0%nat
    /\ kstart_ k = length v
    /\ end_ k = (length v + length (u ++ f))%nat.
Proof.
  intros v f. unfold LookupKey_new. cbv zeta. fold v. fold f.
  pose proof (space_capacity (length u + 13)) as Hcap.
  set (cap := if negb (length u + 13 <=? sizeof_space_)%nat
              then (length u + 13)%nat else sizeof_space_) in *.
  pose proof (EncodeVarint32_length (Z.of_nat (length u) + 8)) as Hv.
  fold v in Hv.
  set (mem0 := repeat x00 cap).
  assert (Hmem0 : length mem0 = cap) by apply repeat_length.
  rewrite (store_at [] mem0 v) by (try reflexivity; lia).
  rewrite (store_at v (skipn (length v) mem0) u)
    by (try reflexivity; rewrite length_skipn; lia).
  rewrite (store_at (v ++ u) (skipn (length u) (skipn (length v) mem0)) f)
    by (try reflexivity; rewrite ?length_app, ?length_skipn; simpl; lia).
  eexists. eexists. split; [reflexivity|]. simpl.
  repeat split; try (rewrite ?length_app; simpl; lia).
  rewrite <- !app_assoc. reflexivity.
Qed.

Lemma MVLookupKey_new_mem (u : bytes) (s t : Z) :
  let v := EncodeVarint32 (Z.of_nat (length u) + 16) in
  let f := EncodeFixed64 (PackSequenceAndType s kValueTypeForSeek) in
  exists k rest,
    MVLookupKey_new u s t = Some k
    /\ lk_mem k = v ++ (u ++ f ++ EncodeFixed64 t) ++ rest
    /\ start_ k = 0%nat
    /\ kstart_ k = length v
    /\ end_ k = (length v + length (u ++ f ++ EncodeFixed64 t))%nat.
Proof.
  intros v f. unfold MVLookupKey_new. cbv zeta. fold v. fold f.
  pose proof (space_capacity (length u + 21)) as Hcap.
  set (cap := if negb (length u + 21 <=? sizeof_space_)%nat
              then (length u + 21)%nat else sizeof_space_) in *.
  pose proof (EncodeVarint32_length (Z.of_nat (length u) + 16)) as Hv.
  fold v in Hv.
  set (mem0 := repeat x00 cap).
  assert (Hmem0 : length mem0 = cap) by apply repeat_length.
  rewrite (store_at [] mem0 v) by (try reflexivity; lia).
  rewrite (store_at v (skipn (length v) mem0) u)
    by (try reflexivity; rewrite length_skipn; lia).
  rewrite (store_at (v ++ u) (skipn (length u) (skipn (length v) mem0)) f)
    by (try reflexivity; rewrite ?length_app, ?length_skipn; simpl; lia).
  rewrite (store_at ((v ++ u) ++ f)
             (skipn (length f) (skipn (length u) (skipn (length v) mem0)))
             (EncodeFixed64 t))
    by (try reflexivity; rewrite ?length_app, ?length_skipn; simpl; lia).
  eexists. eexists. split; [reflexivity|]. simpl.
  repeat split; try (rewrite ?length_app; simpl; lia).
  rewrite <- !app_assoc. reflexivity.
Qed.

(** C7. For every user key [u], sequence number [s <= kMaxSequenceNumber]
    and valid time [t], both constructors succeed; the [memtable_key] view
    is the whole encoding, [varint32(len u + 8) || u || fixed64(pack s)] for
    [LookupKey] and [varint32(len u + 16) || u || fixed64(pack s) ||
    fixed64(t)] for [MVLookupKey], with [pack s] packed from [s] and
    [kValueTypeForSeek]; the [internal_key] view starts right behind the
    varint and runs to the same end. *)
Theorem lookup_key_layout (u : bytes) (s t : Z) :
  0 <= s <= kMaxSequenceNumber ->
  let packed := PackSequenceAndType s kValueTypeForSeek in
  packed = s * 256 + ValueType_to_Z kValueTypeForSeek
  /\ (exists k,
        LookupKey_new u s = Some k
        /\ memtable_key k =
           EncodeVarint32 (Z.of_nat (length u) + 8)
             ++ u ++ EncodeFixed64 packed
        /\ kstart_ k =
           (start_ k + length (EncodeVarint32 (Z.of_nat (length u) + 8)))%nat
        /\ internal_key k = u ++ EncodeFixed64 packed)
  /\ (exists k,
        MVLookupKey_new u s t = Some k
        /\ memtable_key k =
           EncodeVarint32 (Z.of_nat (length u) + 16)
             ++ u ++ EncodeFixed64 packed ++ EncodeFixed64 t
        /\ kstart_ k =
           (start_ k + length (EncodeVarint32 (Z.of_nat (length u) + 16)))%nat
        /\ internal_key k = u ++ EncodeFixed64 packed ++ EncodeFixed64 t).
Proof.
  intros Hs packed. subst packed.
  split; [apply PackSequenceAndType_value, Hs|]. split.
  - destruct (LookupKey_new_mem u s) as (k & rest & Hk & Hmem & H0 & Hks & He).
    exists k. unfold memtable_key, internal_key.
    rewrite Hmem, H0, Hks, He. repeat split.
    + exact Hk.
    + rewrite app_assoc. apply (slice_app [] _ rest); [reflexivity|].
      rewrite !length_app. simpl. lia.
    + apply slice_app; lia.
  - destruct (MVLookupKey_new_mem u s t)
      as (k & rest & Hk & Hmem & H0 & Hks & He).
    exists k. unfold memtable_key, internal_key.
    rewrite Hmem, H0, Hks, He. repeat split.
    + exact Hk.
    + rewrite app_assoc. apply (slice_app [] _ rest); [reflexivity|].
      rewrite !length_app. simpl. lia.
    + apply slice_app; lia.
Qed.

Lemma lookup_key_layout_witness :
  let u := ["f"; "o"; "o"]%byte in
  let packed := PackSequenceAndType 100 kValueTypeForSeek in
  packed = 100 * 256 + ValueType_to_Z kValueTypeForSeek
  /\ (exists k,
        LookupKey_new u 100 = Some k
        /\ memtable_key k =
           EncodeVarint32 (Z.of_nat (length u) + 8)
             ++ u ++ EncodeFixed64 packed
        /\ kstart_ k =
           (start_ k + length (EncodeVarint32 (Z.of_nat (length u) + 8)))%nat
        /\ internal_key k = u ++ EncodeFixed64 packed)
  /\ (exists k,
        MVLookupKey_new u 100 42 = Some k
        /\ memtable_key k =
           EncodeVarint32 (Z.of_nat (length u) + 16)
             ++ u ++ EncodeFixed64 packed ++ EncodeFixed64 42
        /\ kstart_ k =
           (start_ k + length (EncodeVarint32 (Z.of_nat (length u) + 16)))%nat
        /\ internal_key k = u ++ EncodeFixed64 packed ++ EncodeFixed64 42).
Proof.
  apply (lookup_key_layout ["f"; "o"; "o"]%byte 100 42).
  unfold kMaxSequenceNumber. simpl. lia.
Defined.

(** ** Decoders and the record grammar *)

Lemma GetVarint32Ptr_split (iters : nat) :
  forall shift result p v rest,
    GetVarint32Ptr iters shift result p = Some (v, rest) ->
    exists bs,
      p = bs ++ rest /\ bs <> []
      /\ GetVarint32Ptr iters shift result bs = Some (v, []).
Proof.
  induction iters as [|iters IH]; intros shift result p v rest; simpl;
    [discriminate|].
  destruct p as [|b p]; [discriminate|].
  destruct (negb (Z.land (byte_to_Z b) 128 =? 0)) eqn:Hmore.
  - intros Hrec. apply IH in Hrec. destruct Hrec as (bs & -> & _ & Hbs).
    exists (b :: bs). simpl. rewrite Hmore.
    repeat split; [discriminate|exact Hbs].
  - intros [= <- <-]. exists [b]. simpl. rewrite Hmore.
    repeat split; discriminate.
Qed.

Lemma GetVarint32Ptr_app (iters : nat) :
  forall shift result bs v rest,
    GetVarint32Ptr iters shift result bs = Some (v, []) ->
    GetVarint32Ptr iters shift result (bs ++ rest) = Some (v, rest).
Proof.
  induction iters as [|iters IH]; intros shift result bs v rest; simpl;
    [discriminate|].
  destruct bs as [|b bs]; [discriminate|]. simpl.
  destruct (negb (Z.land (byte_to_Z b) 128 =? 0)).
  - apply IH.
  - intros [= <- ->]. reflexivity.
Qed.

Lemma GetVarint32Ptr_nonneg (iters : nat) :
  forall shift result p v rest,
    0 <= result ->
    GetVarint32Ptr iters shift result p = Some (v, rest) -> 0 <= v.
Proof.
  induction iters as [|iters IH]; intros shift result p v rest Hr; simpl;
    [discriminate|].
  destruct p as [|b p]; [discriminate|].
  destruct (negb (Z.land (byte_to_Z b) 128 =? 0)).
  - apply IH. apply Z.lor_nonneg. split; [exact Hr|].
    unfold to_uint32. apply Z.mod_pos_bound. lia.
  - intros [= <- _]. apply Z.lor_nonneg. split; [exact Hr|].
    unfold to_uint32. apply Z.mod_pos_bound. lia.
Qed.

(** [GetVarint32] reads exactly a complete varint32 off the front. *)
Lemma GetVarint32_spec (input : bytes) (n : Z) (rest : bytes) :
  GetVarint32 input = Some (n, rest) <->
  exists v, IsVarint32 v n /\ input = v ++ rest.
Proof.
  unfold IsVarint32, GetVarint32. split.
  - intros Hget. apply GetVarint32Ptr_split in Hget.
    destruct Hget as (bs & -> & _ & Hbs). exists bs.
    split; [exact Hbs|reflexivity].
  - intros (v & Hv & ->). apply GetVarint32Ptr_app. exact Hv.
Qed.

Lemma IsVarint32_nonempty (v : bytes) (n : Z) : IsVarint32 v n -> v <> [].
Proof. intros Hv ->. discriminate Hv. Qed.

(** [GetLengthPrefixedSlice] reads exactly a length-prefixed string off the
    front. *)
Lemma GetLengthPrefixedSlice_spec (input x rest : bytes) :
  GetLengthPrefixedSlice input = Some (x, rest) <->
  exists lp, LengthPrefixed lp x /\ input = lp ++ rest.
Proof.
  unfold GetLengthPrefixedSlice, LengthPrefixed. split.
  - destruct (GetVarint32 input) as [[len input']|] eqn:Hget; [|discriminate].
    assert (Hlen : 0 <= len)
      by (eapply (GetVarint32Ptr_nonneg 5 0 0); [lia | exact Hget]).
    apply GetVarint32_spec in Hget. destruct Hget as (v & Hv & ->).
    destruct (Z.leb_spec len (Z.of_nat (length input'))); [|discriminate].
    intros [= <- <-].
    exists (v ++ firstn (Z.to_nat len) input'). split.
    + exists v. split; [|reflexivity].
      rewrite length_firstn, Nat.min_l by lia. rewrite Z2Nat.id by lia.
      exact Hv.
    + rewrite <- app_assoc, firstn_skipn. reflexivity.
  - intros (lp & (v & Hv & ->) & ->).
    rewrite <- app_assoc.
    assert (Hget : GetVarint32 (v ++ x ++ rest)
                   = Some (Z.of_nat (length x), x ++ rest))
      by (apply GetVarint32_spec; exists v; split; [exact Hv|reflexivity]).
    rewrite Hget, length_app, Nat2Z.id.
    destruct (Z.leb_spec (Z.of_nat (length x))
                (Z.of_nat (length x + length rest))); [|lia].
    rewrite firstn_app, Nat.sub_diag, firstn_all, firstn_O, app_nil_r.
    rewrite skipn_app, skipn_all, Nat.sub_diag. reflexivity.
Qed.

Lemma LengthPrefixed_nonempty (lp x : bytes) : LengthPrefixed lp x -> lp <> [].
Proof.
  intros (v & Hv & ->) Hnil. apply app_eq_nil in Hnil.
  destruct Hnil as [Hnil _]. exact (IsVarint32_nonempty _ _ Hv Hnil).
Qed.

Lemma DecodeFixed64_app (f rest : bytes) :
  length f = 8%nat -> DecodeFixed64 (f ++ rest) = DecodeFixed64 f.
Proof.
  intros Hlen. do 9 (destruct f as [|? f]; try discriminate Hlen).
  reflexivity.
Qed.

Lemma DecodeFixed32_app (f rest : bytes) :
  length f = 4%nat -> DecodeFixed32 (f ++ rest) = DecodeFixed32 f.
Proof.
  intros Hlen. do 5 (destruct f as [|? f]; try discriminate Hlen).
  reflexivity.
Qed.

(** [GetFixed64] reads exactly eight bytes off the front. *)
Lemma GetFixed64_spec (input : bytes) (n : Z) (rest : bytes) :
  GetFixed64 input = Some (n, rest) <->
  exists f, IsFixed64 f n /\ input = f ++ rest.
Proof.
  unfold GetFixed64, IsFixed64. split.
  - destruct (Nat.ltb_spec (length input) 8); [discriminate|].
    intros [= <- <-]. exists (firstn 8 input).
    assert (Hlen : length (firstn 8 input) = 8%nat)
      by (rewrite length_firstn; lia).
    repeat split.
    + exact Hlen.
    + rewrite <- (firstn_skipn 8 input) at 2.
      symmetry. apply DecodeFixed64_app. exact Hlen.
    + symmetry. apply firstn_skipn.
  - intros (f & (Hlen & <-) & ->). rewrite length_app.
    destruct (Nat.ltb_spec (length f + length rest) 8); [lia|].
    rewrite DecodeFixed64_app by exact Hlen.
    rewrite skipn_app, <- Hlen, skipn_all, Nat.sub_diag. reflexivity.
Qed.

Lemma EncodesRecord_nonempty (e : bytes) (r : BatchRecord) :
  EncodesRecord e r -> e <> [].
Proof. intros [ ]; discriminate. Qed.

Lemma EncodesRecordMV_nonempty (e : bytes) (r : BatchRecordMV) :
  EncodesRecordMV e r -> e <> [].
Proof. intros [ ]; discriminate. Qed.

Lemma tag_is (b : byte) (t : ValueType) :
  byte_to_Z b = ValueType_to_Z t -> b = tag_byte t.
Proof.
  intros Hb. apply byte_to_Z_inj. rewrite tag_byte_to_Z. exact Hb.
Qed.

(** One round reads a record exactly when an encoded record starts the
    input. *)
Lemma ReadRecord_sound (tag : byte) (input : bytes) (r : BatchRecord)
    (rest : bytes) :
  ReadRecord tag input = Step r rest ->
  exists e, EncodesRecord e r /\ tag :: input = e ++ rest.
Proof.
  unfold ReadRecord. cbv zeta.
  destruct (Z.eqb_spec (byte_to_Z tag) (ValueType_to_Z kTypeValue)) as [Hv|_].
  - apply tag_is in Hv. subst tag.
    destruct (GetLengthPrefixedSlice input) as [[key in1]|] eqn:Hk;
      [|discriminate].
    destruct (GetLengthPrefixedSlice in1) as [[value in2]|] eqn:Hval;
      [|discriminate].
    intros [= <- <-].
    apply GetLengthPrefixedSlice_spec in Hk. destruct Hk as (lk & Hlk & ->).
    apply GetLengthPrefixedSlice_spec in Hval. destruct Hval as (lv & Hlv & ->).
    exists (tag_byte kTypeValue :: lk ++ lv). split.
    + constructor; assumption.
    + simpl. rewrite <- app_assoc. reflexivity.
  - destruct (Z.eqb_spec (byte_to_Z tag) (ValueType_to_Z kTypeDeletion))
      as [Hd|_]; [|discriminate].
    apply tag_is in Hd. subst tag.
    destruct (GetLengthPrefixedSlice input) as [[key in1]|] eqn:Hk;
      [|discriminate].
    intros [= <- <-].
    apply GetLengthPrefixedSlice_spec in Hk. destruct Hk as (lk & Hlk & ->).
    exists (tag_byte kTypeDeletion :: lk). split.
    + constructor; assumption.
    + reflexivity.
Qed.

Lemma ReadRecord_complete (e : bytes) (r : BatchRecord) (rest : bytes) :
  EncodesRecord e r ->
  exists tag input,
    e ++ rest = tag :: input /\ ReadRecord tag input = Step r rest.
Proof.
  intros [lk key lv value Hlk Hlv | lk key Hlk].
  - exists (tag_byte kTypeValue), ((lk ++ lv) ++ rest). split; [reflexivity|].
    unfold ReadRecord. simpl.
    assert (H1 : GetLengthPrefixedSlice ((lk ++ lv) ++ rest)
                 = Some (key, lv ++ rest)).
    { apply GetLengthPrefixedSlice_spec. exists lk.
      split; [exact Hlk | rewrite app_assoc; reflexivity]. }
    assert (H2 : GetLengthPrefixedSlice (lv ++ rest) = Some (value, rest)).
    { apply GetLengthPrefixedSlice_spec. exists lv.
      split; [exact Hlv | reflexivity]. }
    rewrite H1, H2. reflexivity.
  - exists (tag_byte kTypeDeletion), (lk ++ rest). split; [reflexivity|].
    unfold ReadRecord. simpl.
    assert (H1 : GetLengthPrefixedSlice (lk ++ rest) = Some (key, rest)).
    { apply GetLengthPrefixedSlice_spec. exists lk.
      split; [exact Hlk | reflexivity]. }
    rewrite H1. reflexivity.
Qed.

Lemma ReadRecord_stop (tag : byte) (input : bytes) (s : Status) :
  ReadRecord tag input = Stop s -> exists msg, s = Corruption msg.
Proof.
  unfold ReadRecord. cbv zeta.
  repeat match goal with
         | |- context [if ?c then _ else _] => destruct c
         | |- context [match ?o with Some _ => _ | None => _ end] =>
             destruct o as [[? ?]|]
         end;
    intros [= <-]; eexists; reflexivity.
Qed.

Lemma ReadRecordMV_sound (tag : byte) (input : bytes) (r : BatchRecordMV)
    (rest : bytes) :
  ReadRecordMV tag input = Step r rest ->
  exists e, EncodesRecordMV e r /\ tag :: input = e ++ rest.
Proof.
  unfold ReadRecordMV. cbv zeta.
  destruct (Z.eqb_spec (byte_to_Z tag) (ValueType_to_Z kTypeValue)) as [Hv|_].
  - apply tag_is in Hv. subst tag.
    destruct (GetLengthPrefixedSlice input) as [[key in1]|] eqn:Hk;
      [|discriminate].
    destruct (GetFixed64 in1) as [[vt in2]|] eqn:Hvt; [|discriminate].
    destruct (GetLengthPrefixedSlice in2) as [[value in3]|] eqn:Hval;
      [|discriminate].
    intros [= <- <-].
    apply GetLengthPrefixedSlice_spec in Hk. destruct Hk as (lk & Hlk & ->).
    apply GetFixed64_spec in Hvt. destruct Hvt as (f & Hf & ->).
    apply GetLengthPrefixedSlice_spec in Hval. destruct Hval as (lv & Hlv & ->).
    exists (tag_byte kTypeValue :: lk ++ f ++ lv). split.
    + constructor; assumption.
    + simpl. rewrite <- !app_assoc. reflexivity.
  - destruct (Z.eqb_spec (byte_to_Z tag) (ValueType_to_Z kTypeDeletion))
      as [Hd|_]; [|discriminate].
    apply tag_is in Hd. subst tag.
    destruct (GetLengthPrefixedSlice input) as [[key in1]|] eqn:Hk;
      [|discriminate].
    destruct (GetFixed64 in1) as [[vt in2]|] eqn:Hvt; [|discriminate].
    intros [= <- <-].
    apply GetLengthPrefixedSlice_spec in Hk. destruct Hk as (lk & Hlk & ->).
    apply GetFixed64_spec in Hvt. destruct Hvt as (f & Hf & ->).
    exists (tag_byte kTypeDeletion :: lk ++ f). split.
    + constructor; assumption.
    + simpl. rewrite <- !app_assoc. reflexivity.
Qed.

Lemma ReadRecordMV_complete (e : bytes) (r : BatchRecordMV) (rest : bytes) :
  EncodesRecordMV e r ->
  exists tag input,
    e ++ rest = tag :: input /\ ReadRecordMV tag input = Step r rest.
Proof.
  intros [lk key f vt lv value Hlk Hf Hlv | lk key f vt Hlk Hf].
  - exists (tag_byte kTypeValue), ((lk ++ f ++ lv) ++ rest).
    split; [reflexivity|]. unfold ReadRecordMV. simpl.
    assert (H1 : GetLengthPrefixedSlice ((lk ++ f ++ lv) ++ rest)
                 = Some (key, f ++ lv ++ rest)).
    { apply GetLengthPrefixedSlice_spec. exists lk.
      split; [exact Hlk | rewrite <- !app_assoc; reflexivity]. }
    assert (H2 : GetFixed64 (f ++ lv ++ rest) = Some (vt, lv ++ rest)).
    { apply GetFixed64_spec. exists f. split; [exact Hf | reflexivity]. }
    assert (H3 : GetLengthPrefixedSlice (lv ++ rest) = Some (value, rest)).
    { apply GetLengthPrefixedSlice_spec. exists lv.
      split; [exact Hlv | reflexivity]. }
    rewrite H1, H2, H3. reflexivity.
  - exists (tag_byte kTypeDeletion), ((lk ++ f) ++ rest).
    split; [reflexivity|]. unfold ReadRecordMV. simpl.
    assert (H1 : GetLengthPrefixedSlice ((lk ++ f) ++ rest)
                 = Some (key, f ++ rest)).
    { apply GetLengthPrefixedSlice_spec. exists lk.
      split; [exact Hlk | rewrite <- !app_assoc; reflexivity]. }
    assert (H2 : GetFixed64 (f ++ rest) = Some (vt, rest)).
    { apply GetFixed64_spec. exists f. split; [exact Hf | reflexivity]. }
    rewrite H1, H2. reflexivity.
Qed.

Lemma ReadRecordMV_stop (tag : byte) (input : bytes) (s : Status) :
  ReadRecordMV tag input = Stop s -> exists msg, s = Corruption msg.
Proof.
  unfold ReadRecordMV. cbv zeta.
  repeat match goal with
         | |- context [if ?c then _ else _] => destruct c
         | |- context [match ?o with Some _ => _ | None => _ end] =>
             destruct o as [[? ?]|]
         end;
    intros [= <-]; eexists; reflexivity.
Qed.

(** The source loops are the shared loop over their round readers. *)
Lemma WriteBatch_IterateLoop_rounds (H : Type) (handler : Handler H)
    (fuel : nat) :
  forall input found h,
    WriteBatch_IterateLoop handler fuel input found h =
    rounds ReadRecord (dispatch handler) fuel input found h.
Proof.
  induction fuel as [|fuel IH]; intros [|tag input] found h;
    try reflexivity.
  cbn [WriteBatch_IterateLoop rounds]. unfold ReadRecord. cbv zeta.
  repeat match goal with
         | |- context [if ?c then _ else _] => destruct c
         | |- context [match ?o with Some _ => _ | None => _ end] =>
             destruct o as [[? ?]|]
         end;
    try reflexivity; apply IH.
Qed.

Lemma WriteBatchMV_IterateLoop_rounds (H : Type) (handler : HandlerMV H)
    (fuel : nat) :
  forall input found h,
    WriteBatchMV_IterateLoop handler fuel input found h =
    rounds ReadRecordMV (dispatchMV handler) fuel input found h.
Proof.
  induction fuel as [|fuel IH]; intros [|tag input] found h;
    try reflexivity.
  cbn [WriteBatchMV_IterateLoop rounds]. unfold ReadRecordMV. cbv zeta.
  repeat match goal with
         | |- context [if ?c then _ else _] => destruct c
         | |- context [match ?o with Some _ => _ | None => _ end] =>
             destruct o as [[? ?]|]
         end;
    try reflexivity; apply IH.
Qed.

(** ** The iteration loop *)

Section RoundsFacts.

Context {R H : Type}.
Variable read : byte -> bytes -> Round R.
Variable apply : H -> R -> H.
Variable enc : bytes -> R -> Prop.

Hypothesis enc_nonempty : forall e r, enc e r -> e <> [].
Hypothesis read_sound : forall tag input r rest,
  read tag input = Step r rest ->
  exists e, enc e r /\ tag :: input = e ++ rest.
Hypothesis read_complete : forall e r rest,
  enc e r ->
  exists tag input, e ++ rest = tag :: input /\ read tag input = Step r rest.
Hypothesis read_stop : forall tag input s,
  read tag input = Stop s -> exists msg, s = Corruption msg.

Lemma read_shrinks (tag : byte) (input : bytes) (r : R) (rest : bytes) :
  read tag input = Step r rest -> (length rest <= length input)%nat.
Proof.
  intros Hread. destruct (read_sound _ _ _ _ Hread) as (e & He & Heq).
  apply enc_nonempty in He. apply (f_equal (@length byte)) in Heq.
  rewrite length_app in Heq. simpl in Heq.
  destruct e; [contradiction|]. simpl in Heq. lia.
Qed.

Lemma NoRecordAt_nil : NoRecordAt enc [].
Proof.
  intros e r rest He Heq. symmetry in Heq. apply app_eq_nil in Heq.
  destruct Heq as [Heq _]. exact (enc_nonempty _ _ He Heq).
Qed.

Lemma NoRecordAt_stop (tag : byte) (input : bytes) (s : Status) :
  read tag input = Stop s -> NoRecordAt enc (tag :: input).
Proof.
  intros Hstop e r rest He Heq.
  destruct (read_complete e r rest He) as (tag' & input' & Heq' & Hstep).
  rewrite <- Heq in Heq'. injection Heq' as <- <-. congruence.
Qed.

(** Fuel beyond the length of the input changes nothing. *)
Lemma rounds_fuel (fuel : nat) :
  forall fuel' input found h,
    (length input <= fuel)%nat -> (length input <= fuel')%nat ->
    rounds read apply fuel input found h =
    rounds read apply fuel' input found h.
Proof.
  induction fuel as [|fuel IH]; intros fuel' [|tag input] found h Hf Hf';
    simpl in *; try lia.
  - destruct fuel'; reflexivity.
  - destruct fuel'; reflexivity.
  - destruct fuel' as [|fuel']; [lia|]. simpl.
    destruct (read tag input) as [s|r rest] eqn:Hread; [reflexivity|].
    pose proof (read_shrinks _ _ _ _ Hread). apply IH; lia.
Qed.

(** A run of encoded records at the front of the input is dispatched in
    order, and the loop goes on behind it. *)
Lemma rounds_frames (es : bytes) (rs : list R) :
  Frames enc es rs ->
  forall rest fuel found h,
    (length (es ++ rest) <= fuel)%nat ->
    rounds read apply fuel (es ++ rest) found h =
    rounds read apply fuel rest
      (found + Z.of_nat (length rs)) (fold_left apply rs h).
Proof.
  induction 1 as [|e r es rs He Hes IH]; intros rest fuel found h Hfuel.
  - simpl. rewrite Z.add_0_r. reflexivity.
  - rewrite <- app_assoc in *.
    destruct (read_complete e r (es ++ rest) He) as (tag & input & Heq & Hread).
    rewrite Heq in *. simpl in Hfuel.
    pose proof (read_shrinks _ _ _ _ Hread) as Hshr.
    destruct fuel as [|fuel]; [lia|]. simpl rounds at 1. rewrite Hread.
    rewrite IH by lia.
    rewrite length_app in Hshr.
    rewrite (rounds_fuel fuel (S fuel)) by lia.
    simpl fold_left. f_equal. simpl length. lia.
Qed.

(** Every run of the loop splits the input into the records it dispatched
    and the point where it stopped: the end of the input, or a place where
    no record starts and a [Corruption] is returned. *)
Lemma rounds_decompose (fuel : nat) :
  forall input found h,
    (length input <= fuel)%nat ->
    exists good rs bad,
      input = good ++ bad /\ Frames enc good rs /\ NoRecordAt enc bad
      /\ ((bad = []
           /\ rounds read apply fuel input found h =
              Some (Exhausted (found + Z.of_nat (length rs)),
                    fold_left apply rs h))
          \/ (bad <> []
              /\ exists msg,
                rounds read apply fuel input found h =
                Some (Returned (Corruption msg), fold_left apply rs h))).
Proof.
  induction fuel as [|fuel IH]; intros [|tag input] found h Hfuel;
    simpl in Hfuel; try lia.
  - exists [], [], []. repeat split; [constructor | apply NoRecordAt_nil |].
    left. split; [reflexivity|]. simpl. rewrite Z.add_0_r. reflexivity.
  - exists [], [], []. repeat split; [constructor | apply NoRecordAt_nil |].
    left. split; [reflexivity|]. simpl. rewrite Z.add_0_r. reflexivity.
  - simpl. destruct (read tag input) as [s|r rest] eqn:Hread.
    + exists [], [], (tag :: input).
      repeat split; [constructor | eapply NoRecordAt_stop; eassumption |].
      right. split; [discriminate|].
      destruct (read_stop _ _ _ Hread) as (msg & ->). exists msg. reflexivity.
    + pose proof (read_shrinks _ _ _ _ Hread) as Hshr.
      destruct (read_sound _ _ _ _ Hread) as (e & He & Heq).
      destruct (IH rest (found + 1) (apply h r) ltac:(lia))
        as (good & rs & bad & -> & Hgood & Hbad & Hrun).
      exists (e ++ good), (r :: rs), bad.
      repeat split.
      * rewrite Heq, app_assoc. reflexivity.
      * constructor; assumption.
      * exact Hbad.
      * replace (found + Z.of_nat (length (r :: rs)))
          with (found + 1 + Z.of_nat (length rs)) by (simpl length; lia).
        exact Hrun.
Qed.

Lemma rounds_total (fuel : nat) (input : bytes) (found : Z) (h : H) :
  (length input <= fuel)%nat ->
  exists exit h', rounds read apply fuel input found h = Some (exit, h').
Proof.
  intros Hfuel.
  destruct (rounds_decompose fuel input found h Hfuel)
    as (good & rs & bad & _ & _ & _ & [[_ Hrun] | [_ [msg Hrun]]]);
    rewrite Hrun; eauto.
Qed.

(** The records a run dispatched are the only ones it could have: the
    split of the input is unique. *)
Lemma rounds_unique (good : bytes) (rs : list R) (bad : bytes) :
  Frames enc good rs -> NoRecordAt enc bad ->
  forall fuel found h exit h',
    (length (good ++ bad) <= fuel)%nat ->
    rounds read apply fuel (good ++ bad) found h = Some (exit, h') ->
    h' = fold_left apply rs h
    /\ (bad = [] -> exit = Exhausted (found + Z.of_nat (length rs)))
    /\ (bad <> [] -> exists msg, exit = Returned (Corruption msg)).
Proof.
  intros Hgood Hbad fuel found h exit h' Hfuel Hrun.
  rewrite (rounds_frames good rs Hgood) in Hrun by exact Hfuel.
  destruct bad as [|tag input].
  - destruct fuel; simpl in Hrun; injection Hrun as <- <-;
      repeat split; congruence.
  - rewrite length_app in Hfuel. simpl in Hfuel.
    destruct fuel as [|fuel]; [lia|]. simpl in Hrun.
    destruct (read tag input) as [s|r rest] eqn:Hread.
    + injection Hrun as <- <-. destruct (read_stop _ _ _ Hread) as (msg & ->).
      repeat split; [congruence | intros _; exists msg; reflexivity].
    + exfalso. destruct (read_sound _ _ _ _ Hread) as (e & He & Heq).
      exact (Hbad e r rest He Heq).
Qed.

End RoundsFacts.

(** The way the shared loop ends does not depend on the handler. *)
Lemma rounds_exit_indep (R H1 H2 : Type) (read : byte -> bytes -> Round R)
    (apply1 : H1 -> R -> H1) (apply2 : H2 -> R -> H2) (fuel : nat) :
  forall input found h1 h2,
    option_map fst (rounds read apply1 fuel input found h1) =
    option_map fst (rounds read apply2 fuel input found h2).
Proof.
  induction fuel as [|fuel IH]; intros [|tag input] found h1 h2; simpl;
    try reflexivity.
  destruct (read tag input); [reflexivity | apply IH].
Qed.

(** ** Header fields *)

Lemma lor_le_add (a b : Z) : 0 <= a -> 0 <= b -> 0 <= Z.lor a b <= a + b.
Proof.
  intros Ha Hb. pose proof (Z.add_lor_land a b) as Hsum.
  assert (0 <= Z.land a b) by (apply Z.land_nonneg; lia).
  assert (0 <= Z.lor a b) by (apply Z.lor_nonneg; lia). lia.
Qed.

Lemma DecodeFixed64_range (p : bytes) : 0 <= DecodeFixed64 p < 2 ^ 64.
Proof.
  unfold DecodeFixed64, at_.
  repeat match goal with
         | |- context [byte_to_Z ?b] =>
             let x := fresh "x" in
             pose proof (byte_to_Z_range b); set (x := byte_to_Z b) in *;
             clearbody x
         end.
  rewrite !Z.shiftl_mul_pow2 by lia.
  repeat match goal with
         | |- context [Z.lor ?a ?b] =>
             lazymatch b with
             | context [Z.lor _ _] => fail
             | _ =>
                 let y := fresh "y" in
                 pose proof (lor_le_add a b ltac:(lia) ltac:(lia));
                 set (y := Z.lor a b) in *; clearbody y
             end
         end.
  lia.
Qed.

Lemma to_int_range (z : Z) : - 2 ^ 31 <= to_int z < 2 ^ 31.
Proof.
  unfold to_int. pose proof (Z.mod_pos_bound z (2 ^ 32) ltac:(lia)).
  cbv zeta. destruct (Z.ltb_spec (z mod 2 ^ 32) (2 ^ 31)); lia.
Qed.

Lemma to_uint64_succ (z : Z) :
  to_uint64 (to_uint64 z + 1) = to_uint64 (z + 1).
Proof. unfold to_uint64. apply Zplus_mod_idemp_l. Qed.

(** ** [WriteBatch::Iterate] *)

Section IterateFacts.

Context {H : Type} (handler : Handler H).

Lemma WriteBatch_Iterate_short (rep_ : WriteBatch) (h : H) :
  (length rep_ < kHeader)%nat ->
  WriteBatch_Iterate handler rep_ h =
  Some (Corruption "malformed WriteBatch (too small)", h).
Proof.
  intros Hlen. unfold WriteBatch_Iterate.
  destruct (Nat.ltb_spec (length rep_) kHeader); [reflexivity | lia].
Qed.

(** What a run over a buffer with a header does, in terms of the split of
    its payload. *)
Lemma WriteBatch_Iterate_run (rep_ : WriteBatch) (h : H) :
  (kHeader <= length rep_)%nat ->
  exists good recs bad,
    skipn kHeader rep_ = good ++ bad
    /\ Frames EncodesRecord good recs
    /\ NoRecordAt EncodesRecord bad
    /\ ((bad = []
         /\ WriteBatch_Iterate handler rep_ h =
            Some (if Z.of_nat (length recs) =? WriteBatchInternal_Count rep_
                  then OK
                  else Corruption "WriteBatch has wrong count",
                  fold_left (dispatch handler) recs h))
        \/ (bad <> []
            /\ exists msg,
              WriteBatch_Iterate handler rep_ h =
              Some (Corruption msg, fold_left (dispatch handler) recs h))).
Proof.
  intros Hlen. unfold WriteBatch_Iterate.
  destruct (Nat.ltb_spec (length rep_) kHeader); [lia|].
  rewrite WriteBatch_IterateLoop_rounds.
  destruct (rounds_decompose ReadRecord (dispatch handler) EncodesRecord
              EncodesRecord_nonempty ReadRecord_sound
              (fun e r rest => ReadRecord_complete e r rest) ReadRecord_stop
              (length (skipn kHeader rep_)) (skipn kHeader rep_) 0 h
              (Nat.le_refl _))
    as (good & recs & bad & Hsplit & Hgood & Hbad & Hrun).
  exists good, recs, bad. repeat split; try assumption.
  destruct Hrun as [[Hnil Hrun] | [Hne [msg Hrun]]]; rewrite Hrun.
  - left. split; [exact Hnil|]. simpl Z.add.
    destruct (Z.of_nat (length recs) =? WriteBatchInternal_Count rep_);
      reflexivity.
  - right. split; [exact Hne|]. exists msg. reflexivity.
Qed.

Lemma WriteBatch_Iterate_total (rep_ : WriteBatch) (h : H) :
  exists st h', WriteBatch_Iterate handler rep_ h = Some (st, h').
Proof.
  destruct (Nat.lt_ge_cases (length rep_) kHeader) as [Hshort|Hlen].
  - rewrite WriteBatch_Iterate_short by exact Hshort. eauto.
  - destruct (WriteBatch_Iterate_run rep_ h Hlen)
      as (good & recs & bad & _ & _ & _ & [[_ Hrun] | [_ [msg Hrun]]]);
      rewrite Hrun; eauto.
Qed.

(** Whatever split of the payload one looks at, the run dispatched exactly
    its records, and ended by the split's kind. *)
Lemma WriteBatch_Iterate_split (rep_ : WriteBatch) (h : H)
    (good : bytes) (recs : list BatchRecord) (bad : bytes) :
  (kHeader <= length rep_)%nat ->
  skipn kHeader rep_ = good ++ bad ->
  Frames EncodesRecord good recs -> NoRecordAt EncodesRecord bad ->
  exists st,
    WriteBatch_Iterate handler rep_ h =
    Some (st, fold_left (dispatch handler) recs h)
    /\ (st = OK <->
        bad = [] /\ Z.of_nat (length recs) = WriteBatchInternal_Count rep_).
Proof.
  intros Hlen Hsplit Hgood Hbad.
  destruct (rounds_total ReadRecord (dispatch handler) EncodesRecord
              EncodesRecord_nonempty ReadRecord_sound
              (fun e r rest => ReadRecord_complete e r rest) ReadRecord_stop
              (length (skipn kHeader rep_)) (skipn kHeader rep_) 0 h
              (Nat.le_refl _)) as (exit & h' & Hrun).
  pose proof Hrun as Hrun'. rewrite Hsplit in Hrun' at 2.
  apply (rounds_unique ReadRecord (dispatch handler) EncodesRecord
           EncodesRecord_nonempty ReadRecord_sound
           (fun e r rest => ReadRecord_complete e r rest) ReadRecord_stop
           good recs bad Hgood Hbad) in Hrun';
    [|rewrite <- Hsplit; apply Nat.le_refl].
  destruct Hrun' as (-> & Hend & Hstop).
  unfold WriteBatch_Iterate.
  destruct (Nat.ltb_spec (length rep_) kHeader); [lia|].
  rewrite WriteBatch_IterateLoop_rounds, Hrun.
  destruct bad as [|b bad].
  - rewrite (Hend eq_refl). simpl Z.add.
    destruct (Z.eqb_spec (Z.of_nat (length recs))
                (WriteBatchInternal_Count rep_)) as [Hc|Hc]; simpl.
    + exists OK. split; [reflexivity|]. split; auto.
    + eexists. split; [reflexivity|]. split; [discriminate|].
      intros [_ Hc']. contradiction.
  - destruct (Hstop ltac:(discriminate)) as (msg & ->).
    eexists. split; [reflexivity|]. split; [discriminate|].
    intros [Hnil _]. discriminate.
Qed.

Lemma WriteBatch_Iterate_WellFormed (rep_ : WriteBatch) (h : H)
    (recs : list BatchRecord) :
  WellFormed rep_ recs ->
  WriteBatch_Iterate handler rep_ h =
  Some (OK, fold_left (dispatch handler) recs h).
Proof.
  intros (Hlen & Hframes & Hcount).
  destruct (WriteBatch_Iterate_split rep_ h (skipn kHeader rep_) recs []
              Hlen (eq_sym (app_nil_r _)) Hframes
              (NoRecordAt_nil EncodesRecord EncodesRecord_nonempty))
    as (st & Hrun & Hst).
  rewrite Hrun. replace st with OK; [reflexivity|].
  symmetry. apply Hst. split; [reflexivity | exact Hcount].
Qed.

Lemma WriteBatch_Iterate_OK_iff (rep_ : WriteBatch) (h : H) :
  (exists h', WriteBatch_Iterate handler rep_ h = Some (OK, h')) <->
  (exists recs, WellFormed rep_ recs).
Proof.
  split.
  - intros (h' & Hrun).
    destruct (Nat.lt_ge_cases (length rep_) kHeader) as [Hshort|Hlen].
    { rewrite WriteBatch_Iterate_short in Hrun by exact Hshort. discriminate. }
    destruct (WriteBatch_Iterate_run rep_ h Hlen)
      as (good & recs & bad & Hsplit & Hgood & _
          & [[-> Hrun'] | [_ [msg Hrun']]]);
      rewrite Hrun' in Hrun; [|discriminate].
    exists recs. rewrite app_nil_r in Hsplit. rewrite <- Hsplit in Hgood.
    repeat split; try assumption.
    destruct (Z.eqb_spec (Z.of_nat (length recs))
                (WriteBatchInternal_Count rep_)); [assumption|discriminate].
  - intros (recs & Hwf). eexists.
    apply WriteBatch_Iterate_WellFormed. exact Hwf.
Qed.

End IterateFacts.

Lemma WriteBatch_Iterate_status_indep (H1 H2 : Type)
    (handler1 : Handler H1) (handler2 : Handler H2)
    (rep_ : WriteBatch) (h1 : H1) (h2 : H2) :
  option_map fst (WriteBatch_Iterate handler1 rep_ h1) =
  option_map fst (WriteBatch_Iterate handler2 rep_ h2).
Proof.
  unfold WriteBatch_Iterate.
  destruct (length rep_ <? kHeader)%nat; [reflexivity|].
  rewrite !WriteBatch_IterateLoop_rounds.
  pose proof (rounds_exit_indep _ _ _ ReadRecord (dispatch handler1)
                (dispatch handler2) (length (skipn kHeader rep_))
                (skipn kHeader rep_) 0 h1 h2) as Hexit.
  destruct (rounds ReadRecord (dispatch handler1) _ _ _ _) as [[e1 s1]|];
    destruct (rounds ReadRecord (dispatch handler2) _ _ _ _) as [[e2 s2]|];
    simpl in Hexit; try discriminate; [|reflexivity].
  injection Hexit as ->. destruct e2 as [s|found]; [reflexivity|].
  destruct (negb (found =? WriteBatchInternal_Count rep_)); reflexivity.
Qed.

Lemma WriteBatchInternal_InsertInto_status (M H : Type) (mt : MemTable M)
    (handler : Handler H) (b : WriteBatch) (memtable : M) (h : H) :
  option_map fst (WriteBatchInternal_InsertInto mt b memtable) =
  option_map fst (WriteBatch_Iterate handler b h).
Proof.
  unfold WriteBatchInternal_InsertInto.
  rewrite <- (WriteBatch_Iterate_status_indep _ _ (MemTableInserter mt) handler
                b (WriteBatchInternal_Sequence b, memtable) h).
  destruct (WriteBatch_Iterate (MemTableInserter mt) b _) as [[st hm]|];
    reflexivity.
Qed.

(** ** [WriteBatchMV::Iterate] *)

Section IterateMVFacts.

Context {H : Type} (handler : HandlerMV H).

Lemma WriteBatchMV_Iterate_short (rep_ : WriteBatchMV) (h : H) :
  (length rep_ < kHeader)%nat ->
  WriteBatchMV_Iterate handler rep_ h =
  Some (Corruption "malformed WriteBatchMV (too small)", h).
Proof.
  intros Hlen. unfold WriteBatchMV_Iterate.
  destruct (Nat.ltb_spec (length rep_) kHeader); [reflexivity | lia].
Qed.

(** What a run over a buffer with a header does, in terms of the split of
    its payload. *)
Lemma WriteBatchMV_Iterate_run (rep_ : WriteBatchMV) (h : H) :
  (kHeader <= length rep_)%nat ->
  exists good recs bad,
    skipn kHeader rep_ = good ++ bad
    /\ Frames EncodesRecordMV good recs
    /\ NoRecordAt EncodesRecordMV bad
    /\ ((bad = []
         /\ WriteBatchMV_Iterate handler rep_ h =
            Some (if Z.of_nat (length recs) =? WriteBatchMVInternal_Count rep_
                  then OK
                  else Corruption "WriteBatchMV has wrong count",
                  fold_left (dispatchMV handler) recs h))
        \/ (bad <> []
            /\ exists msg,
              WriteBatchMV_Iterate handler rep_ h =
              Some (Corruption msg, fold_left (dispatchMV handler) recs h))).
Proof.
  intros Hlen. unfold WriteBatchMV_Iterate.
  destruct (Nat.ltb_spec (length rep_) kHeader); [lia|].
  rewrite WriteBatchMV_IterateLoop_rounds.
  destruct (rounds_decompose ReadRecordMV (dispatchMV handler) EncodesRecordMV
              EncodesRecordMV_nonempty ReadRecordMV_sound
              (fun e r rest => ReadRecordMV_complete e r rest) ReadRecordMV_stop
              (length (skipn kHeader rep_)) (skipn kHeader rep_) 0 h
              (Nat.le_refl _))
    as (good & recs & bad & Hsplit & Hgood & Hbad & Hrun).
  exists good, recs, bad. repeat split; try assumption.
  destruct Hrun as [[Hnil Hrun] | [Hne [msg Hrun]]]; rewrite Hrun.
  - left. split; [exact Hnil|]. simpl Z.add.
    destruct (Z.of_nat (length recs) =? WriteBatchMVInternal_Count rep_);
      reflexivity.
  - right. split; [exact Hne|]. exists msg. reflexivity.
Qed.

Lemma WriteBatchMV_Iterate_total (rep_ : WriteBatchMV) (h : H) :
  exists st h', WriteBatchMV_Iterate handler rep_ h = Some (st, h').
Proof.
  destruct (Nat.lt_ge_cases (length rep_) kHeader) as [Hshort|Hlen].
  - rewrite WriteBatchMV_Iterate_short by exact Hshort. eauto.
  - destruct (WriteBatchMV_Iterate_run rep_ h Hlen)
      as (good & recs & bad & _ & _ & _ & [[_ Hrun] | [_ [msg Hrun]]]);
      rewrite Hrun; eauto.
Qed.

(** Whatever split of the payload one looks at, the run dispatched exactly
    its records, and ended by the split's kind. *)
Lemma WriteBatchMV_Iterate_split (rep_ : WriteBatchMV) (h : H)
    (good : bytes) (recs : list BatchRecordMV) (bad : bytes) :
  (kHeader <= length rep_)%nat ->
  skipn kHeader rep_ = good ++ bad ->
  Frames EncodesRecordMV good recs -> NoRecordAt EncodesRecordMV bad ->
  exists st,
    WriteBatchMV_Iterate handler rep_ h =
    Some (st, fold_left (dispatchMV handler) recs h)
    /\ (st = OK <->
        bad = [] /\ Z.of_nat (length recs) = WriteBatchMVInternal_Count rep_).
Proof.
  intros Hlen Hsplit Hgood Hbad.
  destruct (rounds_total ReadRecordMV (dispatchMV handler) EncodesRecordMV
              EncodesRecordMV_nonempty ReadRecordMV_sound
              (fun e r rest => ReadRecordMV_complete e r rest) ReadRecordMV_stop
              (length (skipn kHeader rep_)) (skipn kHeader rep_) 0 h
              (Nat.le_refl _)) as (exit & h' & Hrun).
  pose proof Hrun as Hrun'. rewrite Hsplit in Hrun' at 2.
  apply (rounds_unique ReadRecordMV (dispatchMV handler) EncodesRecordMV
           EncodesRecordMV_nonempty ReadRecordMV_sound
           (fun e r rest => ReadRecordMV_complete e r rest) ReadRecordMV_stop
           good recs bad Hgood Hbad) in Hrun';
    [|rewrite <- Hsplit; apply Nat.le_refl].
  destruct Hrun' as (-> & Hend & Hstop).
  unfold WriteBatchMV_Iterate.
  destruct (Nat.ltb_spec (length rep_) kHeader); [lia|].
  rewrite WriteBatchMV_IterateLoop_rounds, Hrun.
  destruct bad as [|b bad].
  - rewrite (Hend eq_refl). simpl Z.add.
    destruct (Z.eqb_spec (Z.of_nat (length recs))
                (WriteBatchMVInternal_Count rep_)) as [Hc|Hc]; simpl.
    + exists OK. split; [reflexivity|]. split; auto.
    + eexists. split; [reflexivity|]. split; [discriminate|].
      intros [_ Hc']. contradiction.
  - destruct (Hstop ltac:(discriminate)) as (msg & ->).
    eexists. split; [reflexivity|]. split; [discriminate|].
    intros [Hnil _]. discriminate.
Qed.

Lemma WriteBatchMV_Iterate_WellFormed (rep_ : WriteBatchMV) (h : H)
    (recs : list BatchRecordMV) :
  WellFormedMV rep_ recs ->
  WriteBatchMV_Iterate handler rep_ h =
  Some (OK, fold_left (dispatchMV handler) recs h).
Proof.
  intros (Hlen & Hframes & Hcount).
  destruct (WriteBatchMV_Iterate_split rep_ h (skipn kHeader rep_) recs []
              Hlen (eq_sym (app_nil_r _)) Hframes
              (NoRecordAt_nil EncodesRecordMV EncodesRecordMV_nonempty))
    as (st & Hrun & Hst).
  rewrite Hrun. replace st with OK; [reflexivity|].
  symmetry. apply Hst. split; [reflexivity | exact Hcount].
Qed.

Lemma WriteBatchMV_Iterate_OK_iff (rep_ : WriteBatchMV) (h : H) :
  (exists h', WriteBatchMV_Iterate handler rep_ h = Some (OK, h')) <->
  (exists recs, WellFormedMV rep_ recs).
Proof.
  split.
  - intros (h' & Hrun).
    destruct (Nat.lt_ge_cases (length rep_) kHeader) as [Hshort|Hlen].
    { rewrite WriteBatchMV_Iterate_short in Hrun by exact Hshort.
      discriminate. }
    destruct (WriteBatchMV_Iterate_run rep_ h Hlen)
      as (good & recs & bad & Hsplit & Hgood & _
          & [[-> Hrun'] | [_ [msg Hrun']]]);
      rewrite Hrun' in Hrun; [|discriminate].
    exists recs. rewrite app_nil_r in Hsplit. rewrite <- Hsplit in Hgood.
    repeat split; try assumption.
    destruct (Z.eqb_spec (Z.of_nat (length recs))
                (WriteBatchMVInternal_Count rep_)); [assumption|discriminate].
  - intros (recs & Hwf). eexists.
    apply WriteBatchMV_Iterate_WellFormed. exact Hwf.
Qed.

End IterateMVFacts.

Lemma WriteBatchMV_Iterate_status_indep (H1 H2 : Type)
    (handler1 : HandlerMV H1) (handler2 : HandlerMV H2)
    (rep_ : WriteBatchMV) (h1 : H1) (h2 : H2) :
  option_map fst (WriteBatchMV_Iterate handler1 rep_ h1) =
  option_map fst (WriteBatchMV_Iterate handler2 rep_ h2).
Proof.
  unfold WriteBatchMV_Iterate.
  destruct (length rep_ <? kHeader)%nat; [reflexivity|].
  rewrite !WriteBatchMV_IterateLoop_rounds.
  pose proof (rounds_exit_indep _ _ _ ReadRecordMV (dispatchMV handler1)
                (dispatchMV handler2) (length (skipn kHeader rep_))
                (skipn kHeader rep_) 0 h1 h2) as Hexit.
  destruct (rounds ReadRecordMV (dispatchMV handler1) _ _ _ _) as [[e1 s1]|];
    destruct (rounds ReadRecordMV (dispatchMV handler2) _ _ _ _) as [[e2 s2]|];
    simpl in Hexit; try discriminate; [|reflexivity].
  injection Hexit as ->. destruct e2 as [s|found]; [reflexivity|].
  destruct (negb (found =? WriteBatchMVInternal_Count rep_)); reflexivity.
Qed.

Lemma WriteBatchMVInternal_InsertInto_status (M H : Type) (mt : MemTable M)
    (handler : HandlerMV H) (b : WriteBatchMV) (memtable : M) (h : H) :
  option_map fst (WriteBatchMVInternal_InsertInto mt b memtable) =
  option_map fst (WriteBatchMV_Iterate handler b h).
Proof.
  unfold WriteBatchMVInternal_InsertInto.
  rewrite <- (WriteBatchMV_Iterate_status_indep _ _ (MemTableMVInsertor mt)
                handler
                b (WriteBatchMVInternal_Sequence b, memtable) h).
  destruct (WriteBatchMV_Iterate (MemTableMVInsertor mt) b _) as [[st hm]|];
    reflexivity.
Qed.

(** ** Replay into the memtable *)

Section ReplayFacts.

Context {M : Type} (mt : MemTable M).

Lemma MemTableInserter_replay (recs : list BatchRecord) :
  forall seq mem,
    snd (fold_left (dispatch (MemTableInserter mt)) recs (seq, mem)) =
    fold_left (perform mt) (add_calls seq recs) mem.
Proof.
  induction recs as [|r recs IH]; intros seq mem; [reflexivity|].
  destruct r; simpl; apply IH.
Qed.

Lemma add_calls_length (recs : list BatchRecord) :
  forall seq, length (add_calls seq recs) = length recs.
Proof.
  induction recs as [|r recs IH]; intros seq; simpl; [reflexivity|].
  rewrite IH. reflexivity.
Qed.

Lemma add_calls_nth (recs : list BatchRecord) :
  forall seq i r,
    0 <= seq < 2 ^ 64 ->
    nth_error recs i = Some r ->
    nth_error (add_calls seq recs) i =
    Some (add_call (to_uint64 (seq + Z.of_nat i)) r).
Proof.
  induction recs as [|r0 recs IH]; intros seq i r Hseq Hnth.
  - destruct i; discriminate.
  - destruct i as [|i]; simpl in *.
    + injection Hnth as ->. unfold to_uint64.
      rewrite Z.add_0_r, Z.mod_small by lia. reflexivity.
    + rewrite (IH (to_uint64 (seq + 1)) i r); [|unfold to_uint64;
        apply Z.mod_pos_bound; lia | exact Hnth].
      do 2 f_equal. unfold to_uint64.
      rewrite Zplus_mod_idemp_l. f_equal. lia.
Qed.

Lemma WriteBatchInternal_InsertInto_WellFormed (rep_ : WriteBatch)
    (recs : list BatchRecord) (mem : M) :
  WellFormed rep_ recs ->
  WriteBatchInternal_InsertInto mt rep_ mem =
  Some (OK,
        fold_left (perform mt)
          (add_calls (WriteBatchInternal_Sequence rep_) recs) mem).
Proof.
  intros Hwf. unfold WriteBatchInternal_InsertInto.
  rewrite (WriteBatch_Iterate_WellFormed _ _ _ recs Hwf).
  cbn [fst snd]. rewrite MemTableInserter_replay. reflexivity.
Qed.

End ReplayFacts.

(** The recording handler keeps what it is sent, so it reads a well-formed
    batch back as its records. *)
Lemma Recorder_replay (recs : list BatchRecord) :
  forall h, fold_left (dispatch Recorder) recs h = h ++ recs.
Proof.
  induction recs as [|r recs IH]; intros h; simpl.
  - symmetry. apply app_nil_r.
  - rewrite IH. destruct r; simpl; rewrite <- app_assoc; reflexivity.
Qed.

Lemma Recorder_WellFormed (rep_ : WriteBatch) (recs : list BatchRecord) :
  WriteBatch_Iterate Recorder rep_ [] = Some (OK, recs) <->
  WellFormed rep_ recs.
Proof.
  split.
  - intros Hrun.
    destruct (proj1 (WriteBatch_Iterate_OK_iff Recorder rep_ [])
                (ex_intro _ recs Hrun)) as (recs' & Hwf).
    rewrite (WriteBatch_Iterate_WellFormed Recorder rep_ [] recs' Hwf) in Hrun.
    rewrite Recorder_replay in Hrun. injection Hrun as <-. exact Hwf.
  - intros Hwf.
    rewrite (WriteBatch_Iterate_WellFormed Recorder rep_ [] recs Hwf).
    rewrite Recorder_replay. reflexivity.
Qed.

(** *** Multi-version replay *)

Section ReplayMVFacts.

Context {M : Type} (mt : MemTable M).

Lemma MemTableMVInsertor_replay (recs : list BatchRecordMV) :
  forall seq mem,
    snd (fold_left (dispatchMV (MemTableMVInsertor mt)) recs (seq, mem)) =
    fold_left (perform mt) (add_callsMV seq recs) mem.
Proof.
  induction recs as [|r recs IH]; intros seq mem; [reflexivity|].
  destruct r; simpl; apply IH.
Qed.

Lemma add_callsMV_length (recs : list BatchRecordMV) :
  forall seq, length (add_callsMV seq recs) = length recs.
Proof.
  induction recs as [|r recs IH]; intros seq; simpl; [reflexivity|].
  rewrite IH. reflexivity.
Qed.

Lemma add_callsMV_nth (recs : list BatchRecordMV) :
  forall seq i r,
    0 <= seq < 2 ^ 64 ->
    nth_error recs i = Some r ->
    nth_error (add_callsMV seq recs) i =
    Some (add_callMV (to_uint64 (seq + Z.of_nat i)) r).
Proof.
  induction recs as [|r0 recs IH]; intros seq i r Hseq Hnth.
  - destruct i; discriminate.
  - destruct i as [|i]; simpl in *.
    + injection Hnth as ->. unfold to_uint64.
      rewrite Z.add_0_r, Z.mod_small by lia. reflexivity.
    + rewrite (IH (to_uint64 (seq + 1)) i r); [|unfold to_uint64;
        apply Z.mod_pos_bound; lia | exact Hnth].
      do 2 f_equal. unfold to_uint64.
      rewrite Zplus_mod_idemp_l. f_equal. lia.
Qed.

Lemma WriteBatchMVInternal_InsertInto_WellFormed (rep_ : WriteBatchMV)
    (recs : list BatchRecordMV) (mem : M) :
  WellFormedMV rep_ recs ->
  WriteBatchMVInternal_InsertInto mt rep_ mem =
  Some (OK,
        fold_left (perform mt)
          (add_callsMV (WriteBatchMVInternal_Sequence rep_) recs) mem).
Proof.
  intros Hwf. unfold WriteBatchMVInternal_InsertInto.
  rewrite (WriteBatchMV_Iterate_WellFormed _ _ _ recs Hwf).
  cbn [fst snd]. rewrite MemTableMVInsertor_replay. reflexivity.
Qed.

End ReplayMVFacts.

(** The recording handler keeps what it is sent, so it reads a well-formed
    batch back as its records. *)
Lemma RecorderMV_replay (recs : list BatchRecordMV) :
  forall h, fold_left (dispatchMV RecorderMV) recs h = h ++ recs.
Proof.
  induction recs as [|r recs IH]; intros h; simpl.
  - symmetry. apply app_nil_r.
  - rewrite IH. destruct r; simpl; rewrite <- app_assoc; reflexivity.
Qed.

Lemma RecorderMV_WellFormed (rep_ : WriteBatchMV) (recs : list BatchRecordMV) :
  WriteBatchMV_Iterate RecorderMV rep_ [] = Some (OK, recs) <->
  WellFormedMV rep_ recs.
Proof.
  split.
  - intros Hrun.
    destruct (proj1 (WriteBatchMV_Iterate_OK_iff RecorderMV rep_ [])
                (ex_intro _ recs Hrun)) as (recs' & Hwf).
    rewrite (WriteBatchMV_Iterate_WellFormed RecorderMV rep_ [] recs' Hwf)
      in Hrun.
    rewrite RecorderMV_replay in Hrun. injection Hrun as <-. exact Hwf.
  - intros Hwf.
    rewrite (WriteBatchMV_Iterate_WellFormed RecorderMV rep_ [] recs Hwf).
    rewrite RecorderMV_replay. reflexivity.
Qed.

(** ** Framing, replay and failure of write batches *)

(** C2. [Iterate] of either batch kind always returns, and it returns [OK]
    exactly when the buffer holds the 12-byte header, the bytes after it
    are a sequence of records of the grammar (a recognised tag, then the
    length-prefixed key, in MV the fixed64 valid time, and for
    [kTypeValue] the length-prefixed value, none running past the end), and
    the number of records is the header count; otherwise it returns a
    [Corruption].  The only other function with a [Status], [InsertInto],
    returns the status of [Iterate]. *)
Theorem iterate_ok_iff_well_formed :
  (forall (H : Type) (handler : Handler H) (rep_ : WriteBatch) (h : H),
     (exists st h',
        WriteBatch_Iterate handler rep_ h = Some (st, h')
        /\ (st = OK <-> exists recs, WellFormed rep_ recs)
        /\ (st <> OK -> exists msg, st = Corruption msg))
     /\ (forall (M : Type) (mt : MemTable M) (mem : M),
          option_map fst (WriteBatchInternal_InsertInto mt rep_ mem) =
          option_map fst (WriteBatch_Iterate handler rep_ h)))
  /\ (forall (H : Type) (handler : HandlerMV H) (rep_ : WriteBatchMV) (h : H),
     (exists st h',
        WriteBatchMV_Iterate handler rep_ h = Some (st, h')
        /\ (st = OK <-> exists recs, WellFormedMV rep_ recs)
        /\ (st <> OK -> exists msg, st = Corruption msg))
     /\ (forall (M : Type) (mt : MemTable M) (mem : M),
          option_map fst (WriteBatchMVInternal_InsertInto mt rep_ mem) =
          option_map fst (WriteBatchMV_Iterate handler rep_ h))).
Proof.
  split; intros H handler rep_ h; split.
  - destruct (WriteBatch_Iterate_total handler rep_ h) as (st & h' & Hrun).
    exists st, h'. split; [exact Hrun|]. split.
    + rewrite <- (WriteBatch_Iterate_OK_iff handler rep_ h). split.
      * intros ->. exists h'. exact Hrun.
      * intros (h'' & Hrun'). congruence.
    + destruct st as [|msg]; [congruence | intros _; exists msg; reflexivity].
  - intros M mt mem. apply WriteBatchInternal_InsertInto_status.
  - destruct (WriteBatchMV_Iterate_total handler rep_ h) as (st & h' & Hrun).
    exists st, h'. split; [exact Hrun|]. split.
    + rewrite <- (WriteBatchMV_Iterate_OK_iff handler rep_ h). split.
      * intros ->. exists h'. exact Hrun.
      * intros (h'' & Hrun'). congruence.
    + destruct st as [|msg]; [congruence | intros _; exists msg; reflexivity].
  - intros M mt mem. apply WriteBatchMVInternal_InsertInto_status.
Qed.

Lemma mixed_batch_WellFormed : WellFormed mixed_batch mixed_records.
Proof. apply Recorder_WellFormed. vm_compute. reflexivity. Qed.

Lemma mixed_batchMV_WellFormed : WellFormedMV mixed_batchMV mixed_recordsMV.
Proof. apply RecorderMV_WellFormed. vm_compute. reflexivity. Qed.

(** C3. For a well-formed batch holding the records [recs], with header
    sequence [seq] and header count [n], [InsertInto] returns [OK] after
    exactly [n] calls of [Add] ([AddMV] for an MV batch), one per record and
    in their order; call [i] carries the [uint64_t] value of [seq + i],
    which is [seq + i] itself when [seq <= kMaxSequenceNumber], the tag
    [kTypeValue] with the key and value of a Put record, and [kTypeDeletion]
    with the key and the empty value of a Delete record. *)
Theorem replay_ordering :
  (forall (M : Type) (mt : MemTable M) (rep_ : WriteBatch)
          (recs : list BatchRecord) (mem : M),
     WellFormed rep_ recs ->
     let seq := WriteBatchInternal_Sequence rep_ in
     exists calls,
       WriteBatchInternal_InsertInto mt rep_ mem =
       Some (OK, fold_left (perform mt) calls mem)
       /\ Z.of_nat (length calls) = WriteBatchInternal_Count rep_
       /\ forall i r,
            nth_error recs i = Some r ->
            nth_error calls i =
            Some (add_call (to_uint64 (seq + Z.of_nat i)) r)
            /\ (seq <= kMaxSequenceNumber ->
                to_uint64 (seq + Z.of_nat i) = seq + Z.of_nat i))
  /\ (forall (M : Type) (mt : MemTable M) (rep_ : WriteBatchMV)
          (recs : list BatchRecordMV) (mem : M),
     WellFormedMV rep_ recs ->
     let seq := WriteBatchMVInternal_Sequence rep_ in
     exists calls,
       WriteBatchMVInternal_InsertInto mt rep_ mem =
       Some (OK, fold_left (perform mt) calls mem)
       /\ Z.of_nat (length calls) = WriteBatchMVInternal_Count rep_
       /\ forall i r,
            nth_error recs i = Some r ->
            nth_error calls i =
            Some (add_callMV (to_uint64 (seq + Z.of_nat i)) r)
            /\ (seq <= kMaxSequenceNumber ->
                to_uint64 (seq + Z.of_nat i) = seq + Z.of_nat i)).
Proof.
  split; intros M mt rep_ recs mem Hwf seq.
  - exists (add_calls seq recs).
    pose proof (DecodeFixed64_range rep_) as Hseq. fold seq in Hseq.
    change (DecodeFixed64 rep_) with seq in Hseq.
    destruct Hwf as (Hlen & Hframes & Hcount).
    split; [apply WriteBatchInternal_InsertInto_WellFormed;
            repeat split; assumption|].
    split; [rewrite add_calls_length; exact Hcount|].
    intros i r Hnth. split; [apply add_calls_nth; assumption|].
    intros Hmax. unfold to_uint64. apply Z.mod_small.
    assert (i < length recs)%nat by (apply nth_error_Some; congruence).
    pose proof (to_int_range (DecodeFixed32 (skipn 8 rep_))) as Hcnt.
    fold (WriteBatchInternal_Count rep_) in Hcnt.
    unfold kMaxSequenceNumber in Hmax. rewrite Z.shiftl_1_l in Hmax. lia.
  - exists (add_callsMV seq recs).
    pose proof (DecodeFixed64_range rep_) as Hseq.
    change (DecodeFixed64 rep_) with seq in Hseq.
    destruct Hwf as (Hlen & Hframes & Hcount).
    split; [apply WriteBatchMVInternal_InsertInto_WellFormed;
            repeat split; assumption|].
    split; [rewrite add_callsMV_length; exact Hcount|].
    intros i r Hnth. split; [apply add_callsMV_nth; assumption|].
    intros Hmax. unfold to_uint64. apply Z.mod_small.
    assert (i < length recs)%nat by (apply nth_error_Some; congruence).
    pose proof (to_int_range (DecodeFixed32 (skipn 8 rep_))) as Hcnt.
    fold (WriteBatchMVInternal_Count rep_) in Hcnt.
    unfold kMaxSequenceNumber in Hmax. rewrite Z.shiftl_1_l in Hmax. lia.
Qed.

Lemma replay_ordering_witness :
  let seq := WriteBatchInternal_Sequence mixed_batch in
  exists calls,
    WriteBatchInternal_InsertInto CallLog mixed_batch [] =
    Some (OK, fold_left (perform CallLog) calls [])
    /\ Z.of_nat (length calls) = WriteBatchInternal_Count mixed_batch
    /\ forall i r,
         nth_error mixed_records i = Some r ->
         nth_error calls i =
         Some (add_call (to_uint64 (seq + Z.of_nat i)) r)
         /\ (seq <= kMaxSequenceNumber ->
             to_uint64 (seq + Z.of_nat i) = seq + Z.of_nat i).
Proof.
  apply (proj1 replay_ordering (list AddCall) CallLog mixed_batch
           mixed_records []).
  exact mixed_batch_WellFormed.
Defined.

Lemma iterate_ok_iff_well_formed_witness :
  exists st h',
    WriteBatch_Iterate Recorder torn_batch [] = Some (st, h')
    /\ (st = OK <-> exists recs, WellFormed torn_batch recs)
    /\ (st <> OK -> exists msg, st = Corruption msg).
Proof.
  exact (proj1 (proj1 iterate_ok_iff_well_formed _ Recorder torn_batch [])).
Defined.

(** C8. When [Iterate] of either batch kind returns a [Corruption] for a
    buffer of at least 12 bytes, the bytes after the header split into a
    sequence of well-formed records and a rest at which no record starts
    (it is malformed there, or empty), and the handler has received exactly
    the calls of those records, once each and in their order: its state is
    the one they lead to from its state at the start, and that whichever
    such split is taken. *)
Theorem corruption_keeps_dispatched_records :
  (forall (H : Type) (handler : Handler H) (rep_ : WriteBatch) (h : H)
          (msg : string) (h' : H),
     (kHeader <= length rep_)%nat ->
     WriteBatch_Iterate handler rep_ h = Some (Corruption msg, h') ->
     (exists good recs bad,
        skipn kHeader rep_ = good ++ bad
        /\ Frames EncodesRecord good recs
        /\ NoRecordAt EncodesRecord bad
        /\ h' = fold_left (dispatch handler) recs h)
     /\ (forall good recs bad,
           skipn kHeader rep_ = good ++ bad ->
           Frames EncodesRecord good recs ->
           NoRecordAt EncodesRecord bad ->
           h' = fold_left (dispatch handler) recs h))
  /\ (forall (H : Type) (handler : HandlerMV H) (rep_ : WriteBatchMV) (h : H)
          (msg : string) (h' : H),
     (kHeader <= length rep_)%nat ->
     WriteBatchMV_Iterate handler rep_ h = Some (Corruption msg, h') ->
     (exists good recs bad,
        skipn kHeader rep_ = good ++ bad
        /\ Frames EncodesRecordMV good recs
        /\ NoRecordAt EncodesRecordMV bad
        /\ h' = fold_left (dispatchMV handler) recs h)
     /\ (forall good recs bad,
           skipn kHeader rep_ = good ++ bad ->
           Frames EncodesRecordMV good recs ->
           NoRecordAt EncodesRecordMV bad ->
           h' = fold_left (dispatchMV handler) recs h)).
Proof.
  split; intros H handler rep_ h msg h' Hlen Hrun; split.
  - destruct (WriteBatch_Iterate_run handler rep_ h Hlen)
      as (good & recs & bad & Hsplit & Hgood & Hbad & Hend).
    exists good, recs, bad. repeat split; try assumption.
    destruct Hend as [[_ Hrun'] | [_ [msg' Hrun']]]; congruence.
  - intros good recs bad Hsplit Hgood Hbad.
    destruct (WriteBatch_Iterate_split handler rep_ h good recs bad
                Hlen Hsplit Hgood Hbad) as (st & Hrun' & _).
    congruence.
  - destruct (WriteBatchMV_Iterate_run handler rep_ h Hlen)
      as (good & recs & bad & Hsplit & Hgood & Hbad & Hend).
    exists good, recs, bad. repeat split; try assumption.
    destruct Hend as [[_ Hrun'] | [_ [msg' Hrun']]]; congruence.
  - intros good recs bad Hsplit Hgood Hbad.
    destruct (WriteBatchMV_Iterate_split handler rep_ h good recs bad
                Hlen Hsplit Hgood Hbad) as (st & Hrun' & _).
    congruence.
Qed.

Lemma corruption_keeps_dispatched_records_witness :
  (exists good recs bad,
     skipn kHeader torn_batch = good ++ bad
     /\ Frames EncodesRecord good recs
     /\ NoRecordAt EncodesRecord bad
     /\ mixed_records = fold_left (dispatch Recorder) recs [])
  /\ (exists good recs bad,
     skipn kHeader torn_batchMV = good ++ bad
     /\ Frames EncodesRecordMV good recs
     /\ NoRecordAt EncodesRecordMV bad
     /\ mixed_recordsMV = fold_left (dispatchMV RecorderMV) recs []).
Proof.
  split.
  - apply (proj1 (proj1 corruption_keeps_dispatched_records _ Recorder
                    torn_batch [] "unknown WriteBatch tag"%string
                    mixed_records
                    ltac:(vm_compute; lia) ltac:(vm_compute; reflexivity))).
  - apply (proj1 (proj2 corruption_keeps_dispatched_records _ RecorderMV
                    torn_batchMV [] "unknown WriteBatchMV tag"%string
                    mixed_recordsMV
                    ltac:(vm_compute; lia) ltac:(vm_compute; reflexivity))).
Defined.

(** C10. A batch that was just constructed or cleared, of either kind, has
    [ApproximateSize] 12, header count 0 and header sequence 0, and
    [Iterate] returns [OK] on it without calling the handler: the handler
    state is untouched, and the recording handler has recorded nothing. *)
Theorem cleared_batch_is_empty
    (old : bytes) (H : Type) (handler : Handler H) (handlerMV : HandlerMV H)
    (h : H) :
  (WriteBatch_new = WriteBatch_Clear old
   /\ WriteBatch_ApproximateSize (WriteBatch_Clear old) = 12%nat
   /\ WriteBatchInternal_Count (WriteBatch_Clear old) = 0
   /\ WriteBatchInternal_Sequence (WriteBatch_Clear old) = 0
   /\ WriteBatch_Iterate handler (WriteBatch_Clear old) h = Some (OK, h)
   /\ WriteBatch_Iterate Recorder (WriteBatch_Clear old) [] = Some (OK, []))
  /\ (WriteBatchMV_new = WriteBatchMV_Clear old
   /\ WriteBatchMV_ApproximateSize (WriteBatchMV_Clear old) = 12%nat
   /\ WriteBatchMVInternal_Count (WriteBatchMV_Clear old) = 0
   /\ WriteBatchMVInternal_Sequence (WriteBatchMV_Clear old) = 0
   /\ WriteBatchMV_Iterate handlerMV (WriteBatchMV_Clear old) h = Some (OK, h)
   /\ WriteBatchMV_Iterate RecorderMV (WriteBatchMV_Clear old) []
      = Some (OK, [])).
Proof. repeat split. Qed.

(** ** Encoders against decoders

    What the encoders of this file write is what its decoders and the
    record grammar accept: keys give their fields back, and batches built
    by [Put] and [Delete] are well formed. *)

Ltac div_lia := Z.to_euclidean_division_equations; lia.

Lemma byte_to_Z_of_Z (z : Z) : byte_to_Z (Z_to_byte z) = z mod 256.
Proof.
  rewrite <- (byte_to_Z_to_byte (z mod 256)) by (apply Z.mod_pos_bound; lia).
  unfold Z_to_byte. rewrite Z.mod_mod by lia. reflexivity.
Qed.

Lemma lor_disjoint_add (a b k : Z) :
  0 <= k -> 0 <= a < 2 ^ k -> b mod 2 ^ k = 0 -> Z.lor a b = a + b.
Proof.
  intros Hk Ha Hb.
  assert (Hsh : b = Z.shiftl (b / 2 ^ k) k).
  { rewrite Z.shiftl_mul_pow2 by lia.
    pose proof (Z.div_mod b (2 ^ k) ltac:(lia)). lia. }
  rewrite Hsh, Z.lor_comm, lor_shiftl_disjoint by lia. lia.
Qed.

(** Turn the innermost [Z.lor] of a right-nested chain of byte groups into
    a sum. *)
Ltac innermost_lor :=
  match goal with
  | |- context [Z.lor ?a ?b] =>
      lazymatch b with
      | context [Z.lor _ _] => fail
      | _ =>
          first
            [ rewrite (lor_disjoint_add a b 8) by div_lia
            | rewrite (lor_disjoint_add a b 16) by div_lia
            | rewrite (lor_disjoint_add a b 24) by div_lia
            | rewrite (lor_disjoint_add a b 32) by div_lia
            | rewrite (lor_disjoint_add a b 40) by div_lia
            | rewrite (lor_disjoint_add a b 48) by div_lia
            | rewrite (lor_disjoint_add a b 56) by div_lia ]
      end
  end.

Lemma DecodeFixed64_EncodeFixed64 (v : Z) :
  DecodeFixed64 (EncodeFixed64 v) = to_uint64 v.
Proof.
  unfold DecodeFixed64, EncodeFixed64, at_, to_uint64. cbn [nth].
  rewrite !byte_to_Z_of_Z, !Z.shiftr_div_pow2, !Z.shiftl_mul_pow2 by lia.
  change (2 ^ 8) with 256; change (2 ^ 16) with 65536;
  change (2 ^ 24) with 16777216; change (2 ^ 32) with 4294967296;
  change (2 ^ 40) with 1099511627776; change (2 ^ 48) with 281474976710656;
  change (2 ^ 56) with 72057594037927936;
  change (2 ^ 64) with 18446744073709551616.
  repeat innermost_lor.
  div_lia.
Qed.

Lemma DecodeFixed32_EncodeFixed32 (v : Z) :
  DecodeFixed32 (EncodeFixed32 v) = to_uint32 v.
Proof.
  unfold DecodeFixed32, EncodeFixed32, at_, to_uint32. cbn [nth].
  rewrite !byte_to_Z_of_Z, !Z.shiftr_div_pow2, !Z.shiftl_mul_pow2 by lia.
  change (2 ^ 8) with 256; change (2 ^ 16) with 65536;
  change (2 ^ 24) with 16777216; change (2 ^ 32) with 4294967296.
  repeat innermost_lor.
  div_lia.
Qed.

Lemma byte_land_128 (b : byte) :
  (Z.land (byte_to_Z b) 128 =? 0) = (byte_to_Z b <? 128).
Proof. destruct b; reflexivity. Qed.

Lemma byte_land_127 (b : byte) :
  Z.land (byte_to_Z b) 127 = byte_to_Z b mod 128.
Proof. destruct b; reflexivity. Qed.

Lemma byte_lor_128 (b : byte) :
  Z.lor (byte_to_Z b) 128 = byte_to_Z b mod 128 + 128.
Proof. destruct b; reflexivity. Qed.

(** A varint byte with the continuation bit: the low seven bits of [y]. *)
Lemma continuation_byte (y : Z) :
  byte_to_Z (Z_to_byte (Z.lor y 128)) = y mod 128 + 128.
Proof.
  rewrite byte_to_Z_of_Z.
  change 256 with (2 ^ 8). rewrite <- Z.land_ones by lia.
  rewrite Z.land_lor_distr_l, Z.land_ones by lia.
  change (Z.land 128 (Z.ones 8)) with 128. change (2 ^ 8) with 256.
  rewrite <- byte_to_Z_of_Z, byte_lor_128, byte_to_Z_of_Z. div_lia.
Qed.

(** Turn the innermost [Z.lor] of a left-nested chain of varint groups into
    a sum. *)
Ltac leftmost_lor :=
  match goal with
  | |- context [Z.lor ?a ?b] =>
      lazymatch a with
      | context [Z.lor _ _] => fail
      | _ =>
          first
            [ rewrite (lor_disjoint_add a b 7) by div_lia
            | rewrite (lor_disjoint_add a b 14) by div_lia
            | rewrite (lor_disjoint_add a b 21) by div_lia
            | rewrite (lor_disjoint_add a b 28) by div_lia ]
      end
  end.

(** [GetVarint32] reads back what [EncodeVarint32] wrote. *)
Lemma GetVarint32_EncodeVarint32 (v : Z) (rest : bytes) :
  GetVarint32 (EncodeVarint32 v ++ rest) = Some (to_uint32 v, rest).
Proof.
  unfold GetVarint32, EncodeVarint32, to_uint32.
  pose proof (Z.mod_pos_bound v (2 ^ 32) ltac:(lia)) as Hu.
  set (u := v mod 2 ^ 32) in *. clearbody u. cbv zeta.
  change (Z.shiftl 1 7) with 128. change (Z.shiftl 1 14) with 16384.
  change (Z.shiftl 1 21) with 2097152. change (Z.shiftl 1 28) with 268435456.
  change (2 ^ 32) with 4294967296 in *.
  repeat match goal with
         | |- context [if ?a <? ?b then _ else _] => destruct (Z.ltb_spec a b)
         end;
    cbn [app GetVarint32Ptr];
    rewrite ?byte_land_128, ?byte_land_127, ?continuation_byte;
    rewrite ?byte_to_Z_of_Z, ?Z.shiftr_div_pow2 by lia;
    change (2 ^ 7) with 128; change (2 ^ 14) with 16384;
    change (2 ^ 21) with 2097152; change (2 ^ 28) with 268435456.
  all: repeat match goal with
         | |- context [if negb (?a <? ?b) then _ else _] =>
             destruct (Z.ltb_spec a b); [| div_lia]; cbn [negb]
         | |- context [if negb (?a <? ?b) then _ else _] =>
             destruct (Z.ltb_spec a b); [div_lia |]; cbn [negb]
         end.
  all: simpl Z.add; rewrite ?Z.shiftl_mul_pow2, ?Z.lor_0_l by lia.
  all: change (2 ^ 0) with 1; change (2 ^ 7) with 128;
    change (2 ^ 14) with 16384; change (2 ^ 21) with 2097152;
    change (2 ^ 28) with 268435456.
  all: unfold to_uint32; change (2 ^ 32) with 4294967296.
  all: repeat leftmost_lor.
  all: do 2 f_equal; div_lia.
Qed.

Lemma EncodeVarint32_IsVarint32 (n : Z) :
  0 <= n < 2 ^ 32 -> IsVarint32 (EncodeVarint32 n) n.
Proof.
  intros Hn. unfold IsVarint32.
  rewrite <- (app_nil_r (EncodeVarint32 n)), GetVarint32_EncodeVarint32.
  unfold to_uint32. rewrite Z.mod_small by exact Hn. reflexivity.
Qed.

(** A string shorter than 2^32 bytes, as [PutLengthPrefixedSlice] writes
    it, is length-prefixed. *)
Lemma PutLengthPrefixedSlice_LengthPrefixed (x : bytes) :
  Z.of_nat (length x) < 2 ^ 32 ->
  LengthPrefixed (PutLengthPrefixedSlice [] x) x.
Proof.
  intros Hlen. exists (EncodeVarint32 (Z.of_nat (length x))). split.
  - apply EncodeVarint32_IsVarint32. lia.
  - reflexivity.
Qed.

Lemma EncodeFixed64_IsFixed64 (n : Z) :
  0 <= n < 2 ^ 64 -> IsFixed64 (EncodeFixed64 n) n.
Proof.
  intros Hn. split; [reflexivity|].
  rewrite DecodeFixed64_EncodeFixed64. apply Z.mod_small. exact Hn.
Qed.

(** *** Keys give their fields back *)

Lemma unpack_PackSequenceAndType (seq : Z) (t : ValueType) :
  0 <= seq <= kMaxSequenceNumber ->
  let x := PackSequenceAndType seq t in
  0 <= x < 2 ^ 64
  /\ Z.shiftr x 8 = seq
  /\ Z.land x 255 = ValueType_to_Z t.
Proof.
  intros Hs x. subst x. rewrite PackSequenceAndType_value by exact Hs.
  unfold kMaxSequenceNumber in Hs. rewrite Z.shiftl_1_l in Hs.
  change (2 ^ 56) with 72057594037927936 in Hs.
  change (2 ^ 64) with 18446744073709551616.
  rewrite Z.shiftr_div_pow2 by lia. change 255 with (Z.ones 8).
  rewrite Z.land_ones by lia. change (2 ^ 8) with 256.
  destruct t; simpl ValueType_to_Z; repeat split; div_lia.
Qed.

(** Encode/decode round trip, single version. *)
Lemma AppendInternalKey_fields (k : ParsedInternalKey) :
  0 <= sequence k <= kMaxSequenceNumber ->
  let ikey := AppendInternalKey [] k in
  IsInternalKey false ikey
  /\ key_user false ikey = user_key k
  /\ key_sequence false ikey = sequence k
  /\ key_tag false ikey = ValueType_to_Z (type k).
Proof.
  intros Hs ikey. subst ikey. unfold AppendInternalKey, PutFixed64. simpl app.
  destruct (unpack_PackSequenceAndType (sequence k) (type k) Hs)
    as (Hx & Hseq & Htag).
  unfold key_sequence, key_tag, IsInternalKey.
  rewrite key_user_app, key_tail_app by reflexivity.
  rewrite DecodeFixed64_EncodeFixed64. unfold to_uint64.
  rewrite Z.mod_small by exact Hx. rewrite length_app. simpl.
  repeat split; [lia | exact Hseq | exact Htag].
Qed.

(** Encode/decode round trip, multi-version. *)
Lemma AppendMVInternalKey_fields (k : ParsedMVInternalKey) :
  0 <= mv_sequence k <= kMaxSequenceNumber ->
  0 <= valid_time k < 2 ^ 64 ->
  let ikey := AppendMVInternalKey [] k in
  IsInternalKey true ikey
  /\ key_user true ikey = mv_user_key k
  /\ key_sequence true ikey = mv_sequence k
  /\ key_tag true ikey = ValueType_to_Z (mv_type k)
  /\ key_valid_time ikey = valid_time k.
Proof.
  intros Hs Hvt ikey. subst ikey. unfold AppendMVInternalKey, PutFixed64.
  simpl app.
  destruct (unpack_PackSequenceAndType (mv_sequence k) (mv_type k) Hs)
    as (Hx & Hseq & Htag).
  set (p := EncodeFixed64 (PackSequenceAndType (mv_sequence k) (mv_type k))).
  set (v := EncodeFixed64 (valid_time k)).
  assert (Htail : key_tail true ((mv_user_key k ++ p) ++ v)
                  = PackSequenceAndType (mv_sequence k) (mv_type k)).
  { rewrite <- app_assoc, key_tail_app by reflexivity.
    subst p v. rewrite DecodeFixed64_app by reflexivity.
    rewrite DecodeFixed64_EncodeFixed64. apply Z.mod_small. exact Hx. }
  unfold key_sequence, key_tag, IsInternalKey, key_valid_time,
    fixed64_from_end.
  rewrite Htail.
  rewrite skipn_len_app by reflexivity.
  rewrite <- app_assoc, key_user_app by reflexivity.
  subst v. rewrite DecodeFixed64_EncodeFixed64.
  unfold to_uint64. rewrite Z.mod_small by exact Hvt.
  rewrite !length_app. simpl.
  repeat split; [lia | exact Hseq | exact Htag].
Qed.

(** *** Batches built by the interface are well formed *)

Lemma Frames_app (R : Type) (enc : bytes -> R -> Prop)
    (es : bytes) (rs : list R) (es' : bytes) (rs' : list R) :
  Frames enc es rs -> Frames enc es' rs' -> Frames enc (es ++ es') (rs ++ rs').
Proof.
  intros Hes Hes'. induction Hes as [|e r es rs He Hes IH]; [exact Hes'|].
  rewrite <- app_assoc. simpl. constructor; assumption.
Qed.

Lemma Frames_one (R : Type) (enc : bytes -> R -> Prop) (e : bytes) (r : R) :
  enc e r -> Frames enc e [r].
Proof.
  intros He. rewrite <- (app_nil_r e). constructor; [exact He | constructor].
Qed.

(** A write inside the header keeps the length and everything behind the
    bytes written. *)
Lemma poke_header (rep_ src : bytes) (off n : nat) :
  (off + length src <= n)%nat -> (n <= length rep_)%nat ->
  length (poke rep_ off src) = length rep_
  /\ skipn n (poke rep_ off src) = skipn n rep_.
Proof.
  intros Hfit Hlen. unfold poke.
  assert (Hoff : length (firstn off rep_) = off)
    by (rewrite length_firstn; lia).
  split.
  - rewrite !length_app, length_skipn, Hoff. lia.
  - rewrite skipn_app, Hoff, skipn_all2 by lia.
    rewrite skipn_app, skipn_all2 by lia.
    rewrite skipn_skipn. simpl. f_equal. lia.
Qed.

Lemma to_int_to_uint32 (z : Z) : to_int (to_uint32 z) = to_int z.
Proof. unfold to_int, to_uint32. rewrite Z.mod_mod by lia. reflexivity. Qed.

Lemma to_int_small (z : Z) : 0 <= z < 2 ^ 31 -> to_int z = z.
Proof.
  intros Hz. unfold to_int. rewrite Z.mod_small by lia. cbv zeta.
  destruct (Z.ltb_spec z (2 ^ 31)); lia.
Qed.

Lemma header_count_after_SetCount (rep_ tail : bytes) (n : Z) :
  (kHeader <= length rep_)%nat ->
  to_int (DecodeFixed32 (skipn 8 (poke rep_ 8 (EncodeFixed32 n) ++ tail)))
  = to_int n.
Proof.
  intros Hlen. unfold poke.
  assert (Hoff : length (firstn 8 rep_) = 8%nat)
    by (rewrite length_firstn; unfold kHeader in Hlen; lia).
  rewrite <- !app_assoc, skipn_app, Hoff, skipn_all2, Nat.sub_diag by lia.
  rewrite skipn_O, app_nil_l.
  rewrite DecodeFixed32_app by reflexivity.
  rewrite DecodeFixed32_EncodeFixed32. apply to_int_to_uint32.
Qed.

Lemma payload_after_SetCount (rep_ tail : bytes) (n : Z) :
  (kHeader <= length rep_)%nat ->
  (kHeader <= length (poke rep_ 8 (EncodeFixed32 n) ++ tail))%nat
  /\ skipn kHeader (poke rep_ 8 (EncodeFixed32 n) ++ tail)
     = skipn kHeader rep_ ++ tail.
Proof.
  intros Hlen.
  destruct (poke_header rep_ (EncodeFixed32 n) 8 kHeader) as [Hl Hs];
    [simpl; unfold kHeader; lia | exact Hlen |].
  split.
  - rewrite length_app, Hl. lia.
  - rewrite skipn_app, Hs, Hl.
    replace (kHeader - length rep_)%nat with 0%nat by lia. reflexivity.
Qed.

Lemma WriteBatch_new_WellFormed : WellFormed WriteBatch_new [].
Proof.
  repeat split; [unfold kHeader; simpl; lia | constructor].
Qed.

Lemma WriteBatchInternal_SetSequence_WellFormed (rep_ : WriteBatch)
    (recs : list BatchRecord) (seq : Z) :
  WellFormed rep_ recs ->
  WellFormed (WriteBatchInternal_SetSequence rep_ seq) recs
  /\ WriteBatchInternal_Sequence (WriteBatchInternal_SetSequence rep_ seq)
     = to_uint64 seq.
Proof.
  intros (Hlen & Hframes & Hcount).
  unfold WriteBatchInternal_SetSequence, WriteBatchInternal_Sequence.
  destruct (poke_header rep_ (EncodeFixed64 seq) 0 kHeader) as [Hl Hs];
    [simpl; unfold kHeader; lia | exact Hlen |].
  destruct (poke_header rep_ (EncodeFixed64 seq) 0 8) as [_ Hs8];
    [simpl; lia | unfold kHeader in Hlen; lia |].
  split.
  - repeat split.
    + rewrite Hl. exact Hlen.
    + rewrite Hs. exact Hframes.
    + unfold WriteBatchInternal_Count. rewrite Hs8. exact Hcount.
  - unfold poke. rewrite firstn_O, app_nil_l.
    rewrite DecodeFixed64_app by reflexivity.
    apply DecodeFixed64_EncodeFixed64.
Qed.

Lemma WriteBatch_Put_WellFormed (rep_ : WriteBatch)
    (recs : list BatchRecord) (key value : bytes) :
  WellFormed rep_ recs ->
  Z.of_nat (length key) < 2 ^ 32 -> Z.of_nat (length value) < 2 ^ 32 ->
  Z.of_nat (length recs) + 1 < 2 ^ 31 ->
  WellFormed (WriteBatch_Put rep_ key value) (recs ++ [RecPut key value]).
Proof.
  intros (Hlen & Hframes & Hcount) Hk Hv Hn.
  set (e := tag_byte kTypeValue
            :: PutLengthPrefixedSlice [] key
               ++ PutLengthPrefixedSlice [] value).
  assert (Hput : WriteBatch_Put rep_ key value =
                 WriteBatchInternal_SetCount rep_
                   (WriteBatchInternal_Count rep_ + 1) ++ e).
  { unfold WriteBatch_Put, PutLengthPrefixedSlice, PutVarint32. subst e.
    unfold PutLengthPrefixedSlice, PutVarint32. cbv zeta.
    rewrite ?app_nil_l, <- ?app_assoc. reflexivity. }
  rewrite Hput. unfold WriteBatchInternal_SetCount.
  destruct (payload_after_SetCount rep_ e (WriteBatchInternal_Count rep_ + 1)
              Hlen) as [Hl Hs].
  repeat split.
  - exact Hl.
  - rewrite Hs. apply Frames_app; [exact Hframes|]. apply Frames_one.
    constructor; apply PutLengthPrefixedSlice_LengthPrefixed; assumption.
  - unfold WriteBatchInternal_Count at 1.
    rewrite header_count_after_SetCount by exact Hlen.
    rewrite length_app, to_int_small; simpl length; lia.
Qed.

Lemma WriteBatch_Delete_WellFormed (rep_ : WriteBatch)
    (recs : list BatchRecord) (key : bytes) :
  WellFormed rep_ recs ->
  Z.of_nat (length key) < 2 ^ 32 ->
  Z.of_nat (length recs) + 1 < 2 ^ 31 ->
  WellFormed (WriteBatch_Delete rep_ key) (recs ++ [RecDelete key]).
Proof.
  intros (Hlen & Hframes & Hcount) Hk Hn.
  set (e := tag_byte kTypeDeletion :: PutLengthPrefixedSlice [] key).
  assert (Hdel : WriteBatch_Delete rep_ key =
                 WriteBatchInternal_SetCount rep_
                   (WriteBatchInternal_Count rep_ + 1) ++ e).
  { unfold WriteBatch_Delete, PutLengthPrefixedSlice, PutVarint32. subst e.
    unfold PutLengthPrefixedSlice, PutVarint32. cbv zeta.
    rewrite ?app_nil_l, <- ?app_assoc. reflexivity. }
  rewrite Hdel. unfold WriteBatchInternal_SetCount.
  destruct (payload_after_SetCount rep_ e (WriteBatchInternal_Count rep_ + 1)
              Hlen) as [Hl Hs].
  repeat split.
  - exact Hl.
  - rewrite Hs. apply Frames_app; [exact Hframes|]. apply Frames_one.
    constructor; apply PutLengthPrefixedSlice_LengthPrefixed; assumption.
  - unfold WriteBatchInternal_Count at 1.
    rewrite header_count_after_SetCount by exact Hlen.
    rewrite length_app, to_int_small; simpl length; lia.
Qed.

Lemma WriteBatchMV_new_WellFormed : WellFormedMV WriteBatchMV_new [].
Proof.
  repeat split; [unfold kHeader; simpl; lia | constructor].
Qed.

Lemma WriteBatchMVInternal_SetSequence_WellFormed (rep_ : WriteBatchMV)
    (recs : list BatchRecordMV) (seq : Z) :
  WellFormedMV rep_ recs ->
  WellFormedMV (WriteBatchMVInternal_SetSequence rep_ seq) recs
  /\ WriteBatchMVInternal_Sequence (WriteBatchMVInternal_SetSequence rep_ seq)
     = to_uint64 seq.
Proof.
  intros (Hlen & Hframes & Hcount).
  unfold WriteBatchMVInternal_SetSequence, WriteBatchMVInternal_Sequence.
  destruct (poke_header rep_ (EncodeFixed64 seq) 0 kHeader) as [Hl Hs];
    [simpl; unfold kHeader; lia | exact Hlen |].
  destruct (poke_header rep_ (EncodeFixed64 seq) 0 8) as [_ Hs8];
    [simpl; lia | unfold kHeader in Hlen; lia |].
  split.
  - repeat split.
    + rewrite Hl. exact Hlen.
    + rewrite Hs. exact Hframes.
    + unfold WriteBatchMVInternal_Count. rewrite Hs8. exact Hcount.
  - unfold poke. rewrite firstn_O, app_nil_l.
    rewrite DecodeFixed64_app by reflexivity.
    apply DecodeFixed64_EncodeFixed64.
Qed.

Lemma WriteBatchMV_Put_WellFormed (rep_ : WriteBatchMV)
    (recs : list BatchRecordMV) (key : bytes) (vt : Z) (value : bytes) :
  WellFormedMV rep_ recs ->
  Z.of_nat (length key) < 2 ^ 32 -> 0 <= vt < 2 ^ 64 ->
  Z.of_nat (length value) < 2 ^ 32 ->
  Z.of_nat (length recs) + 1 < 2 ^ 31 ->
  WellFormedMV (WriteBatchMV_Put rep_ key vt value)
    (recs ++ [RecMVPut key vt value]).
Proof.
  intros (Hlen & Hframes & Hcount) Hk Hvt Hv Hn.
  set (e := tag_byte kTypeValue
            :: PutLengthPrefixedSlice [] key
               ++ EncodeFixed64 vt ++ PutLengthPrefixedSlice [] value).
  assert (Hput : WriteBatchMV_Put rep_ key vt value =
                 WriteBatchMVInternal_SetCount rep_
                   (WriteBatchMVInternal_Count rep_ + 1) ++ e).
  { unfold WriteBatchMV_Put, PutLengthPrefixedSlice, PutVarint32, PutFixed64.
    subst e. unfold PutLengthPrefixedSlice, PutVarint32. cbv zeta.
    rewrite ?app_nil_l, <- ?app_assoc. reflexivity. }
  rewrite Hput. unfold WriteBatchMVInternal_SetCount.
  destruct (payload_after_SetCount rep_ e
              (WriteBatchMVInternal_Count rep_ + 1) Hlen) as [Hl Hs].
  repeat split.
  - exact Hl.
  - rewrite Hs. apply Frames_app; [exact Hframes|]. apply Frames_one.
    constructor;
      try (apply PutLengthPrefixedSlice_LengthPrefixed; assumption).
    apply EncodeFixed64_IsFixed64. exact Hvt.
  - unfold WriteBatchMVInternal_Count at 1.
    rewrite header_count_after_SetCount by exact Hlen.
    rewrite length_app, to_int_small; simpl length; lia.
Qed.

Lemma WriteBatchMV_Delete_WellFormed (rep_ : WriteBatchMV)
    (recs : list BatchRecordMV) (key : bytes) (vt : Z) :
  WellFormedMV rep_ recs ->
  Z.of_nat (length key) < 2 ^ 32 -> 0 <= vt < 2 ^ 64 ->
  Z.of_nat (length recs) + 1 < 2 ^ 31 ->
  WellFormedMV (WriteBatchMV_Delete rep_ key vt) (recs ++ [RecMVDelete key vt]).
Proof.
  intros (Hlen & Hframes & Hcount) Hk Hvt Hn.
  set (e := tag_byte kTypeDeletion
            :: PutLengthPrefixedSlice [] key ++ EncodeFixed64 vt).
  assert (Hdel : WriteBatchMV_Delete rep_ key vt =
                 WriteBatchMVInternal_SetCount rep_
                   (WriteBatchMVInternal_Count rep_ + 1) ++ e).
  { unfold WriteBatchMV_Delete, PutLengthPrefixedSlice, PutVarint32,
      PutFixed64.
    subst e. unfold PutLengthPrefixedSlice, PutVarint32. cbv zeta.
    rewrite ?app_nil_l, <- ?app_assoc. reflexivity. }
  rewrite Hdel. unfold WriteBatchMVInternal_SetCount.
  destruct (payload_after_SetCount rep_ e
              (WriteBatchMVInternal_Count rep_ + 1) Hlen) as [Hl Hs].
  repeat split.
  - exact Hl.
  - rewrite Hs. apply Frames_app; [exact Hframes|]. apply Frames_one.
    constructor;
      try (apply PutLengthPrefixedSlice_LengthPrefixed; assumption).
    apply EncodeFixed64_IsFixed64. exact Hvt.
  - unfold WriteBatchMVInternal_Count at 1.
    rewrite header_count_after_SetCount by exact Hlen.
    rewrite length_app, to_int_small; simpl length; lia.
Qed.

(** [Append] concatenates the records and adds the counts; the sequence
    field of the destination stays. *)
Lemma WriteBatch_Append_WellFormed (dst src : WriteBatch)
    (rd rs : list BatchRecord) :
  WellFormed dst rd -> WellFormed src rs ->
  Z.of_nat (length rd) + Z.of_nat (length rs) < 2 ^ 31 ->
  WellFormed (WriteBatch_Append dst src) (rd ++ rs)
  /\ length (WriteBatch_Append dst src)
     = (length dst + length src - kHeader)%nat.
Proof.
  intros (Hld & Hfd & Hcd) (Hls & Hfs & Hcs) Hn.
  unfold WriteBatch_Append, WriteBatchInternal_Append,
    WriteBatchInternal_SetCount. cbv zeta.
  destruct (payload_after_SetCount dst (skipn kHeader src)
              (WriteBatchInternal_Count dst + WriteBatchInternal_Count src)
              Hld) as [Hl Hs].
  split; [repeat split|].
  - exact Hl.
  - rewrite Hs. apply Frames_app; assumption.
  - unfold WriteBatchInternal_Count at 1.
    rewrite header_count_after_SetCount by exact Hld.
    rewrite length_app, to_int_small; lia.
  - destruct (poke_header dst
                (EncodeFixed32
                   (WriteBatchInternal_Count dst
                    + WriteBatchInternal_Count src))
                8 kHeader) as [Hlen _];
      [simpl; unfold kHeader; lia | exact Hld |].
    rewrite length_app, Hlen, length_skipn. lia.
Qed.

Lemma WriteBatchMV_Append_WellFormed (dst src : WriteBatchMV)
    (rd rs : list BatchRecordMV) :
  WellFormedMV dst rd -> WellFormedMV src rs ->
  Z.of_nat (length rd) + Z.of_nat (length rs) < 2 ^ 31 ->
  WellFormedMV (WriteBatchMV_Append dst src) (rd ++ rs)
  /\ length (WriteBatchMV_Append dst src)
     = (length dst + length src - kHeader)%nat.
Proof.
  intros (Hld & Hfd & Hcd) (Hls & Hfs & Hcs) Hn.
  unfold WriteBatchMV_Append, WriteBatchMVInternal_Append,
    WriteBatchMVInternal_SetCount. cbv zeta.
  destruct (payload_after_SetCount dst (skipn kHeader src)
              (WriteBatchMVInternal_Count dst + WriteBatchMVInternal_Count src)
              Hld) as [Hl Hs].
  split; [repeat split|].
  - exact Hl.
  - rewrite Hs. apply Frames_app; assumption.
  - unfold WriteBatchMVInternal_Count at 1.
    rewrite header_count_after_SetCount by exact Hld.
    rewrite length_app, to_int_small; lia.
  - destruct (poke_header dst
                (EncodeFixed32
                   (WriteBatchMVInternal_Count dst
                    + WriteBatchMVInternal_Count src))
                8 kHeader) as [Hlen _];
      [simpl; unfold kHeader; lia | exact Hld |].
    rewrite length_app, Hlen, length_skipn. lia.
Qed.

(** ** Further properties of the key codecs and the batch interface *)

(** X1. Order by user key: when the user comparator puts the user key of
    [a] strictly below that of [b], the internal comparator puts [a]
    strictly below [b], in either mode and whatever the trailers hold. *)
Theorem user_key_order_comes_first
    (uc : Comparator) (mv : bool) (a b : bytes) :
  IsInternalKey mv a -> IsInternalKey mv b ->
  Compare uc (key_user mv a) (key_user mv b) < 0 ->
  InternalKeyComparator_Compare uc mv a b < 0.
Proof.
  intros _ _ Hlt. rewrite Compare_user_order; lia.
Qed.

Lemma user_key_order_comes_first_witness :
  InternalKeyComparator_Compare BytewiseComparator false
    (AppendInternalKey []
       {| user_key := ["k"%byte]; sequence := 9; type := kTypeValue |})
    (AppendInternalKey []
       {| user_key := ["l"%byte]; sequence := 1; type := kTypeValue |}) < 0.
Proof.
  apply user_key_order_comes_first;
    try (unfold IsInternalKey; simpl; lia); vm_compute; reflexivity.
Defined.

(** X2. Encode/decode round trip: the key [AppendInternalKey] writes for a
    sequence number within [kMaxSequenceNumber] is an internal key whose
    user-key prefix, sequence number ([tail >> 8]) and tag ([tail & 0xff])
    are the ones it was built from; the MV key of [AppendMVInternalKey]
    gives its valid time back as well. *)
Theorem internal_key_round_trip
    (u : bytes) (seq : Z) (t : ValueType) (vt : Z) :
  0 <= seq <= kMaxSequenceNumber -> 0 <= vt < 2 ^ 64 ->
  let k := AppendInternalKey []
             {| user_key := u; sequence := seq; type := t |} in
  let km := AppendMVInternalKey []
              {| mv_user_key := u; mv_sequence := seq; mv_type := t;
                 valid_time := vt |} in
  (IsInternalKey false k
   /\ key_user false k = u
   /\ key_sequence false k = seq
   /\ key_tag false k = ValueType_to_Z t)
  /\ (IsInternalKey true km
   /\ key_user true km = u
   /\ key_sequence true km = seq
   /\ key_tag true km = ValueType_to_Z t
   /\ key_valid_time km = vt).
Proof.
  intros Hs Hvt k km. split.
  - exact (AppendInternalKey_fields
             {| user_key := u; sequence := seq; type := t |} Hs).
  - exact (AppendMVInternalKey_fields
             {| mv_user_key := u; mv_sequence := seq; mv_type := t;
                valid_time := vt |} Hs Hvt).
Qed.

Lemma internal_key_round_trip_witness :
  let u := ["f"; "o"; "o"]%byte in
  let k := AppendInternalKey []
             {| user_key := u; sequence := 100; type := kTypeDeletion |} in
  let km := AppendMVInternalKey []
              {| mv_user_key := u; mv_sequence := 100;
                 mv_type := kTypeDeletion; valid_time := 42 |} in
  (IsInternalKey false k
   /\ key_user false k = u
   /\ key_sequence false k = 100
   /\ key_tag false k = ValueType_to_Z kTypeDeletion)
  /\ (IsInternalKey true km
   /\ key_user true km = u
   /\ key_sequence true km = 100
   /\ key_tag true km = ValueType_to_Z kTypeDeletion
   /\ key_valid_time km = 42).
Proof.
  apply (internal_key_round_trip ["f"; "o"; "o"]%byte 100 kTypeDeletion 42).
  - unfold kMaxSequenceNumber. simpl. lia.
  - lia.
Defined.

(** X3. [Put] and [Delete] keep a batch well formed and append their
    record: a batch that [Iterate] accepts with the records [recs] is, after
    [Put(key, value)] (or [Delete(key)]), one that [Iterate] accepts with
    [recs] followed by the new record, as long as the strings are shorter
    than 2^32 bytes and the count stays below 2^31. *)
Theorem put_delete_append_a_record
    (rep_ : WriteBatch) (recs : list BatchRecord) (key value : bytes) :
  WellFormed rep_ recs ->
  Z.of_nat (length key) < 2 ^ 32 -> Z.of_nat (length value) < 2 ^ 32 ->
  Z.of_nat (length recs) + 1 < 2 ^ 31 ->
  WriteBatch_Iterate Recorder (WriteBatch_Put rep_ key value) [] =
    Some (OK, recs ++ [RecPut key value])
  /\ WriteBatch_Iterate Recorder (WriteBatch_Delete rep_ key) [] =
    Some (OK, recs ++ [RecDelete key]).
Proof.
  intros Hwf Hk Hv Hn. split; apply Recorder_WellFormed.
  - apply WriteBatch_Put_WellFormed; assumption.
  - apply WriteBatch_Delete_WellFormed; assumption.
Qed.

Lemma put_delete_append_a_record_witness :
  WriteBatch_Iterate Recorder
    (WriteBatch_Put mixed_batch ["d"%byte] ["4"%byte]) [] =
    Some (OK, mixed_records ++ [RecPut ["d"%byte] ["4"%byte]])
  /\ WriteBatch_Iterate Recorder (WriteBatch_Delete mixed_batch ["d"%byte]) [] =
    Some (OK, mixed_records ++ [RecDelete ["d"%byte]]).
Proof.
  apply (put_delete_append_a_record mixed_batch mixed_records
           ["d"%byte] ["4"%byte]).
  - exact mixed_batch_WellFormed.
  - simpl. lia.
  - simpl. lia.
  - simpl. lia.
Defined.

(** X4. The same for MV batches, whose records carry a valid time. *)
Theorem mv_put_delete_append_a_record
    (rep_ : WriteBatchMV) (recs : list BatchRecordMV) (key : bytes) (vt : Z)
    (value : bytes) :
  WellFormedMV rep_ recs ->
  Z.of_nat (length key) < 2 ^ 32 -> 0 <= vt < 2 ^ 64 ->
  Z.of_nat (length value) < 2 ^ 32 ->
  Z.of_nat (length recs) + 1 < 2 ^ 31 ->
  WriteBatchMV_Iterate RecorderMV (WriteBatchMV_Put rep_ key vt value) [] =
    Some (OK, recs ++ [RecMVPut key vt value])
  /\ WriteBatchMV_Iterate RecorderMV (WriteBatchMV_Delete rep_ key vt) [] =
    Some (OK, recs ++ [RecMVDelete key vt]).
Proof.
  intros Hwf Hk Hvt Hv Hn. split; apply RecorderMV_WellFormed.
  - apply WriteBatchMV_Put_WellFormed; assumption.
  - apply WriteBatchMV_Delete_WellFormed; assumption.
Qed.

Lemma mv_put_delete_append_a_record_witness :
  WriteBatchMV_Iterate RecorderMV
    (WriteBatchMV_Put mixed_batchMV ["e"%byte] 44 ["5"%byte]) [] =
    Some (OK, mixed_recordsMV ++ [RecMVPut ["e"%byte] 44 ["5"%byte]])
  /\ WriteBatchMV_Iterate RecorderMV
       (WriteBatchMV_Delete mixed_batchMV ["e"%byte] 44) [] =
    Some (OK, mixed_recordsMV ++ [RecMVDelete ["e"%byte] 44]).
Proof.
  apply (mv_put_delete_append_a_record mixed_batchMV mixed_recordsMV
           ["e"%byte] 44 ["5"%byte]).
  - exact mixed_batchMV_WellFormed.
  - simpl. lia.
  - lia.
  - simpl. lia.
  - simpl. lia.
Defined.

(** X5. [Append]: for well-formed batches [dst] and [src] whose counts add
    up to less than 2^31, the result has [size(dst) + size(src) - 12]
    bytes, the header count is the sum of the two counts, the sequence
    field is that of [dst], and iterating it yields the records of [dst]
    followed by the records of [src]. *)
Theorem append_concatenates_records
    (dst src : WriteBatch) (rd rs : list BatchRecord) :
  WellFormed dst rd -> WellFormed src rs ->
  Z.of_nat (length rd) + Z.of_nat (length rs) < 2 ^ 31 ->
  let b := WriteBatch_Append dst src in
  WriteBatch_ApproximateSize b
  = (WriteBatch_ApproximateSize dst + WriteBatch_ApproximateSize src - 12)%nat
  /\ WriteBatchInternal_Count b
     = WriteBatchInternal_Count dst + WriteBatchInternal_Count src
  /\ WriteBatchInternal_Sequence b = WriteBatchInternal_Sequence dst
  /\ WriteBatch_Iterate Recorder b [] = Some (OK, rd ++ rs).
Proof.
  intros Hd Hs Hn b. subst b.
  destruct (WriteBatch_Append_WellFormed dst src rd rs Hd Hs Hn)
    as [Hwf Hlen].
  split; [exact Hlen|]. split; [|split].
  - destruct Hwf as (_ & _ & <-). destruct Hd as (_ & _ & <-).
    destruct Hs as (_ & _ & <-). rewrite length_app. lia.
  - destruct Hd as (Hld & _ & _).
    unfold WriteBatch_Append, WriteBatchInternal_Append,
      WriteBatchInternal_SetCount, WriteBatchInternal_Sequence, poke.
    cbv zeta. unfold kHeader in Hld.
    do 8 (destruct dst as [|? dst]; [simpl in Hld; lia|]). reflexivity.
  - apply Recorder_WellFormed. exact Hwf.
Qed.

Lemma append_concatenates_records_witness :
  let b := WriteBatch_Append mixed_batch mixed_batch in
  WriteBatch_ApproximateSize b
  = (WriteBatch_ApproximateSize mixed_batch
     + WriteBatch_ApproximateSize mixed_batch - 12)%nat
  /\ WriteBatchInternal_Count b
     = WriteBatchInternal_Count mixed_batch
       + WriteBatchInternal_Count mixed_batch
  /\ WriteBatchInternal_Sequence b = WriteBatchInternal_Sequence mixed_batch
  /\ WriteBatch_Iterate Recorder b [] =
     Some (OK, mixed_records ++ mixed_records).
Proof.
  apply (append_concatenates_records mixed_batch mixed_batch
           mixed_records mixed_records).
  - exact mixed_batch_WellFormed.
  - exact mixed_batch_WellFormed.
  - simpl. lia.
Defined.

(** ** Further properties: the comparator adapter *)

Lemma SignFlips_zero (cmp : bytes -> bytes -> Z) (a b : bytes) :
  SignFlips cmp -> cmp a b = 0 -> cmp b a = 0.
Proof.
  intros Hflip Hz. pose proof (Hflip a b). pose proof (Hflip b a). lia.
Qed.

Lemma SignFlips_refl (cmp : bytes -> bytes -> Z) (a : bytes) :
  SignFlips cmp -> cmp a a = 0.
Proof. intros Hflip. pose proof (Hflip a a). lia. Qed.

(** The single-version comparison is the lexicographic one: user keys
    first, then the packed words, larger first. *)
Lemma Compare_sv_cases (uc : Comparator) (a b : bytes) :
  let r := InternalKeyComparator_Compare uc false a b in
  let u := Compare uc (key_user false a) (key_user false b) in
  (u <> 0 /\ r = u)
  \/ (u = 0 /\ key_tail false a > key_tail false b /\ r = -1)
  \/ (u = 0 /\ key_tail false a < key_tail false b /\ r = 1)
  \/ (u = 0 /\ key_tail false a = key_tail false b /\ r = 0).
Proof.
  cbv zeta. rewrite Compare_unfold. cbv zeta.
  destruct (Z.eqb_spec (Compare uc (key_user false a) (key_user false b)) 0)
    as [Hu|Hu]; [|left; split; [exact Hu | reflexivity]].
  right. rewrite Hu.
  destruct (Z.gtb_spec (key_tail false a) (key_tail false b)).
  - left. repeat split; lia.
  - destruct (Z.ltb_spec (key_tail false a) (key_tail false b)).
    + right; left. repeat split; lia.
    + right; right. repeat split; lia.
Qed.

(** X6. In single-version mode the adapter is an order whenever the user
    comparator is one: if the sign of the user comparison flips with its
    arguments and "not above" is transitive, the same holds for the
    internal comparison, and two internal keys compare as equal exactly when
    their user keys do and their packed (sequence, tag) words are equal. *)
Theorem sv_compare_is_an_order (uc : Comparator) :
  SignFlips (Compare uc) -> TransitiveLe (Compare uc) ->
  SignFlips (InternalKeyComparator_Compare uc false)
  /\ TransitiveLe (InternalKeyComparator_Compare uc false)
  /\ (forall a b,
        InternalKeyComparator_Compare uc false a b = 0 <->
        Compare uc (key_user false a) (key_user false b) = 0
        /\ key_tail false a = key_tail false b).
Proof.
  intros Hflip Htrans.
  assert (Hf : SignFlips (InternalKeyComparator_Compare uc false)).
  { intros a b.
    pose proof (Compare_sv_cases uc a b) as Cab.
    pose proof (Compare_sv_cases uc b a) as Cba. cbv zeta in Cab, Cba.
    pose proof (Hflip (key_user false a) (key_user false b)).
    pose proof (Hflip (key_user false b) (key_user false a)). lia. }
  split; [exact Hf|]. split.
  - intros a b c Hab Hbc.
    pose proof (Compare_sv_cases uc a b) as Cab.
    pose proof (Compare_sv_cases uc b c) as Cbc.
    pose proof (Compare_sv_cases uc a c) as Cac. cbv zeta in Cab, Cbc, Cac.
    set (ua := key_user false a) in *. set (ub := key_user false b) in *.
    set (uc' := key_user false c) in *.
    pose proof (Htrans ua ub uc') as T1.
    pose proof (Htrans ub uc' ua) as T2.
    pose proof (Htrans uc' ua ub) as T3.
    pose proof (Hflip ua ub). pose proof (Hflip ub ua).
    pose proof (Hflip ub uc'). pose proof (Hflip uc' ub).
    pose proof (Hflip ua uc'). pose proof (Hflip uc' ua).
    lia.
  - intros a b. pose proof (Compare_sv_cases uc a b) as Cab.
    cbv zeta in Cab. lia.
Qed.

(** The bytewise comparator is such an order. *)
Lemma Bytewise_Compare_flips : SignFlips Bytewise_Compare.
Proof.
  intros a. induction a as [|x a IH]; intros [|y b]; simpl; try lia.
  rewrite !Z.gtb_ltb.
  destruct (Z.ltb_spec (byte_to_Z x) (byte_to_Z y));
    destruct (Z.ltb_spec (byte_to_Z y) (byte_to_Z x)); try lia.
  apply IH.
Qed.

Lemma Bytewise_Compare_trans : TransitiveLe Bytewise_Compare.
Proof.
  intros a. induction a as [|x a IH]; intros [|y b] [|z c]; simpl; try lia.
  rewrite !Z.gtb_ltb.
  destruct (Z.ltb_spec (byte_to_Z x) (byte_to_Z y));
    destruct (Z.ltb_spec (byte_to_Z y) (byte_to_Z x));
    destruct (Z.ltb_spec (byte_to_Z y) (byte_to_Z z));
    destruct (Z.ltb_spec (byte_to_Z z) (byte_to_Z y));
    destruct (Z.ltb_spec (byte_to_Z x) (byte_to_Z z));
    destruct (Z.ltb_spec (byte_to_Z z) (byte_to_Z x)); try lia.
  apply IH.
Qed.

Lemma sv_compare_is_an_order_witness :
  SignFlips (InternalKeyComparator_Compare BytewiseComparator false)
  /\ TransitiveLe (InternalKeyComparator_Compare BytewiseComparator false)
  /\ (forall a b,
        InternalKeyComparator_Compare BytewiseComparator false a b = 0 <->
        Compare BytewiseComparator (key_user false a) (key_user false b) = 0
        /\ key_tail false a = key_tail false b).
Proof.
  apply (sv_compare_is_an_order BytewiseComparator).
  - exact Bytewise_Compare_flips.
  - exact Bytewise_Compare_trans.
Defined.

(** X7. [FindShortSuccessor] in single-version mode never moves a key
    down: for a user comparator that holds every key equal to itself, the
    key is left as it is, or it is replaced by a strictly shorter key that
    compares strictly above it, made of the user comparator's successor and
    [pack(kMaxSequenceNumber, kValueTypeForSeek)]. *)
Theorem sv_successor_moves_up (uc : Comparator) (key : bytes) :
  ReflexiveCompare uc -> IsInternalKey false key ->
  let key' := InternalKeyComparator_FindShortSuccessor uc false key in
  key' = key
  \/ (key' =
      FindShortSuccessor uc (ExtractUserKey key)
        ++ EncodeFixed64
             (PackSequenceAndType kMaxSequenceNumber kValueTypeForSeek)
      /\ (length key' < length key)%nat
      /\ InternalKeyComparator_Compare uc false key key' < 0).
Proof.
  intros Hrefl Hkey key'. subst key'.
  unfold InternalKeyComparator_FindShortSuccessor, PutFixed64. cbv zeta.
  set (tmp := FindShortSuccessor uc (ExtractUserKey key)).
  destruct ((length tmp <? length (ExtractUserKey key))%nat
            && (Compare uc (ExtractUserKey key) tmp <? 0)) eqn:Hcond;
    [|left; reflexivity].
  right. apply andb_true_iff in Hcond. destruct Hcond as [Hlen Hup].
  apply Nat.ltb_lt in Hlen. apply Z.ltb_lt in Hup.
  split; [reflexivity|]. split.
  - unfold ExtractUserKey in Hlen. rewrite length_firstn in Hlen.
    unfold IsInternalKey in Hkey. simpl in Hkey.
    rewrite length_app. simpl. lia.
  - rewrite Compare_user_order;
      rewrite (key_user_app false tmp) by reflexivity;
      change (key_user false key) with (ExtractUserKey key); lia.
Qed.

Lemma sv_successor_moves_up_witness :
  let key := AppendInternalKey []
               {| user_key := ["b"; "c"]%byte; sequence := 1;
                  type := kTypeValue |} in
  let key' :=
    InternalKeyComparator_FindShortSuccessor BytewiseComparator false key in
  key' = key
  \/ (key' =
      FindShortSuccessor BytewiseComparator (ExtractUserKey key)
        ++ EncodeFixed64
             (PackSequenceAndType kMaxSequenceNumber kValueTypeForSeek)
      /\ (length key' < length key)%nat
      /\ InternalKeyComparator_Compare BytewiseComparator false key key' < 0).
Proof.
  apply (sv_successor_moves_up BytewiseComparator).
  - exact Bytewise_Compare_refl.
  - unfold IsInternalKey. simpl. lia.
Defined.

(** ** Further properties: lookup keys *)

(** The internal key inside a lookup key is the key [AppendInternalKey]
    writes for the seek tag. *)
Lemma LookupKey_new_views (u : bytes) (s : Z) :
  exists k,
    LookupKey_new u s = Some k
    /\ memtable_key k =
       EncodeVarint32 (Z.of_nat (length u) + 8)
         ++ AppendInternalKey []
              {| user_key := u; sequence := s; type := kValueTypeForSeek |}
    /\ internal_key k =
       AppendInternalKey []
         {| user_key := u; sequence := s; type := kValueTypeForSeek |}.
Proof.
  destruct (LookupKey_new_mem u s) as (k & rest & Hk & Hmem & H0 & Hks & He).
  exists k. unfold memtable_key, internal_key, AppendInternalKey, PutFixed64.
  cbn [user_key sequence type app].
  rewrite Hmem, H0, Hks, He. repeat split.
  - exact Hk.
  - rewrite app_assoc. apply (slice_app [] _ rest); [reflexivity|].
    rewrite !length_app. simpl. lia.
  - apply slice_app; lia.
Qed.

Lemma MVLookupKey_new_views (u : bytes) (s t : Z) :
  exists k,
    MVLookupKey_new u s t = Some k
    /\ memtable_key k =
       EncodeVarint32 (Z.of_nat (length u) + 16)
         ++ AppendMVInternalKey []
              {| mv_user_key := u; mv_sequence := s;
                 mv_type := kValueTypeForSeek; valid_time := t |}
    /\ internal_key k =
       AppendMVInternalKey []
         {| mv_user_key := u; mv_sequence := s;
            mv_type := kValueTypeForSeek; valid_time := t |}.
Proof.
  destruct (MVLookupKey_new_mem u s t)
    as (k & rest & Hk & Hmem & H0 & Hks & He).
  exists k. unfold memtable_key, internal_key, AppendMVInternalKey,
    PutFixed64.
  cbn [mv_user_key mv_sequence mv_type valid_time app].
  rewrite <- !app_assoc.
  rewrite Hmem, H0, Hks, He. repeat split.
  - exact Hk.
  - rewrite app_assoc. apply (slice_app [] _ rest); [reflexivity|].
    rewrite !length_app. simpl. lia.
  - apply slice_app; lia.
Qed.

(** X8. A lookup key is its internal key behind a varint32 length: the
    [internal_key] view is byte for byte the key [AppendInternalKey]
    ([AppendMVInternalKey]) writes for the user key, the sequence number
    and [kValueTypeForSeek], and reading a length-prefixed slice off the
    [memtable_key] view, as the memtable does, yields exactly that key and
    consumes the whole view, for user keys whose length fits the
    [uint32_t] prefix. *)
Theorem lookup_key_is_length_prefixed_internal_key (u : bytes) (s t : Z) :
  Z.of_nat (length u) + 16 < 2 ^ 32 ->
  (exists k,
     LookupKey_new u s = Some k
     /\ internal_key k =
        AppendInternalKey []
          {| user_key := u; sequence := s; type := kValueTypeForSeek |}
     /\ GetLengthPrefixedSlice (memtable_key k) = Some (internal_key k, []))
  /\ (exists k,
     MVLookupKey_new u s t = Some k
     /\ internal_key k =
        AppendMVInternalKey []
          {| mv_user_key := u; mv_sequence := s;
             mv_type := kValueTypeForSeek; valid_time := t |}
     /\ GetLengthPrefixedSlice (memtable_key k) = Some (internal_key k, [])).
Proof.
  intros Hlen. split.
  - destruct (LookupKey_new_views u s) as (k & Hk & Hm & Hi).
    exists k. repeat split; [exact Hk | exact Hi |].
    rewrite Hm, Hi. apply GetLengthPrefixedSlice_spec.
    eexists. split; [|symmetry; apply app_nil_r].
    exists (EncodeVarint32 (Z.of_nat (length u) + 8)). split; [|reflexivity].
    replace (Z.of_nat (length (AppendInternalKey []
               {| user_key := u; sequence := s; type := kValueTypeForSeek |})))
      with (Z.of_nat (length u) + 8)
      by (unfold AppendInternalKey, PutFixed64; cbn [user_key app];
          rewrite length_app; simpl; lia).
    apply EncodeVarint32_IsVarint32. lia.
  - destruct (MVLookupKey_new_views u s t) as (k & Hk & Hm & Hi).
    exists k. repeat split; [exact Hk | exact Hi |].
    rewrite Hm, Hi. apply GetLengthPrefixedSlice_spec.
    eexists. split; [|symmetry; apply app_nil_r].
    exists (EncodeVarint32 (Z.of_nat (length u) + 16)). split; [|reflexivity].
    replace (Z.of_nat (length (AppendMVInternalKey []
               {| mv_user_key := u; mv_sequence := s;
                  mv_type := kValueTypeForSeek; valid_time := t |})))
      with (Z.of_nat (length u) + 16)
      by (unfold AppendMVInternalKey, PutFixed64; cbn [mv_user_key app];
          rewrite !length_app; simpl; lia).
    apply EncodeVarint32_IsVarint32. lia.
Qed.

Lemma lookup_key_is_length_prefixed_internal_key_witness :
  let u := ["f"; "o"; "o"]%byte in
  (exists k,
     LookupKey_new u 100 = Some k
     /\ internal_key k =
        AppendInternalKey []
          {| user_key := u; sequence := 100; type := kValueTypeForSeek |}
     /\ GetLengthPrefixedSlice (memtable_key k) = Some (internal_key k, []))
  /\ (exists k,
     MVLookupKey_new u 100 42 = Some k
     /\ internal_key k =
        AppendMVInternalKey []
          {| mv_user_key := u; mv_sequence := 100;
             mv_type := kValueTypeForSeek; valid_time := 42 |}
     /\ GetLengthPrefixedSlice (memtable_key k) = Some (internal_key k, [])).
Proof.
  apply (lookup_key_is_length_prefixed_internal_key
           ["f"; "o"; "o"]%byte 100 42).
  simpl. lia.
Defined.

Lemma AppendInternalKey_tail (k : ParsedInternalKey) :
  0 <= sequence k <= kMaxSequenceNumber ->
  key_user false (AppendInternalKey [] k) = user_key k
  /\ key_tail false (AppendInternalKey [] k)
     = sequence k * 256 + ValueType_to_Z (type k).
Proof.
  intros Hs. unfold AppendInternalKey, PutFixed64. simpl app.
  destruct (unpack_PackSequenceAndType (sequence k) (type k) Hs) as (Hx & _).
  rewrite key_user_app, key_tail_app by reflexivity.
  rewrite DecodeFixed64_EncodeFixed64. unfold to_uint64.
  rewrite Z.mod_small by exact Hx.
  split; [reflexivity | apply PackSequenceAndType_value; exact Hs].
Qed.

Lemma AppendMVInternalKey_tail (k : ParsedMVInternalKey) :
  0 <= mv_sequence k <= kMaxSequenceNumber ->
  0 <= valid_time k < 2 ^ 64 ->
  key_user true (AppendMVInternalKey [] k) = mv_user_key k
  /\ key_tail true (AppendMVInternalKey [] k)
     = mv_sequence k * 256 + ValueType_to_Z (mv_type k)
  /\ key_valid_time (AppendMVInternalKey [] k) = valid_time k.
Proof.
  intros Hs Hvt.
  destruct (AppendMVInternalKey_fields k Hs Hvt) as (_ & Hu & _ & _ & Hv).
  split; [exact Hu|]. split; [|exact Hv].
  unfold AppendMVInternalKey, PutFixed64. simpl app.
  destruct (unpack_PackSequenceAndType (mv_sequence k) (mv_type k) Hs)
    as (Hx & _).
  rewrite <- app_assoc, key_tail_app by reflexivity.
  rewrite DecodeFixed64_app by reflexivity.
  rewrite DecodeFixed64_EncodeFixed64. unfold to_uint64.
  rewrite Z.mod_small by exact Hx.
  apply PackSequenceAndType_value. exact Hs.
Qed.

(** X9. Where a lookup key lands.  Among the entries of its user key, the
    internal key of [LookupKey(u, s)] compares at or below every entry
    written at a sequence number [seq <= s] and strictly above every entry
    with [seq > s]: a seek skips exactly the entries newer than the
    snapshot [s].  For [MVLookupKey(u, s, t)] the first half holds as well,
    while against a newer entry the result is decided by the valid times:
    -1 when [t] is above the entry's valid time, +1 otherwise. *)
Theorem lookup_key_seek_position
    (uc : Comparator) (u : bytes) (s seq : Z) (ty : ValueType) (t vt : Z) :
  Compare uc u u = 0 ->
  0 <= s <= kMaxSequenceNumber -> 0 <= seq <= kMaxSequenceNumber ->
  0 <= t < 2 ^ 64 -> 0 <= vt < 2 ^ 64 ->
  (exists k,
     LookupKey_new u s = Some k
     /\ let e := AppendInternalKey []
                   {| user_key := u; sequence := seq; type := ty |} in
        (seq <= s ->
         InternalKeyComparator_Compare uc false (internal_key k) e <= 0)
        /\ (s < seq ->
            InternalKeyComparator_Compare uc false (internal_key k) e > 0))
  /\ (exists k,
     MVLookupKey_new u s t = Some k
     /\ let e := AppendMVInternalKey []
                   {| mv_user_key := u; mv_sequence := seq; mv_type := ty;
                      valid_time := vt |} in
        (seq <= s ->
         InternalKeyComparator_Compare uc true (internal_key k) e <= 0)
        /\ (s < seq ->
            InternalKeyComparator_Compare uc true (internal_key k) e
            = if t >? vt then -1 else 1)).
Proof.
  intros Hu Hs Hseq Ht Hvt. split.
  - destruct (LookupKey_new_views u s) as (k & Hk & _ & Hi).
    exists k. split; [exact Hk|]. cbv zeta. rewrite Hi.
    destruct (AppendInternalKey_tail
                {| user_key := u; sequence := s; type := kValueTypeForSeek |}
                Hs) as [Ha Hta].
    destruct (AppendInternalKey_tail
                {| user_key := u; sequence := seq; type := ty |} Hseq)
      as [Hb Htb].
    cbn [user_key sequence type] in *.
    rewrite Compare_unfold, Ha, Hb, Hu, Hta, Htb. cbv zeta. simpl Z.eqb.
    cbv iota.
    assert (0 <= ValueType_to_Z ty <= 1) by (destruct ty; simpl; lia).
    change (ValueType_to_Z kValueTypeForSeek) with 1.
    split; intros Hcmp.
    + destruct (Z.gtb_spec (s * 256 + 1) (seq * 256 + ValueType_to_Z ty));
        [lia|].
      destruct (Z.ltb_spec (s * 256 + 1) (seq * 256 + ValueType_to_Z ty));
        lia.
    + destruct (Z.gtb_spec (s * 256 + 1) (seq * 256 + ValueType_to_Z ty));
        [lia|].
      destruct (Z.ltb_spec (s * 256 + 1) (seq * 256 + ValueType_to_Z ty));
        lia.
  - destruct (MVLookupKey_new_views u s t) as (k & Hk & _ & Hi).
    exists k. split; [exact Hk|]. cbv zeta. rewrite Hi.
    destruct (AppendMVInternalKey_tail
                {| mv_user_key := u; mv_sequence := s;
                   mv_type := kValueTypeForSeek; valid_time := t |} Hs Ht)
      as (Ha & Hta & Hva).
    destruct (AppendMVInternalKey_tail
                {| mv_user_key := u; mv_sequence := seq; mv_type := ty;
                   valid_time := vt |} Hseq Hvt) as (Hb & Htb & Hvb).
    cbn [mv_user_key mv_sequence mv_type valid_time] in *.
    rewrite Compare_unfold, Ha, Hb, Hu, Hta, Htb, Hva, Hvb. cbv zeta.
    simpl Z.eqb. cbv iota.
    assert (0 <= ValueType_to_Z ty <= 1) by (destruct ty; simpl; lia).
    change (ValueType_to_Z kValueTypeForSeek) with 1.
    split; intros Hcmp.
    + destruct (Z.gtb_spec (s * 256 + 1) (seq * 256 + ValueType_to_Z ty));
        [lia|].
      destruct (Z.ltb_spec (s * 256 + 1) (seq * 256 + ValueType_to_Z ty));
        lia.
    + destruct (Z.gtb_spec (s * 256 + 1) (seq * 256 + ValueType_to_Z ty));
        [lia|].
      destruct (Z.ltb_spec (s * 256 + 1) (seq * 256 + ValueType_to_Z ty));
        [reflexivity | lia].
Qed.

Lemma lookup_key_seek_position_witness :
  let uc := BytewiseComparator in
  let u := ["k"%byte] in
  (exists k,
     LookupKey_new u 8 = Some k
     /\ let e := AppendInternalKey []
                   {| user_key := u; sequence := 9; type := kTypeValue |} in
        (9 <= 8 ->
         InternalKeyComparator_Compare uc false (internal_key k) e <= 0)
        /\ (8 < 9 ->
            InternalKeyComparator_Compare uc false (internal_key k) e > 0))
  /\ (exists k,
     MVLookupKey_new u 8 5 = Some k
     /\ let e := AppendMVInternalKey []
                   {| mv_user_key := u; mv_sequence := 9;
                      mv_type := kTypeValue; valid_time := 3 |} in
        (9 <= 8 ->
         InternalKeyComparator_Compare uc true (internal_key k) e <= 0)
        /\ (8 < 9 ->
            InternalKeyComparator_Compare uc true (internal_key k) e
            = if 5 >? 3 then -1 else 1)).
Proof.
  apply (lookup_key_seek_position BytewiseComparator ["k"%byte] 8 9
           kTypeValue 5 3);
    try reflexivity; unfold kMaxSequenceNumber; simpl; lia.
Defined.

(** ** The header of a batch *)

Lemma to_int_id (n : Z) : - 2 ^ 31 <= n < 2 ^ 31 -> to_int n = n.
Proof.
  intros Hn. unfold to_int. cbv zeta.
  destruct (Z.ltb_spec (n mod 2 ^ 32) (2 ^ 31)); div_lia.
Qed.

Lemma header_sequence_after_SetCount (rep_ : bytes) (n : Z) :
  (kHeader <= length rep_)%nat ->
  DecodeFixed64 (poke rep_ 8 (EncodeFixed32 n)) = DecodeFixed64 rep_.
Proof.
  intros Hlen. unfold kHeader in Hlen. unfold poke.
  rewrite DecodeFixed64_app by (rewrite length_firstn; lia).
  rewrite <- (firstn_skipn 8 rep_) at 2.
  rewrite DecodeFixed64_app by (rewrite length_firstn; lia).
  reflexivity.
Qed.

Lemma header_sequence_after_SetSequence (rep_ : bytes) (s : Z) :
  DecodeFixed64 (poke rep_ 0 (EncodeFixed64 s)) = to_uint64 s.
Proof.
  unfold poke. rewrite firstn_O, app_nil_l.
  rewrite DecodeFixed64_app by apply EncodeFixed64_length.
  apply DecodeFixed64_EncodeFixed64.
Qed.

(** X10. The two header fields of a single-version batch of at least 12
    bytes are independent: [SetCount] makes [Count] the [int] value of its
    argument (the argument itself when it is an [int]) and leaves the
    sequence, the payload and the size alone; [SetSequence] makes
    [Sequence] the [uint64_t] value of its argument and leaves the count,
    the payload and the size alone. *)
Theorem header_fields_are_independent (b : WriteBatch) (n s : Z) :
  (kHeader <= length b)%nat ->
  let b1 := WriteBatchInternal_SetCount b n in
  let b2 := WriteBatchInternal_SetSequence b s in
  (WriteBatchInternal_Count b1 = to_int n
   /\ (- 2 ^ 31 <= n < 2 ^ 31 -> WriteBatchInternal_Count b1 = n)
   /\ WriteBatchInternal_Sequence b1 = WriteBatchInternal_Sequence b
   /\ skipn kHeader b1 = skipn kHeader b
   /\ WriteBatch_ApproximateSize b1 = WriteBatch_ApproximateSize b)
  /\ (WriteBatchInternal_Sequence b2 = to_uint64 s
   /\ (0 <= s < 2 ^ 64 -> WriteBatchInternal_Sequence b2 = s)
   /\ WriteBatchInternal_Count b2 = WriteBatchInternal_Count b
   /\ skipn kHeader b2 = skipn kHeader b
   /\ WriteBatch_ApproximateSize b2 = WriteBatch_ApproximateSize b).
Proof.
  intros Hlen b1 b2. subst b1 b2.
  unfold WriteBatchInternal_Count, WriteBatchInternal_SetCount,
    WriteBatchInternal_Sequence, WriteBatchInternal_SetSequence,
    WriteBatch_ApproximateSize.
  pose proof (header_count_after_SetCount b [] n Hlen) as Hc.
  rewrite app_nil_r in Hc.
  destruct (poke_header b (EncodeFixed32 n) 8 kHeader
              ltac:(reflexivity) Hlen) as [Hl1 Hp1].
  destruct (poke_header b (EncodeFixed64 s) 0 kHeader
              ltac:(rewrite EncodeFixed64_length; unfold kHeader; lia) Hlen)
    as [Hl2 Hp2].
  split; repeat split; try assumption.
  - intros Hn. rewrite Hc. apply to_int_id. exact Hn.
  - apply header_sequence_after_SetCount. exact Hlen.
  - apply header_sequence_after_SetSequence.
  - intros Hs. rewrite header_sequence_after_SetSequence.
    unfold to_uint64. apply Z.mod_small. exact Hs.
Qed.

Lemma header_fields_are_independent_witness :
  let b1 := WriteBatchInternal_SetCount mixed_batch (-1) in
  let b2 := WriteBatchInternal_SetSequence mixed_batch (2 ^ 64 + 5) in
  (WriteBatchInternal_Count b1 = to_int (-1)
   /\ (- 2 ^ 31 <= -1 < 2 ^ 31 -> WriteBatchInternal_Count b1 = -1)
   /\ WriteBatchInternal_Sequence b1 = WriteBatchInternal_Sequence mixed_batch
   /\ skipn kHeader b1 = skipn kHeader mixed_batch
   /\ WriteBatch_ApproximateSize b1 = WriteBatch_ApproximateSize mixed_batch)
  /\ (WriteBatchInternal_Sequence b2 = to_uint64 (2 ^ 64 + 5)
   /\ (0 <= 2 ^ 64 + 5 < 2 ^ 64 -> WriteBatchInternal_Sequence b2 = 2 ^ 64 + 5)
   /\ WriteBatchInternal_Count b2 = WriteBatchInternal_Count mixed_batch
   /\ skipn kHeader b2 = skipn kHeader mixed_batch
   /\ WriteBatch_ApproximateSize b2 = WriteBatch_ApproximateSize mixed_batch).
Proof.
  apply (header_fields_are_independent mixed_batch (-1) (2 ^ 64 + 5)).
  vm_compute. lia.
Defined.

(** ** How a run of [WriteBatch::Iterate] ends *)

Lemma ReadRecord_stop_message (tag : byte) (input : bytes) (s : Status) :
  ReadRecord tag input = Stop s ->
  s = Corruption
        (if byte_to_Z tag =? 1 then "bad WriteBatch Put"
         else if byte_to_Z tag =? 0 then "bad WriteBatch Delete"
         else "unknown WriteBatch tag").
Proof.
  unfold ReadRecord. cbv zeta. simpl ValueType_to_Z.
  destruct (byte_to_Z tag =? 1).
  - repeat (match goal with
            | |- context [match ?x with _ => _ end] => destruct x
            end); intros Hs; inversion Hs; reflexivity.
  - destruct (byte_to_Z tag =? 0).
    + repeat (match goal with
              | |- context [match ?x with _ => _ end] => destruct x
              end); intros Hs; inversion Hs; reflexivity.
    + intros Hs; inversion Hs; reflexivity.
Qed.

Lemma ReadRecord_at_NoRecordAt (tag : byte) (input : bytes) :
  NoRecordAt EncodesRecord (tag :: input) ->
  exists s, ReadRecord tag input = Stop s.
Proof.
  intros Hbad. destruct (ReadRecord tag input) as [s|r rest] eqn:Hread.
  - exists s. reflexivity.
  - destruct (ReadRecord_sound tag input r rest Hread) as (e & He & Heq).
    exfalso. exact (Hbad e r rest He Heq).
Qed.

(** The status of a run, read off the split of the payload: the count
    check when the records reach the end, and otherwise the message that
    belongs to the byte where a record was expected. *)
Lemma WriteBatch_Iterate_exit (H : Type) (handler : Handler H)
    (rep_ : WriteBatch) (h : H)
    (good : bytes) (recs : list BatchRecord) (bad : bytes) :
  (kHeader <= length rep_)%nat ->
  skipn kHeader rep_ = good ++ bad ->
  Frames EncodesRecord good recs -> NoRecordAt EncodesRecord bad ->
  WriteBatch_Iterate handler rep_ h =
  Some (match bad with
        | [] =>
            if Z.of_nat (length recs) =? WriteBatchInternal_Count rep_
            then OK else Corruption "WriteBatch has wrong count"
        | tag :: _ =>
            Corruption
              (if byte_to_Z tag =? 1 then "bad WriteBatch Put"
               else if byte_to_Z tag =? 0 then "bad WriteBatch Delete"
               else "unknown WriteBatch tag")
        end,
        fold_left (dispatch handler) recs h).
Proof.
  intros Hlen Hsplit Hgood Hbad. unfold WriteBatch_Iterate.
  destruct (Nat.ltb_spec (length rep_) kHeader); [lia|].
  rewrite WriteBatch_IterateLoop_rounds, Hsplit.
  rewrite (rounds_frames ReadRecord (dispatch handler) EncodesRecord
             EncodesRecord_nonempty ReadRecord_sound
             (fun e r rest => ReadRecord_complete e r rest)
             good recs Hgood bad _ 0 h (Nat.le_refl _)).
  simpl Z.add. destruct bad as [|tag input].
  - destruct (length (good ++ [])); simpl;
      destruct (Z.of_nat (length recs) =? WriteBatchInternal_Count rep_);
      reflexivity.
  - rewrite length_app. simpl length. rewrite Nat.add_succ_r.
    cbn [rounds].
    destruct (ReadRecord_at_NoRecordAt tag input Hbad) as (s & Hread).
    rewrite Hread.
    rewrite (ReadRecord_stop_message tag input s Hread). reflexivity.
Qed.

Lemma WriteBatchInternal_InsertInto_exit (M : Type) (mt : MemTable M)
    (rep_ : WriteBatch) (mem : M)
    (good : bytes) (recs : list BatchRecord) (bad : bytes) :
  (kHeader <= length rep_)%nat ->
  skipn kHeader rep_ = good ++ bad ->
  Frames EncodesRecord good recs -> NoRecordAt EncodesRecord bad ->
  exists st,
    WriteBatchInternal_InsertInto mt rep_ mem =
    Some (st,
          fold_left (perform mt)
            (add_calls (WriteBatchInternal_Sequence rep_) recs) mem)
    /\ (st = OK <->
        bad = [] /\ Z.of_nat (length recs) = WriteBatchInternal_Count rep_).
Proof.
  intros Hlen Hsplit Hgood Hbad.
  destruct (WriteBatch_Iterate_split (MemTableInserter mt) rep_
              (WriteBatchInternal_Sequence rep_, mem) good recs bad
              Hlen Hsplit Hgood Hbad) as (st & Hrun & Hst).
  exists st. split; [|exact Hst].
  unfold WriteBatchInternal_InsertInto. cbv zeta. rewrite Hrun. simpl.
  rewrite MemTableInserter_replay. reflexivity.
Qed.

Lemma WriteBatchInternal_InsertInto_short (M : Type) (mt : MemTable M)
    (rep_ : WriteBatch) (mem : M) :
  (length rep_ < kHeader)%nat ->
  WriteBatchInternal_InsertInto mt rep_ mem =
  Some (Corruption "malformed WriteBatch (too small)", mem).
Proof.
  intros Hlen. unfold WriteBatchInternal_InsertInto. cbv zeta.
  rewrite WriteBatch_Iterate_short by exact Hlen. reflexivity.
Qed.

(** ** The same for [WriteBatchMV::Iterate] *)

Lemma ReadRecordMV_stop_message (tag : byte) (input : bytes) (s : Status) :
  ReadRecordMV tag input = Stop s ->
  s = Corruption
        (if byte_to_Z tag =? 1 then "bad WriteBatchMV Put"
         else if byte_to_Z tag =? 0 then "bad WriteBatchMV Delete"
         else "unknown WriteBatchMV tag").
Proof.
  unfold ReadRecordMV. cbv zeta. simpl ValueType_to_Z.
  destruct (byte_to_Z tag =? 1).
  - repeat (match goal with
            | |- context [match ?x with _ => _ end] => destruct x
            end); intros Hs; inversion Hs; reflexivity.
  - destruct (byte_to_Z tag =? 0).
    + repeat (match goal with
              | |- context [match ?x with _ => _ end] => destruct x
              end); intros Hs; inversion Hs; reflexivity.
    + intros Hs; inversion Hs; reflexivity.
Qed.

Lemma ReadRecordMV_at_NoRecordAt (tag : byte) (input : bytes) :
  NoRecordAt EncodesRecordMV (tag :: input) ->
  exists s, ReadRecordMV tag input = Stop s.
Proof.
  intros Hbad. destruct (ReadRecordMV tag input) as [s|r rest] eqn:Hread.
  - exists s. reflexivity.
  - destruct (ReadRecordMV_sound tag input r rest Hread) as (e & He & Heq).
    exfalso. exact (Hbad e r rest He Heq).
Qed.

(** The status of a run, read off the split of the payload: the count
    check when the records reach the end, and otherwise the message that
    belongs to the byte where a record was expected. *)
Lemma WriteBatchMV_Iterate_exit (H : Type) (handler : HandlerMV H)
    (rep_ : WriteBatchMV) (h : H)
    (good : bytes) (recs : list BatchRecordMV) (bad : bytes) :
  (kHeader <= length rep_)%nat ->
  skipn kHeader rep_ = good ++ bad ->
  Frames EncodesRecordMV good recs -> NoRecordAt EncodesRecordMV bad ->
  WriteBatchMV_Iterate handler rep_ h =
  Some (match bad with
        | [] =>
            if Z.of_nat (length recs) =? WriteBatchMVInternal_Count rep_
            then OK else Corruption "WriteBatchMV has wrong count"
        | tag :: _ =>
            Corruption
              (if byte_to_Z tag =? 1 then "bad WriteBatchMV Put"
               else if byte_to_Z tag =? 0 then "bad WriteBatchMV Delete"
               else "unknown WriteBatchMV tag")
        end,
        fold_left (dispatchMV handler) recs h).
Proof.
  intros Hlen Hsplit Hgood Hbad. unfold WriteBatchMV_Iterate.
  destruct (Nat.ltb_spec (length rep_) kHeader); [lia|].
  rewrite WriteBatchMV_IterateLoop_rounds, Hsplit.
  rewrite (rounds_frames ReadRecordMV (dispatchMV handler) EncodesRecordMV
             EncodesRecordMV_nonempty ReadRecordMV_sound
             (fun e r rest => ReadRecordMV_complete e r rest)
             good recs Hgood bad _ 0 h (Nat.le_refl _)).
  simpl Z.add. destruct bad as [|tag input].
  - destruct (length (good ++ [])); simpl;
      destruct (Z.of_nat (length recs) =? WriteBatchMVInternal_Count rep_);
      reflexivity.
  - rewrite length_app. simpl length. rewrite Nat.add_succ_r.
    cbn [rounds].
    destruct (ReadRecordMV_at_NoRecordAt tag input Hbad) as (s & Hread).
    rewrite Hread.
    rewrite (ReadRecordMV_stop_message tag input s Hread). reflexivity.
Qed.

Lemma WriteBatchMVInternal_InsertInto_exit (M : Type) (mt : MemTable M)
    (rep_ : WriteBatchMV) (mem : M)
    (good : bytes) (recs : list BatchRecordMV) (bad : bytes) :
  (kHeader <= length rep_)%nat ->
  skipn kHeader rep_ = good ++ bad ->
  Frames EncodesRecordMV good recs -> NoRecordAt EncodesRecordMV bad ->
  exists st,
    WriteBatchMVInternal_InsertInto mt rep_ mem =
    Some (st,
          fold_left (perform mt)
            (add_callsMV (WriteBatchMVInternal_Sequence rep_) recs) mem)
    /\ (st = OK <->
        bad = [] /\ Z.of_nat (length recs) = WriteBatchMVInternal_Count rep_).
Proof.
  intros Hlen Hsplit Hgood Hbad.
  destruct (WriteBatchMV_Iterate_split (MemTableMVInsertor mt) rep_
              (WriteBatchMVInternal_Sequence rep_, mem) good recs bad
              Hlen Hsplit Hgood Hbad) as (st & Hrun & Hst).
  exists st. split; [|exact Hst].
  unfold WriteBatchMVInternal_InsertInto. cbv zeta. rewrite Hrun. simpl.
  rewrite MemTableMVInsertor_replay. reflexivity.
Qed.

Lemma WriteBatchMVInternal_InsertInto_short (M : Type) (mt : MemTable M)
    (rep_ : WriteBatchMV) (mem : M) :
  (length rep_ < kHeader)%nat ->
  WriteBatchMVInternal_InsertInto mt rep_ mem =
  Some (Corruption "malformed WriteBatchMV (too small)", mem).
Proof.
  intros Hlen. unfold WriteBatchMVInternal_InsertInto. cbv zeta.
  rewrite WriteBatchMV_Iterate_short by exact Hlen. reflexivity.
Qed.

(** ** Replay of a batch that was extended *)

Lemma add_calls_app (l1 l2 : list BatchRecord) (seq : Z) :
  0 <= seq < 2 ^ 64 ->
  add_calls seq (l1 ++ l2) =
  add_calls seq l1 ++ add_calls (to_uint64 (seq + Z.of_nat (length l1))) l2.
Proof.
  revert seq. induction l1 as [|r l1 IH]; intros seq Hseq.
  - simpl. rewrite Z.add_0_r. unfold to_uint64.
    rewrite Z.mod_small by exact Hseq. reflexivity.
  - simpl app. cbn [add_calls]. f_equal.
    rewrite IH by (unfold to_uint64; apply Z.mod_pos_bound; lia).
    f_equal. f_equal. unfold to_uint64.
    rewrite Zplus_mod_idemp_l. f_equal. simpl length. lia.
Qed.

Lemma DecodeFixed64_prefix (a r : bytes) :
  (8 <= length a)%nat -> DecodeFixed64 (a ++ r) = DecodeFixed64 a.
Proof.
  intros Hlen. rewrite <- (firstn_skipn 8 a) at 1. rewrite <- app_assoc.
  rewrite DecodeFixed64_app by (rewrite length_firstn; lia).
  rewrite <- (firstn_skipn 8 a) at 2.
  rewrite DecodeFixed64_app by (rewrite length_firstn; lia).
  reflexivity.
Qed.

Lemma WriteBatchInternal_Sequence_extended (rep_ tail : bytes) (n : Z) :
  (kHeader <= length rep_)%nat ->
  WriteBatchInternal_Sequence (WriteBatchInternal_SetCount rep_ n ++ tail) =
  WriteBatchInternal_Sequence rep_.
Proof.
  intros Hlen. unfold WriteBatchInternal_Sequence, WriteBatchInternal_SetCount.
  destruct (poke_header rep_ (EncodeFixed32 n) 8 kHeader
              ltac:(reflexivity) Hlen) as [Hl _].
  rewrite DecodeFixed64_prefix by (unfold kHeader in Hlen; lia).
  apply header_sequence_after_SetCount. exact Hlen.
Qed.

(** The memtable after replaying a well-formed batch that was extended by
    more records: they are added last, from the header sequence plus the
    old count on. *)
Lemma WriteBatchInternal_InsertInto_appended (M : Type) (mt : MemTable M)
    (rep_ rep' : WriteBatch) (rd rs : list BatchRecord) (mem : M) :
  WellFormed rep_ rd -> WellFormed rep' (rd ++ rs) ->
  WriteBatchInternal_Sequence rep' = WriteBatchInternal_Sequence rep_ ->
  exists m,
    WriteBatchInternal_InsertInto mt rep_ mem = Some (OK, m)
    /\ WriteBatchInternal_InsertInto mt rep' mem =
       Some (OK,
             fold_left (perform mt)
               (add_calls
                  (to_uint64 (WriteBatchInternal_Sequence rep_
                              + WriteBatchInternal_Count rep_)) rs) m).
Proof.
  intros Hwf Hwf' Hseq. eexists. split.
  - apply WriteBatchInternal_InsertInto_WellFormed. exact Hwf.
  - rewrite (WriteBatchInternal_InsertInto_WellFormed mt rep' _ mem Hwf').
    rewrite Hseq, add_calls_app by apply DecodeFixed64_range.
    rewrite fold_left_app. destruct Hwf as (_ & _ & <-). reflexivity.
Qed.

(** ** Replay of an MV batch that was extended *)

Lemma add_callsMV_app (l1 l2 : list BatchRecordMV) (seq : Z) :
  0 <= seq < 2 ^ 64 ->
  add_callsMV seq (l1 ++ l2) =
  add_callsMV seq l1 ++ add_callsMV (to_uint64 (seq + Z.of_nat (length l1))) l2.
Proof.
  revert seq. induction l1 as [|r l1 IH]; intros seq Hseq.
  - simpl. rewrite Z.add_0_r. unfold to_uint64.
    rewrite Z.mod_small by exact Hseq. reflexivity.
  - simpl app. cbn [add_callsMV]. f_equal.
    rewrite IH by (unfold to_uint64; apply Z.mod_pos_bound; lia).
    f_equal. f_equal. unfold to_uint64.
    rewrite Zplus_mod_idemp_l. f_equal. simpl length. lia.
Qed.

Lemma WriteBatchMVInternal_Sequence_extended (rep_ tail : bytes) (n : Z) :
  (kHeader <= length rep_)%nat ->
  WriteBatchMVInternal_Sequence (WriteBatchMVInternal_SetCount rep_ n ++ tail) =
  WriteBatchMVInternal_Sequence rep_.
Proof.
  intros Hlen.
  unfold WriteBatchMVInternal_Sequence, WriteBatchMVInternal_SetCount.
  destruct (poke_header rep_ (EncodeFixed32 n) 8 kHeader
              ltac:(reflexivity) Hlen) as [Hl _].
  rewrite DecodeFixed64_prefix by (unfold kHeader in Hlen; lia).
  apply header_sequence_after_SetCount. exact Hlen.
Qed.

Lemma WriteBatchMVInternal_InsertInto_appended (M : Type) (mt : MemTable M)
    (rep_ rep' : WriteBatchMV) (rd rs : list BatchRecordMV) (mem : M) :
  WellFormedMV rep_ rd -> WellFormedMV rep' (rd ++ rs) ->
  WriteBatchMVInternal_Sequence rep' = WriteBatchMVInternal_Sequence rep_ ->
  exists m,
    WriteBatchMVInternal_InsertInto mt rep_ mem = Some (OK, m)
    /\ WriteBatchMVInternal_InsertInto mt rep' mem =
       Some (OK,
             fold_left (perform mt)
               (add_callsMV
                  (to_uint64 (WriteBatchMVInternal_Sequence rep_
                              + WriteBatchMVInternal_Count rep_)) rs) m).
Proof.
  intros Hwf Hwf' Hseq. eexists. split.
  - apply WriteBatchMVInternal_InsertInto_WellFormed. exact Hwf.
  - rewrite (WriteBatchMVInternal_InsertInto_WellFormed mt rep' _ mem Hwf').
    rewrite Hseq, add_callsMV_app by apply DecodeFixed64_range.
    rewrite fold_left_app. destruct Hwf as (_ & _ & <-). reflexivity.
Qed.

(** ** What the batch functions do at their edges *)

Lemma WriteBatch_Put_Sequence (rep_ : WriteBatch) (key value : bytes) :
  (kHeader <= length rep_)%nat ->
  WriteBatchInternal_Sequence (WriteBatch_Put rep_ key value) =
  WriteBatchInternal_Sequence rep_.
Proof.
  intros Hlen. unfold WriteBatch_Put, PutLengthPrefixedSlice, PutVarint32.
  cbv zeta. rewrite <- !app_assoc.
  apply WriteBatchInternal_Sequence_extended. exact Hlen.
Qed.

Lemma WriteBatch_Delete_Sequence (rep_ : WriteBatch) (key : bytes) :
  (kHeader <= length rep_)%nat ->
  WriteBatchInternal_Sequence (WriteBatch_Delete rep_ key) =
  WriteBatchInternal_Sequence rep_.
Proof.
  intros Hlen. unfold WriteBatch_Delete, PutLengthPrefixedSlice, PutVarint32.
  cbv zeta. rewrite <- !app_assoc.
  apply WriteBatchInternal_Sequence_extended. exact Hlen.
Qed.

Lemma WriteBatchMV_Put_Sequence (rep_ : WriteBatchMV) (key : bytes) (vt : Z)
    (value : bytes) :
  (kHeader <= length rep_)%nat ->
  WriteBatchMVInternal_Sequence (WriteBatchMV_Put rep_ key vt value) =
  WriteBatchMVInternal_Sequence rep_.
Proof.
  intros Hlen.
  unfold WriteBatchMV_Put, PutLengthPrefixedSlice, PutVarint32, PutFixed64.
  cbv zeta. rewrite <- !app_assoc.
  apply WriteBatchMVInternal_Sequence_extended. exact Hlen.
Qed.

Lemma WriteBatchMV_Delete_Sequence (rep_ : WriteBatchMV) (key : bytes)
    (vt : Z) :
  (kHeader <= length rep_)%nat ->
  WriteBatchMVInternal_Sequence (WriteBatchMV_Delete rep_ key vt) =
  WriteBatchMVInternal_Sequence rep_.
Proof.
  intros Hlen.
  unfold WriteBatchMV_Delete, PutLengthPrefixedSlice, PutVarint32, PutFixed64.
  cbv zeta. rewrite <- !app_assoc.
  apply WriteBatchMVInternal_Sequence_extended. exact Hlen.
Qed.

Lemma torn_batch_split :
  skipn kHeader torn_batch = skipn kHeader mixed_batch ++ [x7f]
  /\ Frames EncodesRecord (skipn kHeader mixed_batch) mixed_records
  /\ NoRecordAt EncodesRecord [x7f].
Proof.
  split; [reflexivity|]. split; [apply mixed_batch_WellFormed|].
  apply (NoRecordAt_stop ReadRecord EncodesRecord
           (fun e r rest => ReadRecord_complete e r rest) x7f []
           (Corruption "unknown WriteBatch tag")).
  reflexivity.
Qed.

Lemma torn_batchMV_split :
  skipn kHeader torn_batchMV = skipn kHeader mixed_batchMV ++ [x7f]
  /\ Frames EncodesRecordMV (skipn kHeader mixed_batchMV) mixed_recordsMV
  /\ NoRecordAt EncodesRecordMV [x7f].
Proof.
  split; [reflexivity|]. split; [apply mixed_batchMV_WellFormed|].
  apply (NoRecordAt_stop ReadRecordMV EncodesRecordMV
           (fun e r rest => ReadRecordMV_complete e r rest) x7f []
           (Corruption "unknown WriteBatchMV tag")).
  reflexivity.
Qed.

(** X11. Which [Corruption] a run of [Iterate] returns, for either batch
    kind.  A buffer shorter than the header is "too small", with no handler
    call.  Otherwise take any split of the payload into a sequence of
    records and a rest at which no record starts: when the rest is empty
    the run ends by the count check, [OK] when the number of records is the
    header count and "wrong count" when it is not; when the rest starts
    with the byte [tag], the message is "bad Put" for [tag = 1], "bad
    Delete" for [tag = 0], and "unknown tag" for every other byte.  In each
    case the handler has received the records of the split. *)
Theorem iterate_names_the_failure :
  (forall (H : Type) (handler : Handler H) (rep_ : WriteBatch) (h : H),
     ((length rep_ < kHeader)%nat ->
      WriteBatch_Iterate handler rep_ h =
      Some (Corruption "malformed WriteBatch (too small)", h))
     /\ (forall good recs bad,
           (kHeader <= length rep_)%nat ->
           skipn kHeader rep_ = good ++ bad ->
           Frames EncodesRecord good recs ->
           NoRecordAt EncodesRecord bad ->
           WriteBatch_Iterate handler rep_ h =
           Some (match bad with
                 | [] =>
                     if Z.of_nat (length recs)
                        =? WriteBatchInternal_Count rep_
                     then OK
                     else Corruption "WriteBatch has wrong count"
                 | tag :: _ =>
                     Corruption
                       (if byte_to_Z tag =? 1 then "bad WriteBatch Put"
                        else if byte_to_Z tag =? 0
                        then "bad WriteBatch Delete"
                        else "unknown WriteBatch tag")
                 end,
                 fold_left (dispatch handler) recs h)))
  /\ (forall (H : Type) (handler : HandlerMV H) (rep_ : WriteBatchMV) (h : H),
     ((length rep_ < kHeader)%nat ->
      WriteBatchMV_Iterate handler rep_ h =
      Some (Corruption "malformed WriteBatchMV (too small)", h))
     /\ (forall good recs bad,
           (kHeader <= length rep_)%nat ->
           skipn kHeader rep_ = good ++ bad ->
           Frames EncodesRecordMV good recs ->
           NoRecordAt EncodesRecordMV bad ->
           WriteBatchMV_Iterate handler rep_ h =
           Some (match bad with
                 | [] =>
                     if Z.of_nat (length recs)
                        =? WriteBatchMVInternal_Count rep_
                     then OK
                     else Corruption "WriteBatchMV has wrong count"
                 | tag :: _ =>
                     Corruption
                       (if byte_to_Z tag =? 1 then "bad WriteBatchMV Put"
                        else if byte_to_Z tag =? 0
                        then "bad WriteBatchMV Delete"
                        else "unknown WriteBatchMV tag")
                 end,
                 fold_left (dispatchMV handler) recs h))).
Proof.
  split; intros H handler rep_ h; split.
  - apply WriteBatch_Iterate_short.
  - intros good recs bad. apply WriteBatch_Iterate_exit.
  - apply WriteBatchMV_Iterate_short.
  - intros good recs bad. apply WriteBatchMV_Iterate_exit.
Qed.

Lemma iterate_names_the_failure_witness :
  WriteBatch_Iterate Recorder torn_batch [] =
  Some (Corruption "unknown WriteBatch tag", mixed_records)
  /\ WriteBatchMV_Iterate RecorderMV
       (WriteBatchMVInternal_SetCount mixed_batchMV 5) [] =
     Some (Corruption "WriteBatchMV has wrong count", mixed_recordsMV).
Proof.
  split.
  - exact (proj2 (proj1 iterate_names_the_failure _ Recorder torn_batch [])
             (skipn kHeader mixed_batch) mixed_records [x7f]
             ltac:(vm_compute; lia)
             (proj1 torn_batch_split)
             (proj1 (proj2 torn_batch_split))
             (proj2 (proj2 torn_batch_split))).
  - exact (proj2 (proj2 iterate_names_the_failure _ RecorderMV
                    (WriteBatchMVInternal_SetCount mixed_batchMV 5) [])
             (skipn kHeader mixed_batchMV) mixed_recordsMV []
             ltac:(vm_compute; lia)
             ltac:(vm_compute; reflexivity)
             (proj1 (proj2 torn_batchMV_split))
             (NoRecordAt_nil EncodesRecordMV EncodesRecordMV_nonempty)).
Defined.

(** X12. [InsertInto] does not roll back.  For either batch kind: on a
    buffer shorter than the header it returns "too small" and the memtable
    is untouched; otherwise, for any split of the payload into a sequence
    of records and a rest at which no record starts, the memtable has
    received the [Add] calls ([AddMV] for MV) of exactly those records, at
    consecutive sequence numbers from the header sequence on, whatever the
    status; and the status is [OK] exactly when the rest is empty and the
    number of records is the header count. *)
Theorem insert_into_keeps_the_good_prefix :
  (forall (M : Type) (mt : MemTable M) (rep_ : WriteBatch) (mem : M),
     ((length rep_ < kHeader)%nat ->
      WriteBatchInternal_InsertInto mt rep_ mem =
      Some (Corruption "malformed WriteBatch (too small)", mem))
     /\ (forall good recs bad,
           (kHeader <= length rep_)%nat ->
           skipn kHeader rep_ = good ++ bad ->
           Frames EncodesRecord good recs ->
           NoRecordAt EncodesRecord bad ->
           exists st,
             WriteBatchInternal_InsertInto mt rep_ mem =
             Some (st,
                   fold_left (perform mt)
                     (add_calls (WriteBatchInternal_Sequence rep_) recs) mem)
             /\ (st = OK <->
                 bad = []
                 /\ Z.of_nat (length recs) = WriteBatchInternal_Count rep_)))
  /\ (forall (M : Type) (mt : MemTable M) (rep_ : WriteBatchMV) (mem : M),
     ((length rep_ < kHeader)%nat ->
      WriteBatchMVInternal_InsertInto mt rep_ mem =
      Some (Corruption "malformed WriteBatchMV (too small)", mem))
     /\ (forall good recs bad,
           (kHeader <= length rep_)%nat ->
           skipn kHeader rep_ = good ++ bad ->
           Frames EncodesRecordMV good recs ->
           NoRecordAt EncodesRecordMV bad ->
           exists st,
             WriteBatchMVInternal_InsertInto mt rep_ mem =
             Some (st,
                   fold_left (perform mt)
                     (add_callsMV (WriteBatchMVInternal_Sequence rep_) recs)
                     mem)
             /\ (st = OK <->
                 bad = []
                 /\ Z.of_nat (length recs)
                    = WriteBatchMVInternal_Count rep_))).
Proof.
  split; intros M mt rep_ mem; split.
  - apply WriteBatchInternal_InsertInto_short.
  - intros good recs bad. apply WriteBatchInternal_InsertInto_exit.
  - apply WriteBatchMVInternal_InsertInto_short.
  - intros good recs bad. apply WriteBatchMVInternal_InsertInto_exit.
Qed.

Lemma insert_into_keeps_the_good_prefix_witness :
  (exists st,
     WriteBatchInternal_InsertInto CallLog torn_batch [] =
     Some (st, fold_left (perform CallLog) (add_calls 7 mixed_records) [])
     /\ (st = OK <->
         [x7f] = []
         /\ Z.of_nat (length mixed_records)
            = WriteBatchInternal_Count torn_batch))
  /\ (exists st,
     WriteBatchMVInternal_InsertInto CallLog torn_batchMV [] =
     Some (st, fold_left (perform CallLog) (add_callsMV 500 mixed_recordsMV) [])
     /\ (st = OK <->
         [x7f] = []
         /\ Z.of_nat (length mixed_recordsMV)
            = WriteBatchMVInternal_Count torn_batchMV)).
Proof.
  split.
  - exact (proj2 (proj1 insert_into_keeps_the_good_prefix _ CallLog
                    torn_batch [])
             (skipn kHeader mixed_batch) mixed_records [x7f]
             ltac:(vm_compute; lia)
             (proj1 torn_batch_split)
             (proj1 (proj2 torn_batch_split))
             (proj2 (proj2 torn_batch_split))).
  - exact (proj2 (proj2 insert_into_keeps_the_good_prefix _ CallLog
                    torn_batchMV [])
             (skipn kHeader mixed_batchMV) mixed_recordsMV [x7f]
             ltac:(vm_compute; lia)
             (proj1 torn_batchMV_split)
             (proj1 (proj2 torn_batchMV_split))
             (proj2 (proj2 torn_batchMV_split))).
Defined.

(** X13. A record written by [Put] or [Delete] is replayed last.  For a
    well-formed single-version batch whose replay leaves the memtable [m],
    the replay of the batch after [Put(key, value)] is that replay followed
    by [Add(seq + count, kTypeValue, key, value)], and after [Delete(key)]
    by [Add(seq + count, kTypeDeletion, key, empty)], with the header
    sequence and count of the batch before the call (strings shorter than
    2^32 bytes, count below 2^31 - 1); neither call changes the header
    sequence. *)
Theorem put_is_replayed_last
    (M : Type) (mt : MemTable M) (b : WriteBatch) (recs : list BatchRecord)
    (mem : M) (key value : bytes) :
  WellFormed b recs ->
  Z.of_nat (length key) < 2 ^ 32 -> Z.of_nat (length value) < 2 ^ 32 ->
  Z.of_nat (length recs) + 1 < 2 ^ 31 ->
  let seq :=
    to_uint64 (WriteBatchInternal_Sequence b + WriteBatchInternal_Count b) in
  exists m,
    WriteBatchInternal_InsertInto mt b mem = Some (OK, m)
    /\ WriteBatchInternal_InsertInto mt (WriteBatch_Put b key value) mem =
       Some (OK, Add mt m seq kTypeValue key value)
    /\ WriteBatchInternal_InsertInto mt (WriteBatch_Delete b key) mem =
       Some (OK, Add mt m seq kTypeDeletion key [])
    /\ WriteBatchInternal_Sequence (WriteBatch_Put b key value) =
       WriteBatchInternal_Sequence b
    /\ WriteBatchInternal_Sequence (WriteBatch_Delete b key) =
       WriteBatchInternal_Sequence b.
Proof.
  intros Hwf Hk Hv Hn seq. pose proof Hwf as (Hlen & _).
  pose proof (WriteBatch_Put_Sequence b key value Hlen) as HsP.
  pose proof (WriteBatch_Delete_Sequence b key Hlen) as HsD.
  destruct (WriteBatchInternal_InsertInto_appended M mt b _ recs _ mem Hwf
              (WriteBatch_Put_WellFormed b recs key value Hwf Hk Hv Hn) HsP)
    as (m & Hm & HP).
  destruct (WriteBatchInternal_InsertInto_appended M mt b _ recs _ mem Hwf
              (WriteBatch_Delete_WellFormed b recs key Hwf Hk Hn) HsD)
    as (m' & Hm' & HD).
  assert (m' = m) as -> by congruence.
  exists m. split; [exact Hm|]. split; [exact HP|]. split; [exact HD|].
  split; assumption.
Qed.

Lemma put_is_replayed_last_witness :
  exists m,
    WriteBatchInternal_InsertInto CallLog mixed_batch [] = Some (OK, m)
    /\ WriteBatchInternal_InsertInto CallLog
         (WriteBatch_Put mixed_batch ["d"%byte] ["4"%byte]) [] =
       Some (OK, Add CallLog m 10 kTypeValue ["d"%byte] ["4"%byte])
    /\ WriteBatchInternal_InsertInto CallLog
         (WriteBatch_Delete mixed_batch ["d"%byte]) [] =
       Some (OK, Add CallLog m 10 kTypeDeletion ["d"%byte] [])
    /\ WriteBatchInternal_Sequence
         (WriteBatch_Put mixed_batch ["d"%byte] ["4"%byte]) =
       WriteBatchInternal_Sequence mixed_batch
    /\ WriteBatchInternal_Sequence (WriteBatch_Delete mixed_batch ["d"%byte]) =
       WriteBatchInternal_Sequence mixed_batch.
Proof.
  apply (put_is_replayed_last _ CallLog mixed_batch mixed_records []
           ["d"%byte] ["4"%byte] mixed_batch_WellFormed);
    vm_compute; reflexivity.
Defined.

(** X14. The same for MV batches: the record of [Put(key, vt, value)] or
    [Delete(key, vt)] is replayed last, by [AddMV] at the header sequence
    plus the old count, and carries the valid time [vt] (a [uint64_t]). *)
Theorem mv_put_is_replayed_last
    (M : Type) (mt : MemTable M) (b : WriteBatchMV)
    (recs : list BatchRecordMV) (mem : M) (key : bytes) (vt : Z)
    (value : bytes) :
  WellFormedMV b recs ->
  Z.of_nat (length key) < 2 ^ 32 -> 0 <= vt < 2 ^ 64 ->
  Z.of_nat (length value) < 2 ^ 32 ->
  Z.of_nat (length recs) + 1 < 2 ^ 31 ->
  let seq :=
    to_uint64
      (WriteBatchMVInternal_Sequence b + WriteBatchMVInternal_Count b) in
  exists m,
    WriteBatchMVInternal_InsertInto mt b mem = Some (OK, m)
    /\ WriteBatchMVInternal_InsertInto mt (WriteBatchMV_Put b key vt value) mem
       = Some (OK, AddMV mt m seq kTypeValue key vt value)
    /\ WriteBatchMVInternal_InsertInto mt (WriteBatchMV_Delete b key vt) mem
       = Some (OK, AddMV mt m seq kTypeDeletion key vt [])
    /\ WriteBatchMVInternal_Sequence (WriteBatchMV_Put b key vt value) =
       WriteBatchMVInternal_Sequence b
    /\ WriteBatchMVInternal_Sequence (WriteBatchMV_Delete b key vt) =
       WriteBatchMVInternal_Sequence b.
Proof.
  intros Hwf Hk Hvt Hv Hn seq. pose proof Hwf as (Hlen & _).
  pose proof (WriteBatchMV_Put_Sequence b key vt value Hlen) as HsP.
  pose proof (WriteBatchMV_Delete_Sequence b key vt Hlen) as HsD.
  destruct (WriteBatchMVInternal_InsertInto_appended M mt b _ recs _ mem Hwf
              (WriteBatchMV_Put_WellFormed b recs key vt value Hwf Hk Hvt Hv
                 Hn) HsP)
    as (m & Hm & HP).
  destruct (WriteBatchMVInternal_InsertInto_appended M mt b _ recs _ mem Hwf
              (WriteBatchMV_Delete_WellFormed b recs key vt Hwf Hk Hvt Hn)
              HsD)
    as (m' & Hm' & HD).
  assert (m' = m) as -> by congruence.
  exists m. split; [exact Hm|]. split; [exact HP|]. split; [exact HD|].
  split; assumption.
Qed.

Lemma mv_put_is_replayed_last_witness :
  exists m,
    WriteBatchMVInternal_InsertInto CallLog mixed_batchMV [] = Some (OK, m)
    /\ WriteBatchMVInternal_InsertInto CallLog
         (WriteBatchMV_Put mixed_batchMV ["d"%byte] 44 ["4"%byte]) [] =
       Some (OK, AddMV CallLog m 502 kTypeValue ["d"%byte] 44 ["4"%byte])
    /\ WriteBatchMVInternal_InsertInto CallLog
         (WriteBatchMV_Delete mixed_batchMV ["d"%byte] 44) [] =
       Some (OK, AddMV CallLog m 502 kTypeDeletion ["d"%byte] 44 [])
    /\ WriteBatchMVInternal_Sequence
         (WriteBatchMV_Put mixed_batchMV ["d"%byte] 44 ["4"%byte]) =
       WriteBatchMVInternal_Sequence mixed_batchMV
    /\ WriteBatchMVInternal_Sequence
         (WriteBatchMV_Delete mixed_batchMV ["d"%byte] 44) =
       WriteBatchMVInternal_Sequence mixed_batchMV.
Proof.
  apply (mv_put_is_replayed_last _ CallLog mixed_batchMV mixed_recordsMV []
           ["d"%byte] 44 ["4"%byte] mixed_batchMV_WellFormed);
    [vm_compute; reflexivity | lia | vm_compute; reflexivity
    | vm_compute; reflexivity].
Defined.

(** X15. [Append] renumbers the records of its source.  For well-formed
    batches [dst] and [src] of either kind whose counts add up to less than
    2^31, replaying [Append(dst, src)] is replaying [dst] and then the
    records of [src] at the sequence numbers that follow those of [dst]:
    the first at the header sequence of [dst] plus its count.  The header
    sequence of [src] is not used. *)
Theorem append_renumbers_the_source :
  (forall (M : Type) (mt : MemTable M) (dst src : WriteBatch)
          (rd rs : list BatchRecord) (mem : M),
     WellFormed dst rd -> WellFormed src rs ->
     Z.of_nat (length rd) + Z.of_nat (length rs) < 2 ^ 31 ->
     exists m,
       WriteBatchInternal_InsertInto mt dst mem = Some (OK, m)
       /\ WriteBatchInternal_InsertInto mt (WriteBatch_Append dst src) mem =
          Some (OK,
                fold_left (perform mt)
                  (add_calls
                     (to_uint64 (WriteBatchInternal_Sequence dst
                                 + WriteBatchInternal_Count dst)) rs) m))
  /\ (forall (M : Type) (mt : MemTable M) (dst src : WriteBatchMV)
          (rd rs : list BatchRecordMV) (mem : M),
     WellFormedMV dst rd -> WellFormedMV src rs ->
     Z.of_nat (length rd) + Z.of_nat (length rs) < 2 ^ 31 ->
     exists m,
       WriteBatchMVInternal_InsertInto mt dst mem = Some (OK, m)
       /\ WriteBatchMVInternal_InsertInto mt (WriteBatchMV_Append dst src) mem
          = Some (OK,
                  fold_left (perform mt)
                    (add_callsMV
                       (to_uint64 (WriteBatchMVInternal_Sequence dst
                                   + WriteBatchMVInternal_Count dst)) rs) m)).
Proof.
  split; intros M mt dst src rd rs mem Hd Hs Hn.
  - apply (WriteBatchInternal_InsertInto_appended M mt dst _ rd rs mem Hd).
    + apply WriteBatch_Append_WellFormed; assumption.
    + apply WriteBatchInternal_Sequence_extended. apply Hd.
  - apply (WriteBatchMVInternal_InsertInto_appended M mt dst _ rd rs mem Hd).
    + apply WriteBatchMV_Append_WellFormed; assumption.
    + apply WriteBatchMVInternal_Sequence_extended. apply Hd.
Qed.

Lemma append_renumbers_the_source_witness :
  (exists m,
     WriteBatchInternal_InsertInto CallLog mixed_batch [] = Some (OK, m)
     /\ WriteBatchInternal_InsertInto CallLog
          (WriteBatch_Append mixed_batch mixed_batch) [] =
        Some (OK,
              fold_left (perform CallLog) (add_calls 10 mixed_records) m))
  /\ (exists m,
     WriteBatchMVInternal_InsertInto CallLog mixed_batchMV [] = Some (OK, m)
     /\ WriteBatchMVInternal_InsertInto CallLog
          (WriteBatchMV_Append mixed_batchMV mixed_batchMV) [] =
        Some (OK,
              fold_left (perform CallLog) (add_callsMV 502 mixed_recordsMV)
                m)).
Proof.
  split.
  - apply (proj1 append_renumbers_the_source _ CallLog mixed_batch
             mixed_batch mixed_records mixed_records []
             mixed_batch_WellFormed mixed_batch_WellFormed).
    simpl. lia.
  - apply (proj2 append_renumbers_the_source _ CallLog mixed_batchMV
             mixed_batchMV mixed_recordsMV mixed_recordsMV []
             mixed_batchMV_WellFormed mixed_batchMV_WellFormed).
    simpl. lia.
Defined.

(** X16. [WriteBatchMV::Append], as X5 for [WriteBatch::Append]: the size
    is [size(dst) + size(src) - 12], the header count the sum of the two
    counts, the header sequence that of [dst], and iterating yields the
    records of [dst] followed by those of [src]. *)
Theorem mv_append_concatenates_records
    (dst src : WriteBatchMV) (rd rs : list BatchRecordMV) :
  WellFormedMV dst rd -> WellFormedMV src rs ->
  Z.of_nat (length rd) + Z.of_nat (length rs) < 2 ^ 31 ->
  let b := WriteBatchMV_Append dst src in
  WriteBatchMV_ApproximateSize b
  = (WriteBatchMV_ApproximateSize dst + WriteBatchMV_ApproximateSize src
     - 12)%nat
  /\ WriteBatchMVInternal_Count b
     = WriteBatchMVInternal_Count dst + WriteBatchMVInternal_Count src
  /\ WriteBatchMVInternal_Sequence b = WriteBatchMVInternal_Sequence dst
  /\ WriteBatchMV_Iterate RecorderMV b [] = Some (OK, rd ++ rs).
Proof.
  intros Hd Hs Hn b. subst b.
  destruct (WriteBatchMV_Append_WellFormed dst src rd rs Hd Hs Hn)
    as [Hwf Hlen].
  split; [exact Hlen|]. split; [|split].
  - destruct Hwf as (_ & _ & <-). destruct Hd as (_ & _ & <-).
    destruct Hs as (_ & _ & <-). rewrite length_app. lia.
  - apply WriteBatchMVInternal_Sequence_extended. apply Hd.
  - apply RecorderMV_WellFormed. exact Hwf.
Qed.

Lemma mv_append_concatenates_records_witness :
  let b := WriteBatchMV_Append mixed_batchMV mixed_batchMV in
  WriteBatchMV_ApproximateSize b
  = (WriteBatchMV_ApproximateSize mixed_batchMV
     + WriteBatchMV_ApproximateSize mixed_batchMV - 12)%nat
  /\ WriteBatchMVInternal_Count b
     = WriteBatchMVInternal_Count mixed_batchMV
       + WriteBatchMVInternal_Count mixed_batchMV
  /\ WriteBatchMVInternal_Sequence b
     = WriteBatchMVInternal_Sequence mixed_batchMV
  /\ WriteBatchMV_Iterate RecorderMV b [] =
     Some (OK, mixed_recordsMV ++ mixed_recordsMV).
Proof.
  apply (mv_append_concatenates_records mixed_batchMV mixed_batchMV
           mixed_recordsMV mixed_recordsMV).
  - exact mixed_batchMV_WellFormed.
  - exact mixed_batchMV_WellFormed.
  - simpl. lia.
Defined.

(** X17. The header fields of an MV batch of at least 12 bytes are
    independent, as those of a single-version batch (X10). *)
Theorem mv_header_fields_are_independent (b : WriteBatchMV) (n s : Z) :
  (kHeader <= length b)%nat ->
  let b1 := WriteBatchMVInternal_SetCount b n in
  let b2 := WriteBatchMVInternal_SetSequence b s in
  (WriteBatchMVInternal_Count b1 = to_int n
   /\ (- 2 ^ 31 <= n < 2 ^ 31 -> WriteBatchMVInternal_Count b1 = n)
   /\ WriteBatchMVInternal_Sequence b1 = WriteBatchMVInternal_Sequence b
   /\ skipn kHeader b1 = skipn kHeader b
   /\ WriteBatchMV_ApproximateSize b1 = WriteBatchMV_ApproximateSize b)
  /\ (WriteBatchMVInternal_Sequence b2 = to_uint64 s
   /\ (0 <= s < 2 ^ 64 -> WriteBatchMVInternal_Sequence b2 = s)
   /\ WriteBatchMVInternal_Count b2 = WriteBatchMVInternal_Count b
   /\ skipn kHeader b2 = skipn kHeader b
   /\ WriteBatchMV_ApproximateSize b2 = WriteBatchMV_ApproximateSize b).
Proof.
  intros Hlen b1 b2. subst b1 b2.
  unfold WriteBatchMVInternal_Count, WriteBatchMVInternal_SetCount,
    WriteBatchMVInternal_Sequence, WriteBatchMVInternal_SetSequence,
    WriteBatchMV_ApproximateSize.
  pose proof (header_count_after_SetCount b [] n Hlen) as Hc.
  rewrite app_nil_r in Hc.
  destruct (poke_header b (EncodeFixed32 n) 8 kHeader
              ltac:(reflexivity) Hlen) as [Hl1 Hp1].
  destruct (poke_header b (EncodeFixed64 s) 0 kHeader
              ltac:(rewrite EncodeFixed64_length; unfold kHeader; lia) Hlen)
    as [Hl2 Hp2].
  split; repeat split; try assumption.
  - intros Hn. rewrite Hc. apply to_int_id. exact Hn.
  - apply header_sequence_after_SetCount. exact Hlen.
  - apply header_sequence_after_SetSequence.
  - intros Hs. rewrite header_sequence_after_SetSequence.
    unfold to_uint64. apply Z.mod_small. exact Hs.
Qed.

Lemma mv_header_fields_are_independent_witness :
  let b := mixed_batchMV in
  let b1 := WriteBatchMVInternal_SetCount b (2 ^ 31) in
  let b2 := WriteBatchMVInternal_SetSequence b (-1) in
  (WriteBatchMVInternal_Count b1 = to_int (2 ^ 31)
   /\ (- 2 ^ 31 <= 2 ^ 31 < 2 ^ 31 -> WriteBatchMVInternal_Count b1 = 2 ^ 31)
   /\ WriteBatchMVInternal_Sequence b1 = WriteBatchMVInternal_Sequence b
   /\ skipn kHeader b1 = skipn kHeader b
   /\ WriteBatchMV_ApproximateSize b1 = WriteBatchMV_ApproximateSize b)
  /\ (WriteBatchMVInternal_Sequence b2 = to_uint64 (-1)
   /\ (0 <= -1 < 2 ^ 64 -> WriteBatchMVInternal_Sequence b2 = -1)
   /\ WriteBatchMVInternal_Count b2 = WriteBatchMVInternal_Count b
   /\ skipn kHeader b2 = skipn kHeader b
   /\ WriteBatchMV_ApproximateSize b2 = WriteBatchMV_ApproximateSize b).
Proof.
  apply (mv_header_fields_are_independent mixed_batchMV (2 ^ 31) (-1)).
  vm_compute. lia.
Defined.

(** ** The filter-policy adapter *)

Lemma assign_middle (A : Type) (pre post : list A) (x y : A) :
  assign (pre ++ x :: post) (length pre) y = pre ++ y :: post.
Proof.
  unfold assign.
  destruct (Nat.ltb_spec (length pre) (length (pre ++ x :: post))) as [_|H].
  - rewrite firstn_app, firstn_all, Nat.sub_diag, firstn_O, app_nil_r.
    rewrite skipn_app, skipn_all2 by lia.
    replace (S (length pre) - length pre)%nat with 1%nat by lia.
    reflexivity.
  - rewrite length_app in H. simpl in H. lia.
Qed.

Lemma InternalFilterPolicy_CreateFilterLoop_app (post pre : list bytes) :
  InternalFilterPolicy_CreateFilterLoop (length post) (length pre)
    (pre ++ post) = pre ++ map ExtractUserKey post.
Proof.
  revert pre. induction post as [|k post IH]; intros pre; [reflexivity|].
  simpl length. cbn [InternalFilterPolicy_CreateFilterLoop]. cbv zeta.
  rewrite nth_middle, assign_middle.
  replace (pre ++ ExtractUserKey k :: post)
    with ((pre ++ [ExtractUserKey k]) ++ post)
    by (rewrite <- app_assoc; reflexivity).
  replace (S (length pre)) with (length (pre ++ [ExtractUserKey k]))
    by (rewrite length_app; simpl; lia).
  rewrite IH, <- app_assoc. reflexivity.
Qed.

Lemma InternalFilterPolicy_CreateFilter_map (P : FilterPolicy)
    (keys : list bytes) (dst : bytes) :
  InternalFilterPolicy_CreateFilter P keys dst =
  (map ExtractUserKey keys, CreateFilter P (map ExtractUserKey keys) dst).
Proof.
  unfold InternalFilterPolicy_CreateFilter. cbv zeta.
  pose proof (InternalFilterPolicy_CreateFilterLoop_app keys []) as Hloop.
  simpl in Hloop. rewrite Hloop. reflexivity.
Qed.

Lemma InternalFilterPolicy_CreateFilter_snd (P : FilterPolicy)
    (keys : list bytes) (dst : bytes) :
  CreateFilter (InternalFilterPolicy P) keys dst =
  CreateFilter P (map ExtractUserKey keys) dst.
Proof.
  change (snd (InternalFilterPolicy_CreateFilter P keys dst) =
          CreateFilter P (map ExtractUserKey keys) dst).
  rewrite InternalFilterPolicy_CreateFilter_map. reflexivity.
Qed.

Lemma ExtractUserKey_AppendMVInternalKey (k : ParsedMVInternalKey) :
  ExtractUserKey (AppendMVInternalKey [] k) =
  mv_user_key k
    ++ EncodeFixed64 (PackSequenceAndType (mv_sequence k) (mv_type k)).
Proof.
  unfold AppendMVInternalKey, PutFixed64. cbv zeta. rewrite app_nil_l.
  apply (key_user_app false). apply EncodeFixed64_length.
Qed.

Lemma ExtractUserKey_AppendInternalKey (k : ParsedInternalKey) :
  ExtractUserKey (AppendInternalKey [] k) = user_key k.
Proof.
  unfold AppendInternalKey, PutFixed64. cbv zeta. rewrite app_nil_l.
  apply (key_user_app false). apply EncodeFixed64_length.
Qed.

(** X18. What the filter-policy adapter hands to the user policy.
    [CreateFilter] replaces every entry of the caller's key array by its
    prefix without the last eight bytes and builds the user policy's filter
    from these, so that two arrays with the same such prefixes give the
    same filter; [KeyMayMatch] asks the user policy about that prefix.  For
    a key written by [AppendInternalKey] the prefix is the user key,
    whatever the sequence number and type; for a key written by
    [AppendMVInternalKey] it is the user key followed by the eight bytes of
    the packed sequence number and type, whatever the valid time. *)
Theorem filter_adapter_strips_eight_bytes
    (P : FilterPolicy) (keys : list bytes) (dst : bytes) :
  InternalFilterPolicy_CreateFilter P keys dst =
    (map ExtractUserKey keys, CreateFilter P (map ExtractUserKey keys) dst)
  /\ (forall keys',
        map ExtractUserKey keys' = map ExtractUserKey keys ->
        CreateFilter (InternalFilterPolicy P) keys' dst =
        CreateFilter (InternalFilterPolicy P) keys dst)
  /\ (forall k f,
        InternalFilterPolicy_KeyMayMatch P (AppendInternalKey [] k) f =
        KeyMayMatch P (user_key k) f)
  /\ (forall k f,
        InternalFilterPolicy_KeyMayMatch P (AppendMVInternalKey [] k) f =
        KeyMayMatch P
          (mv_user_key k
             ++ EncodeFixed64
                  (PackSequenceAndType (mv_sequence k) (mv_type k))) f).
Proof.
  split; [apply InternalFilterPolicy_CreateFilter_map|]. split; [|split].
  - intros keys' Heq.
    rewrite !InternalFilterPolicy_CreateFilter_snd, Heq. reflexivity.
  - intros k f. unfold InternalFilterPolicy_KeyMayMatch.
    rewrite ExtractUserKey_AppendInternalKey. reflexivity.
  - intros k f. unfold InternalFilterPolicy_KeyMayMatch.
    rewrite ExtractUserKey_AppendMVInternalKey. reflexivity.
Qed.

Lemma FirstBytePolicy_NoFalseNegatives : NoFalseNegatives FirstBytePolicy.
Proof.
  intros keys dst k Hin. simpl.
  rewrite skipn_app, skipn_all, Nat.sub_diag, skipn_O, app_nil_l.
  apply existsb_exists. exists (hd x00 k). split.
  - apply in_map. exact Hin.
  - apply Z.eqb_refl.
Qed.

(** X19. The adapter over a user policy without false negatives has none
    on internal keys, and matches by user key alone: the filter built from
    an array of internal keys matches every internal key that has the user
    key (the prefix without the last eight bytes) of one of them, whatever
    its sequence number and type. *)
Theorem filter_adapter_matches_by_user_key
    (P : FilterPolicy) (keys : list bytes) (dst k k' : bytes) :
  NoFalseNegatives P ->
  In k keys -> ExtractUserKey k' = ExtractUserKey k ->
  KeyMayMatch (InternalFilterPolicy P) k'
    (skipn (length dst) (CreateFilter (InternalFilterPolicy P) keys dst))
  = true.
Proof.
  intros Hsound Hin Huser.
  rewrite InternalFilterPolicy_CreateFilter_snd.
  change (KeyMayMatch P (ExtractUserKey k')
            (skipn (length dst)
               (CreateFilter P (map ExtractUserKey keys) dst)) = true).
  rewrite Huser.
  apply Hsound. apply in_map. exact Hin.
Qed.

Lemma filter_adapter_matches_by_user_key_witness :
  let stored :=
    AppendInternalKey []
      {| user_key := ["k"%byte]; sequence := 5; type := kTypeDeletion |} in
  let other :=
    AppendInternalKey []
      {| user_key := ["m"%byte]; sequence := 6; type := kTypeValue |} in
  let sought :=
    AppendInternalKey []
      {| user_key := ["k"%byte]; sequence := 9; type := kValueTypeForSeek |} in
  KeyMayMatch (InternalFilterPolicy FirstBytePolicy) sought
    (skipn (length [x01])
       (CreateFilter (InternalFilterPolicy FirstBytePolicy)
          [other; stored] [x01]))
  = true.
Proof.
  intros stored other sought.
  apply (filter_adapter_matches_by_user_key FirstBytePolicy
           [other; stored] [x01] stored sought
           FirstBytePolicy_NoFalseNegatives).
  - simpl. right. left. reflexivity.
  - vm_compute. reflexivity.
Defined.

(** ** Separators, without a contract *)

(** X20. Whatever the user comparator does, [FindShortestSeparator] gives
    an internal key of the mode that is no longer than [start]: it is
    [start] itself, or a strictly shorter key made of the user comparator's
    separator for the two user keys, the sequence number
    [kMaxSequenceNumber] and the tag [kValueTypeForSeek], and in MV mode
    the valid time [kMinValidTime]. *)
Theorem separator_is_no_longer
    (uc : Comparator) (mv : bool) (start limit : bytes) :
  IsInternalKey mv start ->
  let start' := InternalKeyComparator_FindShortestSeparator uc mv start limit in
  IsInternalKey mv start'
  /\ (length start' <= length start)%nat
  /\ (start' = start
      \/ ((length start' < length start)%nat
          /\ key_user mv start' =
             FindShortestSeparator uc (key_user mv start) (key_user mv limit)
          /\ key_sequence mv start' = kMaxSequenceNumber
          /\ key_tag mv start' = ValueType_to_Z kValueTypeForSeek
          /\ (mv = true -> key_valid_time start' = kMinValidTime))).
Proof.
  intros Hkey start'. subst start'.
  rewrite FindShortestSeparator_unfold. cbv zeta.
  set (tmp := FindShortestSeparator uc (key_user mv start) (key_user mv limit)).
  destruct ((length tmp <? length (key_user mv start))%nat
            && (Compare uc (key_user mv start) tmp <? 0)) eqn:Hcond.
  - apply andb_true_iff in Hcond. destruct Hcond as [Hlen _].
    apply Nat.ltb_lt in Hlen.
    assert (Hu : (length (key_user mv start) + trailer_size mv
                  = length start)%nat).
    { unfold IsInternalKey in Hkey. unfold key_user, MVExtractUserKey,
        ExtractUserKey. destruct mv; simpl in *; rewrite length_firstn; lia. }
    assert (Hmax : 0 <= kMaxSequenceNumber <= kMaxSequenceNumber)
      by (unfold kMaxSequenceNumber; simpl; lia).
    assert (Hl : (length (tmp ++ EncodeFixed64
                            (PackSequenceAndType kMaxSequenceNumber
                               kValueTypeForSeek)
                          ++ (if mv then EncodeFixed64 kMinValidTime else []))
                  = length tmp + trailer_size mv)%nat).
    { rewrite !length_app, EncodeFixed64_length. destruct mv; simpl; lia. }
    split; [unfold IsInternalKey; rewrite Hl; lia|].
    split; [rewrite Hl; lia|]. right.
    split; [rewrite Hl; lia|].
    destruct mv.
    + pose proof (AppendMVInternalKey_fields
                    {| mv_user_key := tmp; mv_sequence := kMaxSequenceNumber;
                       mv_type := kValueTypeForSeek;
                       valid_time := kMinValidTime |} Hmax
                    ltac:(unfold kMinValidTime; simpl; lia)) as Hf.
      unfold AppendMVInternalKey, PutFixed64 in Hf. cbv zeta in Hf.
      cbn [mv_user_key mv_sequence mv_type valid_time] in Hf.
      rewrite app_nil_l, <- app_assoc in Hf.
      destruct Hf as (_ & H1 & H2 & H3 & H4).
      repeat split; try assumption. intros _. exact H4.
    + pose proof (AppendInternalKey_fields
                    {| user_key := tmp; sequence := kMaxSequenceNumber;
                       type := kValueTypeForSeek |} Hmax) as Hf.
      unfold AppendInternalKey, PutFixed64 in Hf. cbv zeta in Hf.
      cbn [user_key sequence type] in Hf.
      rewrite app_nil_l in Hf. rewrite app_nil_r.
      destruct Hf as (_ & H1 & H2 & H3). repeat split; try assumption.
      discriminate.
  - split; [exact Hkey|]. split; [lia|]. left. reflexivity.
Qed.

Lemma separator_is_no_longer_witness :
  let uc := BytewiseComparator in
  let start :=
    AppendMVInternalKey []
      {| mv_user_key := ["a"; "b"; "c"; "d"]%byte; mv_sequence := 100;
         mv_type := kTypeValue; valid_time := 7 |} in
  let limit :=
    AppendMVInternalKey []
      {| mv_user_key := ["a"; "b"; "x"]%byte; mv_sequence := 50;
         mv_type := kTypeValue; valid_time := 9 |} in
  let start' :=
    InternalKeyComparator_FindShortestSeparator uc true start limit in
  IsInternalKey true start'
  /\ (length start' <= length start)%nat
  /\ (start' = start
      \/ ((length start' < length start)%nat
          /\ key_user true start' =
             FindShortestSeparator uc (key_user true start)
               (key_user true limit)
          /\ key_sequence true start' = kMaxSequenceNumber
          /\ key_tag true start' = ValueType_to_Z kValueTypeForSeek
          /\ (true = true -> key_valid_time start' = kMinValidTime))).
Proof.
  apply (separator_is_no_longer BytewiseComparator true).
  unfold IsInternalKey. simpl. lia.
Defined.

(** ** The sequence field and [Iterate] *)

Lemma WriteBatch_Iterate_SetSequence (H : Type) (handler : Handler H)
    (rep_ : WriteBatch) (seq : Z) (h : H) :
  (kHeader <= length rep_)%nat ->
  WriteBatch_Iterate handler (WriteBatchInternal_SetSequence rep_ seq) h =
  WriteBatch_Iterate handler rep_ h.
Proof.
  intros Hlen. unfold WriteBatch_Iterate, WriteBatchInternal_Count,
    WriteBatchInternal_SetSequence. cbv zeta.
  destruct (poke_header rep_ (EncodeFixed64 seq) 0 kHeader) as [Hl Hs];
    [simpl; unfold kHeader; lia | exact Hlen |].
  destruct (poke_header rep_ (EncodeFixed64 seq) 0 8) as [_ Hs8];
    [simpl; lia | unfold kHeader in Hlen; lia |].
  rewrite Hl, Hs, Hs8. reflexivity.
Qed.

Lemma WriteBatchInternal_InsertInto_SetSequence (M : Type) (mt : MemTable M)
    (rep_ : WriteBatch) (recs : list BatchRecord) (seq : Z) (mem : M) :
  WellFormed rep_ recs ->
  WriteBatchInternal_InsertInto mt (WriteBatchInternal_SetSequence rep_ seq)
    mem =
  Some (OK, fold_left (perform mt) (add_calls (to_uint64 seq) recs) mem).
Proof.
  intros Hwf.
  destruct (WriteBatchInternal_SetSequence_WellFormed rep_ recs seq Hwf)
    as [Hwf' Hseq].
  rewrite (WriteBatchInternal_InsertInto_WellFormed mt _ recs mem Hwf'), Hseq.
  reflexivity.
Qed.

Lemma WriteBatchMV_Iterate_SetSequence (H : Type) (handler : HandlerMV H)
    (rep_ : WriteBatchMV) (seq : Z) (h : H) :
  (kHeader <= length rep_)%nat ->
  WriteBatchMV_Iterate handler (WriteBatchMVInternal_SetSequence rep_ seq) h =
  WriteBatchMV_Iterate handler rep_ h.
Proof.
  intros Hlen. unfold WriteBatchMV_Iterate, WriteBatchMVInternal_Count,
    WriteBatchMVInternal_SetSequence. cbv zeta.
  destruct (poke_header rep_ (EncodeFixed64 seq) 0 kHeader) as [Hl Hs];
    [simpl; unfold kHeader; lia | exact Hlen |].
  destruct (poke_header rep_ (EncodeFixed64 seq) 0 8) as [_ Hs8];
    [simpl; lia | unfold kHeader in Hlen; lia |].
  rewrite Hl, Hs, Hs8. reflexivity.
Qed.

Lemma WriteBatchMVInternal_InsertInto_SetSequence (M : Type) (mt : MemTable M)
    (rep_ : WriteBatchMV) (recs : list BatchRecordMV) (seq : Z) (mem : M) :
  WellFormedMV rep_ recs ->
  WriteBatchMVInternal_InsertInto mt (WriteBatchMVInternal_SetSequence rep_ seq)
    mem =
  Some (OK, fold_left (perform mt) (add_callsMV (to_uint64 seq) recs) mem).
Proof.
  intros Hwf.
  destruct (WriteBatchMVInternal_SetSequence_WellFormed rep_ recs seq Hwf)
    as [Hwf' Hseq].
  rewrite (WriteBatchMVInternal_InsertInto_WellFormed mt _ recs mem Hwf'), Hseq.
  reflexivity.
Qed.

(** X21. [Iterate] never reads the sequence field.  For a batch of either
    kind with a header, [SetSequence] changes neither the status [Iterate]
    returns nor the handler calls it makes, for any handler; and
    [InsertInto] on a well-formed batch after [SetSequence(seq)] replays
    its records from the [uint64_t] value of [seq] on. *)
Theorem iterate_ignores_the_sequence :
  (forall (rep_ : WriteBatch) (seq : Z),
     (kHeader <= length rep_)%nat ->
     (forall (H : Type) (handler : Handler H) (h : H),
        WriteBatch_Iterate handler (WriteBatchInternal_SetSequence rep_ seq) h
        = WriteBatch_Iterate handler rep_ h)
     /\ (forall (M : Type) (mt : MemTable M) (recs : list BatchRecord)
                (mem : M),
           WellFormed rep_ recs ->
           WriteBatchInternal_InsertInto mt
             (WriteBatchInternal_SetSequence rep_ seq) mem =
           Some (OK,
                 fold_left (perform mt) (add_calls (to_uint64 seq) recs)
                   mem)))
  /\ (forall (rep_ : WriteBatchMV) (seq : Z),
     (kHeader <= length rep_)%nat ->
     (forall (H : Type) (handler : HandlerMV H) (h : H),
        WriteBatchMV_Iterate handler
          (WriteBatchMVInternal_SetSequence rep_ seq) h
        = WriteBatchMV_Iterate handler rep_ h)
     /\ (forall (M : Type) (mt : MemTable M) (recs : list BatchRecordMV)
                (mem : M),
           WellFormedMV rep_ recs ->
           WriteBatchMVInternal_InsertInto mt
             (WriteBatchMVInternal_SetSequence rep_ seq) mem =
           Some (OK,
                 fold_left (perform mt) (add_callsMV (to_uint64 seq) recs)
                   mem))).
Proof.
  split; intros rep_ seq Hlen; split.
  - intros H handler h. apply WriteBatch_Iterate_SetSequence. exact Hlen.
  - intros M mt recs mem. apply WriteBatchInternal_InsertInto_SetSequence.
  - intros H handler h. apply WriteBatchMV_Iterate_SetSequence. exact Hlen.
  - intros M mt recs mem. apply WriteBatchMVInternal_InsertInto_SetSequence.
Qed.

Lemma iterate_ignores_the_sequence_witness :
  (WriteBatch_Iterate Recorder
     (WriteBatchInternal_SetSequence torn_batch 99) [] =
   WriteBatch_Iterate Recorder torn_batch []
   /\ WriteBatchInternal_InsertInto CallLog
        (WriteBatchInternal_SetSequence mixed_batch (2 ^ 64 - 1)) [] =
      Some (OK,
            fold_left (perform CallLog)
              (add_calls (to_uint64 (2 ^ 64 - 1)) mixed_records) []))
  /\ (WriteBatchMV_Iterate RecorderMV
        (WriteBatchMVInternal_SetSequence torn_batchMV 99) [] =
      WriteBatchMV_Iterate RecorderMV torn_batchMV []
      /\ WriteBatchMVInternal_InsertInto CallLog
           (WriteBatchMVInternal_SetSequence mixed_batchMV 3) [] =
         Some (OK,
               fold_left (perform CallLog)
                 (add_callsMV (to_uint64 3) mixed_recordsMV) [])).
Proof.
  split; split.
  - apply (proj1 (proj1 iterate_ignores_the_sequence torn_batch 99
                    ltac:(vm_compute; lia))).
  - apply (proj2 (proj1 iterate_ignores_the_sequence mixed_batch (2 ^ 64 - 1)
                    ltac:(vm_compute; lia))).
    exact mixed_batch_WellFormed.
  - apply (proj1 (proj2 iterate_ignores_the_sequence torn_batchMV 99
                    ltac:(vm_compute; lia))).
  - apply (proj2 (proj2 iterate_ignores_the_sequence mixed_batchMV 3
                    ltac:(vm_compute; lia))).
    exact mixed_batchMV_WellFormed.
Defined.
